(** * The resilient client of the operator dashboard: [APIClient]

    A shallow embedding of [src/web/static/js/api-client.js]: the HTTP
    request wrapper with its retry logic, the credential lifecycle
    ([login], [logout], [refreshAuthToken]), the socket management
    ([connectSocket], [disconnectSocket], [setupSocketHandlers]) and the
    event system ([on], [off], [broadcastEvent]).

    Modelling conventions.
    - JavaScript values that cross the client (response bodies, tokens,
      event payloads) are [JsValue]s; JSON numbers are restricted to
      integers.
    - The client object and what it touches in its host (localStorage,
      the sockets made by [io], pending timers) form a [World]; every
      observable action is appended to [trace].
    - A method is a function [World -> Completion A * World]: it either
      completes normally or throws.  An [async] method is read the same
      way: normal completion is a resolved promise, a throw a rejected one.
      One logical call is followed from start to settlement; other tasks
      interleaving at its [await] points are not modelled.
    - The transport is a sequence of outcomes [network : nat -> FetchOutcome],
      the n-th [fetch] of the run receiving [network n].
    - Registered callbacks are external collaborators: the model records
      that a callback is invoked and whether it returns or throws
      ([behaviour]); callbacks re-entering the client are not modelled.
    - Delivery of socket events to the handlers installed by
      [setupSocketHandlers] belongs to the socket library; it is an explicit
      step of the host ([deliver]). *)

From Stdlib Require Import ZArith String List Lia Bool.
From stdpp Require Import base option list gmap strings pretty.

Open Scope string_scope.
Set Warnings "-register-all".

(** ** JavaScript values *)

Module JS.

Inductive JsValue : Type :=
| VUndefined
| VNull
| VBool (b : bool)
| VNum (n : Z)
| VStr (s : string)
| VArr (items : list JsValue)
| VObj (fields : list (string * JsValue)).

(** Things that can be thrown. [Error v] is [new Error(v)] for a string
    message [v]. *)
Inductive JsError : Type :=
| Error (message : string)
| TypeError (message : string)
| SyntaxError (message : string)
| NetworkError (message : string).

(** ToBoolean. *)
Definition truthy (v : JsValue) : bool :=
  match v with
  | VUndefined | VNull => false
  | VBool b => b
  | VNum n => negb (n =? 0)%Z
  | VStr s => negb (String.eqb s "")
  | VArr _ | VObj _ => true
  end.

(** ToString, as used by template literals, [new Error(v)] and
    [localStorage.setItem]. *)
Fixpoint ToString (v : JsValue) : string :=
  match v with
  | VUndefined => "undefined"
  | VNull => "null"
  | VBool true => "true"
  | VBool false => "false"
  | VNum n => pretty n
  | VStr s => s
  | VArr items =>
      (fix join (l : list JsValue) : string :=
         match l with
         | [] => ""
         | x :: rest =>
             let sx := match x with
                       | VUndefined | VNull => ""
                       | _ => ToString x
                       end in
             match rest with
             | [] => sx
             | _ :: _ => sx ++ "," ++ join rest
             end
         end) items
  | VObj _ => "[object Object]"
  end.

Fixpoint assoc (k : string) (fields : list (string * JsValue)) : option JsValue :=
  match fields with
  | [] => None
  | (k', v) :: rest => if String.eqb k k' then Some v else assoc k rest
  end.

(** Property read [v.k] for the property names the client reads
    ([error], [token], [user]); reading a property of [null] or [undefined]
    throws. *)
Definition get_prop (v : JsValue) (k : string) : JsError + JsValue :=
  match v with
  | VUndefined | VNull =>
      inl (TypeError ("Cannot read properties of " ++ ToString v))
  | VObj fields => inr (default VUndefined (assoc k fields))
  | _ => inr VUndefined
  end.

(** [a || b] *)
Definition or_else (a b : JsValue) : JsValue := if truthy a then a else b.

End JS.
Export JS.

(** ** The client and its host *)

(** A callback is known by its identity (function objects are compared by
    reference). *)
Definition Callback := nat.
Definition SocketId := nat.

(** A JS [Set]: insertion-ordered, no duplicates. *)
Definition set_add (x : Callback) (s : list Callback) : list Callback :=
  if decide (x ∈ s) then s else s ++ [x].

Definition set_delete (x : Callback) (s : list Callback) : list Callback :=
  filter (λ y, y ≠ x) s.

Inductive BodyText : Type :=
| JSON_stringify (v : JsValue).

(** The [options] argument of [request]. *)
Record Options : Type := mkOptions {
  opt_method : option string;
  opt_body : option BodyText;
  opt_headers : option (gmap string string)
}.

(** The [config] object handed to [fetch]. *)
Record Config : Type := mkConfig {
  cfg_headers : gmap string string;
  cfg_method : option string;
  cfg_body : option BodyText
}.

Record Response : Type := mkResponse {
  status : Z;
  (** the parsed body; [None] when the body is not JSON and
      [response.json()] rejects *)
  json_body : option JsValue
}.

Definition ok (r : Response) : bool := ((200 <=? status r) && (status r <=? 299))%Z.

Inductive FetchOutcome : Type :=
| FetchFailed (e : JsError)
| FetchResponse (r : Response).

Inductive TimerAction : Type :=
| Reconnect   (* () => this.connectSocket() *)
| Heartbeat.  (* the heartbeat closure *)

Inductive Effect : Type :=
| Fetch (url : string) (config : Config)
| Delay (ms : Z)
| Invoke (cb : Callback) (data : JsValue)
| ConsoleLog (msg : string)
| ConsoleError (msg : string) (e : JsError)
| IoOpen (sid : SocketId) (auth_token : JsValue)
| SocketOn (sid : SocketId) (event : string)
| SocketEmit (sid : SocketId) (event : string) (data : JsValue)
| SocketDisconnect (sid : SocketId)
| SetTimeout (ms : Z) (action : TimerAction)
| SetInterval (ms : Z) (action : TimerAction).

Record SocketObj : Type := mkSocket {
  connected : bool;
  auth : JsValue;
  handlers : list string
}.

Record APIClient : Type := mkClient {
  baseURL : string;
  token : JsValue;
  refreshToken : JsValue;
  maxRetries : nat;
  retryDelay : Z;
  eventListeners : gmap string (list Callback);
  socket : option SocketId;
  socketConnected : bool;
  reconnectAttempts : nat;
  maxReconnectAttempts : nat;
  reconnectDelay : Z
}.

Record World : Type := mkWorld {
  client : APIClient;
  localStorage : gmap string string;
  sockets : list SocketObj;
  timeouts : list (Z * TimerAction);
  intervals : list (Z * TimerAction);
  fetches : nat;
  trace : list Effect
}.

Definition set_token (v : JsValue) (c : APIClient) : APIClient :=
  mkClient (baseURL c) v (refreshToken c) (maxRetries c) (retryDelay c)
    (eventListeners c) (socket c) (socketConnected c) (reconnectAttempts c)
    (maxReconnectAttempts c) (reconnectDelay c).

Definition set_eventListeners (m : gmap string (list Callback)) (c : APIClient) : APIClient :=
  mkClient (baseURL c) (token c) (refreshToken c) (maxRetries c) (retryDelay c)
    m (socket c) (socketConnected c) (reconnectAttempts c)
    (maxReconnectAttempts c) (reconnectDelay c).

Definition set_socket (o : option SocketId) (c : APIClient) : APIClient :=
  mkClient (baseURL c) (token c) (refreshToken c) (maxRetries c) (retryDelay c)
    (eventListeners c) o (socketConnected c) (reconnectAttempts c)
    (maxReconnectAttempts c) (reconnectDelay c).

Definition set_socketConnected (b : bool) (c : APIClient) : APIClient :=
  mkClient (baseURL c) (token c) (refreshToken c) (maxRetries c) (retryDelay c)
    (eventListeners c) (socket c) b (reconnectAttempts c)
    (maxReconnectAttempts c) (reconnectDelay c).

Definition set_reconnectAttempts (n : nat) (c : APIClient) : APIClient :=
  mkClient (baseURL c) (token c) (refreshToken c) (maxRetries c) (retryDelay c)
    (eventListeners c) (socket c) (socketConnected c) n
    (maxReconnectAttempts c) (reconnectDelay c).

Definition with_client (f : APIClient → APIClient) (w : World) : World :=
  mkWorld (f (client w)) (localStorage w) (sockets w) (timeouts w) (intervals w)
    (fetches w) (trace w).

Definition set_localStorage (m : gmap string string) (w : World) : World :=
  mkWorld (client w) m (sockets w) (timeouts w) (intervals w) (fetches w) (trace w).

Definition set_sockets (l : list SocketObj) (w : World) : World :=
  mkWorld (client w) (localStorage w) l (timeouts w) (intervals w) (fetches w) (trace w).

Definition set_timeouts (l : list (Z * TimerAction)) (w : World) : World :=
  mkWorld (client w) (localStorage w) (sockets w) l (intervals w) (fetches w) (trace w).

Definition set_intervals (l : list (Z * TimerAction)) (w : World) : World :=
  mkWorld (client w) (localStorage w) (sockets w) (timeouts w) l (fetches w) (trace w).

Definition set_fetches (n : nat) (w : World) : World :=
  mkWorld (client w) (localStorage w) (sockets w) (timeouts w) (intervals w) n (trace w).

Definition emit_effect (e : Effect) (w : World) : World :=
  mkWorld (client w) (localStorage w) (sockets w) (timeouts w) (intervals w)
    (fetches w) (trace w ++ [e]).

(** [new APIClient()] in a host whose localStorage is [store]. *)
Definition getItem (store : gmap string string) (k : string) : JsValue :=
  match store !! k with
  | Some s => VStr s
  | None => VNull
  end.

Definition constructor (store : gmap string string) : APIClient :=
  {| baseURL := "/api";
     token := getItem store "token";
     refreshToken := getItem store "refresh_token";
     maxRetries := 3;
     retryDelay := 1000;
     eventListeners := ∅;
     socket := None;
     socketConnected := false;
     reconnectAttempts := 0;
     maxReconnectAttempts := 5;
     reconnectDelay := 2000 |}.

Definition boot (store : gmap string string) : World :=
  {| client := constructor store;
     localStorage := store;
     sockets := [];
     timeouts := [];
     intervals := [];
     fetches := 0;
     trace := [] |}.

(** ** Completions and the method monad *)

Inductive Completion (A : Type) : Type :=
| Normal (a : A)
| Throw (e : JsError).
Arguments Normal {A} a.
Arguments Throw {A} e.

Definition M (A : Type) : Type := World → Completion A * World.

Definition ret {A} (a : A) : M A := λ w, (Normal a, w).
Definition throw {A} (e : JsError) : M A := λ w, (Throw e, w).
Definition bind {A B} (m : M A) (k : A → M B) : M B :=
  λ w, match m w with
       | (Normal a, w') => k a w'
       | (Throw e, w') => (Throw e, w')
       end.
Definition try_catch {A} (m : M A) (h : JsError → M A) : M A :=
  λ w, match m w with
       | (Normal a, w') => (Normal a, w')
       | (Throw e, w') => h e w'
       end.
Definition modify (f : World → World) : M unit := λ w, (Normal tt, f w).
Definition effect (e : Effect) : M unit := modify (emit_effect e).
Definition read {A} (f : World → A) : M A := λ w, (Normal (f w), w).
Definition when (b : bool) (m : M unit) : M unit := if b then m else ret tt.

Notation "'do' x <- m ; k" := (bind m (λ x, k))
  (at level 10, x name, m at level 100, k at level 200).
Notation "'run' m ; k" := (bind m (λ _, k))
  (at level 10, m at level 100, k at level 200).

(** ** The class [APIClient] *)

Inductive CallbackOutcome : Type :=
| Returns
| Throws (e : JsError).

Section Methods.

(** The transport: outcome of the n-th [fetch] of the run. *)
Variable network : nat → FetchOutcome.
(** What a registered callback does when called with a payload. *)
Variable behaviour : Callback → JsValue → CallbackOutcome.

(** *** Event system *)

(** [on(event, callback)] *)
Definition on (event : string) (callback : Callback) : M unit :=
  modify (with_client (λ c,
    let listeners := default [] (eventListeners c !! event) in
    set_eventListeners (<[event := set_add callback listeners]> (eventListeners c)) c)).

(** [off(event, callback)] *)
Definition off (event : string) (callback : Callback) : M unit :=
  modify (with_client (λ c,
    match eventListeners c !! event with
    | Some listeners =>
        set_eventListeners (<[event := set_delete callback listeners]> (eventListeners c)) c
    | None => c
    end)).

(** [callback(data)] *)
Definition call (callback : Callback) (data : JsValue) : M unit :=
  run effect (Invoke callback data);
  match behaviour callback data with
  | Returns => ret tt
  | Throws e => throw e
  end.

(** [listeners.forEach(callback => callback(data))] *)
Fixpoint forEach (listeners : list Callback) (data : JsValue) : M unit :=
  match listeners with
  | [] => ret tt
  | callback :: rest => run call callback data; forEach rest data
  end.

(** [broadcastEvent(event, data)] *)
Definition broadcastEvent (event : string) (data : JsValue) : M unit :=
  do listeners <- read (λ w, eventListeners (client w) !! event);
  match listeners with
  | Some l => forEach l data
  | None => ret tt
  end.

(** [delay(ms)], awaited *)
Definition delay (ms : Z) : M unit := effect (Delay ms).

(** *** Socket management *)

Definition socket_connected (w : World) (sid : SocketId) : bool :=
  match sockets w !! sid with
  | Some so => connected so
  | None => false
  end.

(** [this.socket?.connected] as a condition *)
Definition current_socket_connected (w : World) : bool :=
  match socket (client w) with
  | Some sid => socket_connected w sid
  | None => false
  end.

Definition set_connected (b : bool) (so : SocketObj) : SocketObj :=
  mkSocket b (auth so) (handlers so).

Definition add_handler (event : string) (so : SocketObj) : SocketObj :=
  mkSocket (connected so) (auth so) (handlers so ++ [event]).

(** [socket.on(event, handler)] *)
Definition socket_on (sid : SocketId) (event : string) : M unit :=
  run modify (λ w, set_sockets (alter (add_handler event) sid (sockets w)) w);
  effect (SocketOn sid event).

(** [socket.disconnect()]: the library closes the socket. *)
Definition socket_disconnect (sid : SocketId) : M unit :=
  run modify (λ w, set_sockets (alter (set_connected false) sid (sockets w)) w);
  effect (SocketDisconnect sid).

(** [io({transports: [...], auth: {token}})]: a fresh socket, not yet
    connected. *)
Definition io (tok : JsValue) : M SocketId :=
  do sid <- read (λ w, length (sockets w));
  run modify (λ w, set_sockets (sockets w ++ [mkSocket false tok []]) w);
  run effect (IoOpen sid tok);
  ret sid.

Definition socket_events : list string :=
  ["connect"; "disconnect"; "bot_detection"; "dashboard_update";
   "system_alert"; "log_entry"; "heartbeat_ack"].

Fixpoint register_all (sid : SocketId) (events : list string) : M unit :=
  match events with
  | [] => ret tt
  | ev :: rest => run socket_on sid ev; register_all sid rest
  end.

(** [setupSocketHandlers()] *)
Definition setupSocketHandlers : M unit :=
  do s <- read (λ w, socket (client w));
  match s with
  | None => ret tt
  | Some sid =>
      run register_all sid socket_events;
      (* Start heartbeat *)
      run modify (λ w, set_intervals (intervals w ++ [(30000%Z, Heartbeat)]) w);
      effect (SetInterval 30000 Heartbeat)
  end.

(** [connectSocket()] *)
Definition connectSocket : M unit :=
  do up <- read current_socket_connected;
  if up : bool then ret tt
  else
    do tok <- read (λ w, token (client w));
    do sid <- io tok;
    run modify (with_client (set_socket (Some sid)));
    setupSocketHandlers.

(** [disconnectSocket()] *)
Definition disconnectSocket : M unit :=
  do s <- read (λ w, socket (client w));
  match s with
  | Some sid =>
      run socket_disconnect sid;
      run modify (with_client (set_socket None));
      modify (with_client (set_socketConnected false))
  | None => ret tt
  end.

(** The handlers installed by [setupSocketHandlers]. *)

(** [this.socket.emit(event, data)] where [this.socket] may be [null] *)
Definition emit_on_current (event : string) (data : JsValue) : M unit :=
  do s <- read (λ w, socket (client w));
  match s with
  | Some sid => effect (SocketEmit sid event data)
  | None => throw (TypeError "Cannot read properties of null")
  end.

Definition on_connect : M unit :=
  run effect (ConsoleLog "WebSocket connected");
  run modify (with_client (set_socketConnected true));
  run modify (with_client (set_reconnectAttempts 0));
  run broadcastEvent "socketChange" (VObj [("connected", VBool true)]);
  (* Subscribe to dashboard updates *)
  emit_on_current "subscribe" (VObj [("room", VStr "dashboard")]).

Definition on_disconnect : M unit :=
  run effect (ConsoleLog "WebSocket disconnected");
  run modify (with_client (set_socketConnected false));
  run broadcastEvent "socketChange" (VObj [("connected", VBool false)]);
  (* Attempt reconnection *)
  do c <- read client;
  if decide (reconnectAttempts c < maxReconnectAttempts c) then
    run modify (with_client (set_reconnectAttempts (S (reconnectAttempts c))));
    run modify (λ w, set_timeouts (timeouts w ++ [(reconnectDelay c, Reconnect)]) w);
    effect (SetTimeout (reconnectDelay c) Reconnect)
  else ret tt.

(** The forwarding handlers: server event name to local event name. *)
Definition forwarded (event : string) : option string :=
  if String.eqb event "bot_detection" then Some "botDetection"
  else if String.eqb event "dashboard_update" then Some "dashboardUpdate"
  else if String.eqb event "system_alert" then Some "systemAlert"
  else if String.eqb event "log_entry" then Some "logEntry"
  else if String.eqb event "heartbeat_ack" then Some "heartbeatAck"
  else None.

(** The heartbeat closure at time [now]. *)
Definition heartbeat (now : Z) : M unit :=
  do up <- read current_socket_connected;
  if up : bool then emit_on_current "heartbeat" (VObj [("timestamp", VNum now)])
  else ret tt.

(** *** Authentication *)

Definition removeItem (k : string) : M unit :=
  modify (λ w, set_localStorage (delete k (localStorage w)) w).

(** [localStorage.setItem(k, v)]: the value is stored as a string. *)
Definition setItem (k : string) (v : JsValue) : M unit :=
  modify (λ w, set_localStorage (<[k := ToString v]> (localStorage w)) w).

(** [logout()] *)
Definition logout : M unit :=
  run modify (with_client (set_token VNull));
  run removeItem "token";
  run removeItem "remember_me";
  run disconnectSocket;
  broadcastEvent "authChange" (VObj [("authenticated", VBool false)]).

(** [isAuthenticated()] *)
Definition isAuthenticated (w : World) : bool := truthy (token (client w)).

(** [refreshAuthToken()] *)
Definition refreshAuthToken : M bool :=
  try_catch
    ((* In production, implement proper token refresh logic *)
     run logout;
     ret false)
    (λ error,
     run effect (ConsoleError "Token refresh failed:" error);
     run logout;
     ret false).

(** *** HTTP request wrapper *)

Definition authorize (tok : JsValue) (h : gmap string string) : gmap string string :=
  <["Authorization" := "Bearer " ++ ToString tok]> h.

(** [config = { headers: { 'Content-Type': ..., ...options.headers }, ...options }]:
    when [options] has its own [headers], the spread of [options] puts that
    very object under [config.headers]. *)
Definition config_headers (options : Options) : gmap string string :=
  match opt_headers options with
  | Some h => h
  | None => {["Content-Type" := "application/json"]}
  end.

(** [config.headers['Authorization'] = ...] writes through to
    [options.headers] when the two are the same object. *)
Definition write_through (options : Options) (h : gmap string string) : Options :=
  match opt_headers options with
  | Some _ => mkOptions (opt_method options) (opt_body options) (Some h)
  | None => options
  end.

(** [await fetch(url, config)] *)
Definition fetch (url : string) (config : Config) : M Response :=
  run effect (Fetch url config);
  do n <- read fetches;
  run modify (set_fetches (S n));
  match network n with
  | FetchFailed e => throw e
  | FetchResponse r => ret r
  end.

(** [await response.json()] *)
Definition json (r : Response) : M JsValue :=
  match json_body r with
  | Some v => ret v
  | None => throw (SyntaxError "Unexpected token in JSON")
  end.

Definition prop (v : JsValue) (k : string) : M JsValue :=
  match get_prop v k with
  | inl e => throw e
  | inr x => ret x
  end.

(** How one activation of [request] ends when it does not throw: with the
    parsed body, or with [return this.request(endpoint, options, retryCount + 1)].
    The promise of the recursive call is returned without [await], so its
    rejection is not seen by the [catch] of the activation that made it. *)
Inductive Next : Type :=
| Return (data : JsValue)
| Retry (options : Options).

(** The [try] block of [request] after [fetch] has answered; [headers] is
    the object under [config.headers]. *)
Definition handle_response (options : Options) (headers : gmap string string)
    (retryCount : nat) (response : Response) : M Next :=
  (* Handle unauthorized responses *)
  do c <- read client;
  do unauthorized <-
    (if decide (status response = 401%Z ∧ retryCount < maxRetries c) then
       do refreshed <- refreshAuthToken;
       if refreshed : bool then
         do tok <- read (λ w, token (client w));
         ret (Some (Retry (write_through options (authorize tok headers))))
       else ret None
     else ret None);
  match unauthorized with
  | Some next => ret next
  | None =>
      (* Handle rate limiting *)
      do c <- read client;
      do limited <-
        (if decide (status response = 429%Z) then
           if decide (retryCount < maxRetries c) then
             run delay (retryDelay c * 2 ^ Z.of_nat retryCount);
             ret (Some (Retry options))
           else ret None
         else ret None);
      match limited with
      | Some next => ret next
      | None =>
          do data <- json response;
          if negb (ok response) then
            do err <- prop data "error";
            throw (Error (ToString (or_else err (VStr "Request failed"))))
          else ret (Return data)
      end
  end.

(** The [catch] block of [request]. *)
Definition handle_error (options : Options) (retryCount : nat) (error : JsError) : M Next :=
  do c <- read client;
  if decide (retryCount < maxRetries c) then
    run delay (retryDelay c);
    ret (Retry options)
  else throw error.

(** The body of [request(endpoint, options, retryCount)] up to its
    recursive call. *)
Definition attempt (endpoint : string) (options : Options) (retryCount : nat) : M Next :=
  do c <- read client;
  let url := baseURL c ++ endpoint in
  (* Add authentication token if available *)
  let headers := if truthy (token c)
                 then authorize (token c) (config_headers options)
                 else config_headers options in
  let options := write_through options headers in
  let config := mkConfig headers (opt_method options) (opt_body options) in
  try_catch
    (do response <- fetch url config;
     handle_response options headers retryCount response)
    (handle_error options retryCount).

(** [request(endpoint, options, retryCount)].  [fuel] bounds the depth of
    the recursion; [None] means the bound was reached before the call
    settled. *)
Fixpoint request_fuel (fuel : nat) (endpoint : string) (options : Options)
    (retryCount : nat) (w : World) : option (Completion JsValue * World) :=
  match fuel with
  | O => None
  | S fuel' =>
      match attempt endpoint options retryCount w with
      | (Normal (Return data), w') => Some (Normal data, w')
      | (Normal (Retry options'), w') =>
          request_fuel fuel' endpoint options' (S retryCount) w'
      | (Throw e, w') => Some (Throw e, w')
      end
  end.

(** [request(endpoint, options)], with [retryCount = 0]. *)
Definition request (endpoint : string) (options : Options) (w : World)
    : option (Completion JsValue * World) :=
  request_fuel (S (maxRetries (client w))) endpoint options 0 w.

(** [post(endpoint, data)] *)
Definition post (endpoint : string) (data : JsValue) (w : World)
    : option (Completion JsValue * World) :=
  request endpoint (mkOptions (Some "POST") (Some (JSON_stringify data)) None) w.

(** [put(endpoint, data)] *)
Definition put (endpoint : string) (data : JsValue) (w : World)
    : option (Completion JsValue * World) :=
  request endpoint (mkOptions (Some "PUT") (Some (JSON_stringify data)) None) w.

(** The [catch] block of [login]. *)
Definition login_failed (error : JsError) : M JsValue :=
  run effect (ConsoleError "Login failed:" error);
  throw error.

(** [login(username, password, rememberMe)] *)
Definition login (username password : JsValue) (rememberMe : bool) (w : World)
    : option (Completion JsValue * World) :=
  match post "/login" (VObj [("username", username); ("password", password)]) w with
  | None => None
  | Some (Throw error, w') => Some (login_failed error w')
  | Some (Normal response, w') =>
      Some (try_catch
        (do tok <- prop response "token";
         run modify (with_client (set_token tok));
         run setItem "token" tok;
         run when rememberMe (setItem "remember_me" (VStr "true"));
         do user <- prop response "user";
         run broadcastEvent "authChange"
               (VObj [("authenticated", VBool true); ("user", user)]);
         ret response)
        login_failed w')
  end.

(** *** The host delivering events to the client *)

Inductive HostEvent : Type :=
| SocketOpened (sid : SocketId)
| SocketClosed (sid : SocketId)
| SocketMessage (sid : SocketId) (event : string) (data : JsValue)
| TimeoutFires (i : nat)
| IntervalTicks (i : nat) (now : Z).

Definition has_handler (w : World) (sid : SocketId) (event : string) : bool :=
  match sockets w !! sid with
  | Some so => bool_decide (event ∈ handlers so)
  | None => false
  end.

Definition run_timer (a : TimerAction) (now : Z) : M unit :=
  match a with
  | Reconnect => connectSocket
  | Heartbeat => heartbeat now
  end.

(** One turn of the event loop. *)
Definition deliver (ev : HostEvent) : M unit :=
  match ev with
  | SocketOpened sid =>
      do h <- read (λ w, has_handler w sid "connect");
      run modify (λ w, set_sockets (alter (set_connected true) sid (sockets w)) w);
      when h on_connect
  | SocketClosed sid =>
      do h <- read (λ w, has_handler w sid "disconnect");
      run modify (λ w, set_sockets (alter (set_connected false) sid (sockets w)) w);
      when h on_disconnect
  | SocketMessage sid event data =>
      do h <- read (λ w, has_handler w sid event);
      match forwarded event with
      | Some local => when h (broadcastEvent local data)
      | None => ret tt
      end
  | TimeoutFires i =>
      do t <- read (λ w, timeouts w !! i);
      match t with
      | Some (_, a) =>
          run modify (λ w, set_timeouts (take i (timeouts w) ++ drop (S i) (timeouts w)) w);
          run_timer a 0
      | None => ret tt
      end
  | IntervalTicks i now =>
      do t <- read (λ w, intervals w !! i);
      match t with
      | Some (_, a) => run_timer a now
      | None => ret tt
      end
  end.

(** A run of the event loop; an exception escaping a handler ends that
    turn only. *)
Fixpoint deliver_all (evs : list HostEvent) (w : World) : World :=
  match evs with
  | [] => w
  | ev :: rest => deliver_all rest (snd (deliver ev w))
  end.

End Methods.

(** The script itself: [const apiClient = new APIClient()], then
    [if (apiClient.isAuthenticated()) apiClient.connectSocket()]. *)
Definition startup (store : gmap string string) : World :=
  let w := boot store in
  if isAuthenticated w then snd (connectSocket w) else w.

(** ** Vocabulary of the properties *)

Open Scope list_scope.
Open Scope nat_scope.

(** Appending a batch of effects to the trace. *)
Definition emit_all (es : list Effect) (w : World) : World :=
  mkWorld (client w) (localStorage w) (sockets w) (timeouts w) (intervals w)
    (fetches w) (trace w ++ es).

(** Calling [on(event, cb)] for each [cb] of a list, in order. *)
Fixpoint subscribe (event : string) (cbs : list Callback) (w : World) : World :=
  match cbs with
  | [] => w
  | cb :: rest => subscribe event rest (snd (on event cb w))
  end.

(** The handlers currently registered for an event. *)
Definition registered (w : World) (event : string) : list Callback :=
  default [] (eventListeners (client w) !! event).

Definition invocations (data : JsValue) (cbs : list Callback) : list Effect :=
  map (λ cb, Invoke cb data) cbs.

(** A method keeps a relation between the world before and after it. *)
Definition keeps {A} (R : World → World → Prop) (m : M A) : Prop :=
  ∀ w, R w (snd (m w)).

(** The part [f] of the world is the same before and after. *)
Definition unchanged {B} (f : World → B) (w w' : World) : Prop := f w' = f w.

(** The constants the constructor sets and no method assigns. *)
Definition settings (w : World) : string * nat * Z * nat * Z :=
  let c := client w in
  (baseURL c, maxRetries c, retryDelay c, maxReconnectAttempts c, reconnectDelay c).

(** The credential state: the token held by the client and the persisted
    entries. *)
Definition credentials (w : World) : JsValue * option string * option string :=
  (token (client w), localStorage w !! "token", localStorage w !! "remember_me").

Definition is_invoke (e : Effect) : bool :=
  match e with Invoke _ _ => true | _ => false end.

Definition is_delay (e : Effect) : option Z :=
  match e with Delay ms => Some ms | _ => None end.

Definition is_set_timeout (e : Effect) : bool :=
  match e with SetTimeout _ _ => true | _ => false end.

Definition is_io_open (e : Effect) : bool :=
  match e with IoOpen _ _ => true | _ => false end.

(** The delays awaited, in order. *)
Definition delays (tr : list Effect) : list Z := omap is_delay tr.

(** The callbacks invoked with their payloads, in order. *)
Definition invoked (tr : list Effect) : list Effect := filter (λ e, is_invoke e = true) tr.


(** What [request] sends at a given world: the header object, the
    [options] object after the write of the [Authorization] header, and
    the [config] handed to [fetch]. *)
Definition sent_headers (w : World) (options : Options) : gmap string string :=
  if truthy (token (client w))
  then authorize (token (client w)) (config_headers options)
  else config_headers options.

Definition sent_options (w : World) (options : Options) : Options :=
  write_through options (sent_headers w options).

Definition sent_config (w : World) (options : Options) : Config :=
  mkConfig (sent_headers w options) (opt_method options) (opt_body options).

(** The world right after [fetch(url, config)] was called. *)
Definition fetched (endpoint : string) (options : Options) (w : World) : World :=
  set_fetches (S (fetches w))
    (emit_effect (Fetch (baseURL (client w) ++ endpoint)%string (sent_config w options)) w).

(** The effects a call added to the trace. *)
Definition added (w w' : World) : list Effect := drop (length (trace w)) (trace w').

(** The status of the n-th response of a transport, if it answers. *)
Definition status_at (network : nat → FetchOutcome) (n : nat) : option Z :=
  match network n with
  | FetchResponse r => Some (status r)
  | FetchFailed _ => None
  end.

(** The n-th response of the transport is a refusal with the server
    message [msg]: a status other than 2xx, 401 and 429 and a JSON body
    whose [error] field is the non-empty string [msg]. *)
Definition refuses (network : nat → FetchOutcome) (n : nat) (msg : string) : Prop :=
  ∃ r data,
    network n = FetchResponse r ∧ ok r = false
    ∧ status r ≠ 401%Z ∧ status r ≠ 429%Z
    ∧ json_body r = Some data ∧ get_prop data "error" = inr (VStr msg)
    ∧ msg ≠ ""%string.

Definition is_transport (e : Effect) : Prop :=
  match e with
  | Fetch _ _ | Delay _ => True
  | _ => False
  end.

(** The second world is the first one after transport activity only:
    calls of [fetch] and awaited delays. *)
Definition transport_only (w w' : World) : Prop :=
  ∃ n es, w' = set_fetches n (emit_all es w) ∧ Forall is_transport es.

(** Counting effects in a trace. *)
Definition count_effects (p : Effect → bool) (tr : list Effect) : nat :=
  length (filter (λ e, p e = true) tr).

Definition is_log (msg : string) (e : Effect) : bool :=
  match e with ConsoleLog m => String.eqb m msg | _ => false end.

(** Reconnections scheduled so far. *)
Definition scheduled (w : World) : nat := count_effects is_set_timeout (trace w).

(** Runs of the [disconnect] handler so far. *)
Definition closed (w : World) : nat :=
  count_effects (is_log "WebSocket disconnected") (trace w).

(** Runs of the [connect] handler so far: connections that succeeded. *)
Definition opened (w : World) : nat :=
  count_effects (is_log "WebSocket connected") (trace w).

(** Sockets opened by [io] so far. *)
Definition opened_sockets (w : World) : nat := count_effects is_io_open (trace w).


(** An effect that is neither a scheduled reconnection nor the log line of
    the [connect] or [disconnect] handler. *)
Definition quiet (e : Effect) : Prop :=
  is_set_timeout e = false
  ∧ is_log "WebSocket disconnected" e = false
  ∧ is_log "WebSocket connected" e = false.

Definition went_down : JsValue := VObj [("connected", VBool false)].

(** Whether publishing the loss of the connection throws, given the
    listeners of [socketChange] and what they do. *)
Definition notify_throws (behaviour : Callback → JsValue → CallbackOutcome)
    (w : World) : bool :=
  match fst (broadcastEvent behaviour "socketChange" went_down w) with
  | Throw _ => true
  | Normal _ => false
  end.

(** The reconnection the [disconnect] handler schedules. *)
Definition schedule_reconnect (w : World) : World :=
  emit_effect (SetTimeout (reconnectDelay (client w)) Reconnect)
    (set_timeouts (timeouts w ++ [(reconnectDelay (client w), Reconnect)])
       (with_client (set_reconnectAttempts (S (reconnectAttempts (client w)))) w)).

(** What the reconnection logic reads and writes, and the three counts
    read off the trace. *)
Definition watch (w : World) :=
  (scheduled w, closed w, opened w,
   reconnectAttempts (client w), maxReconnectAttempts (client w),
   socketConnected (client w), eventListeners (client w)).


(** ** Scenarios *)

(** Callbacks that all return. *)
Definition well_behaved : Callback → JsValue → CallbackOutcome := λ _ _, Returns.

(** Callback 1 throws, every other callback returns. *)
Definition first_throws : Callback → JsValue → CallbackOutcome :=
  λ cb _, match cb with
          | 1 => Throws (Error "render failed")
          | _ => Returns
          end.

(** Every callback throws. *)
Definition always_throws : Callback → JsValue → CallbackOutcome :=
  λ _ _, Throws (Error "render failed").

Definition log_entry : JsValue :=
  VObj [("data", VObj [("level", VStr "ERROR"); ("message", VStr "x")])].

Definition get_options : Options := mkOptions (Some "GET"%string) None None.

Definition stats : JsValue := VObj [("active_bots", VNum 42)].

(** First answer 429, every later answer 200 with the stats. *)
Definition rate_limited_once : nat → FetchOutcome :=
  λ n, match n with
       | 0 => FetchResponse (mkResponse 429 (Some (VObj [("error", VStr "Too many requests")])))
       | _ => FetchResponse (mkResponse 200 (Some stats))
       end.

(** First answer 500 with a message, every later answer 200 with the
    stats. *)
Definition fails_once : nat → FetchOutcome :=
  λ n, match n with
       | 0 => FetchResponse (mkResponse 500 (Some (VObj [("error", VStr "database unavailable")])))
       | _ => FetchResponse (mkResponse 200 (Some stats))
       end.

(** Every answer is 404 with a message. *)
Definition always_not_found : nat → FetchOutcome :=
  λ _, FetchResponse (mkResponse 404 (Some (VObj [("error", VStr "Not found")]))).

(** Every answer is 401 with a message. *)
Definition always_unauthorized : nat → FetchOutcome :=
  λ _, FetchResponse (mkResponse 401 (Some (VObj [("error", VStr "Unauthorized")]))).

(** First answer 401, every later answer 200 with the stats. *)
Definition unauthorized_once : nat → FetchOutcome :=
  λ n, match n with
       | 0 => FetchResponse (mkResponse 401 (Some (VObj [("error", VStr "Unauthorized")])))
       | _ => FetchResponse (mkResponse 200 (Some stats))
       end.

(** A signed-in client as the page loads: a persisted token and remember-me
    flag, the socket opened by the script, and one consumer (callback 5)
    listening to [authChange]. *)
Definition signed_in : World :=
  snd (on "authChange" 5
         (startup (<["token" := "abc"%string]> (<["remember_me" := "true"%string]> ∅)))).

Definition signed_out_event : JsValue := VObj [("authenticated", VBool false)].

(** A client that has called [connectSocket] once: the socket exists but
    has not opened yet. *)
Definition connecting : World := snd (connectSocket (boot ∅)).

(** The same client once the socket has opened. *)
Definition live_channel : World := deliver_all well_behaved [SocketOpened 0] connecting.

(** ** Vocabulary of the further properties *)

(** The world right after [logout] has dropped the token and the persisted
    entries, before the socket is closed and [authChange] is published. *)
Definition forgotten (w : World) : World :=
  set_localStorage (delete "remember_me" (delete "token" (localStorage w)))
    (with_client (set_token VNull) w).

(** The payload [login] publishes. *)
Definition signed_in_event (user : JsValue) : JsValue :=
  VObj [("authenticated", VBool true); ("user", user)].

(** The world right after [login] has installed the token of the response. *)
Definition remembered (tok : JsValue) (rememberMe : bool) (w : World) : World :=
  let w1 := set_localStorage (<["token" := ToString tok]> (localStorage w))
              (with_client (set_token tok) w) in
  if rememberMe
  then set_localStorage (<["remember_me" := "true"%string]> (localStorage w1)) w1
  else w1.

Definition login_data (username password : JsValue) : JsValue :=
  VObj [("username", username); ("password", password)].

Definition is_fetch (e : Effect) : bool :=
  match e with Fetch _ _ => true | _ => false end.

(** The trace of the second world extends the trace of the first by effects
    that all satisfy [φ]. *)
Definition grows (φ : Effect → Prop) (w w' : World) : Prop :=
  ∃ es, trace w' = trace w ++ es ∧ Forall φ es.

Definition not_fetch (e : Effect) : Prop := is_fetch e = false.

(** A [fetch] of the given request: same URL, method and body. *)
Definition same_request (url : string) (options : Options) (e : Effect) : Prop :=
  match e with
  | Fetch url' config =>
      url' = url ∧ cfg_method config = opt_method options
      ∧ cfg_body config = opt_body options
  | _ => True
  end.

(** An outcome of [fetch] that makes an activation of [request] throw
    without any handling of its own: no response at all, or a response
    other than 401 and 429 whose body is not JSON, or that is not 2xx.
    The value is the error thrown inside [try]. *)
Definition plain_failure (o : FetchOutcome) : option JsError :=
  match o with
  | FetchFailed e => Some e
  | FetchResponse r =>
      if decide (status r = 401%Z ∨ status r = 429%Z) then None
      else match json_body r with
           | None => Some (SyntaxError "Unexpected token in JSON")
           | Some data =>
               if ok r then None
               else match get_prop data "error" with
                    | inl e => Some e
                    | inr err =>
                        Some (Error (ToString (or_else err (VStr "Request failed"))))
                    end
           end
  end.

(** Sum of a list of delays. *)
Definition total (ds : list Z) : Z := foldr Z.add 0%Z ds.

(** The server answers every login with a user but no token. *)
Definition forgets_token : nat → FetchOutcome :=
  λ _, FetchResponse (mkResponse 200 (Some (VObj [("user", VStr "operator")]))).

(** The server accepts every login. *)
Definition accepts_login : nat → FetchOutcome :=
  λ _, FetchResponse
         (mkResponse 200 (Some (VObj [("token", VStr "t0k3n"); ("user", VStr "operator")]))).

(** No network. *)
Definition offline : nat → FetchOutcome := λ _, FetchFailed (NetworkError "Failed to fetch").

(** Every answer is 204 with an empty body. *)
Definition no_content : nat → FetchOutcome :=
  λ _, FetchResponse (mkResponse 204 None).

(** Every answer is 429. *)
Definition always_limited : nat → FetchOutcome :=
  λ _, FetchResponse (mkResponse 429 (Some (VObj [("error", VStr "Too many requests")]))).

(** Every answer is 500 with an empty JSON object. *)
Definition fails_silently : nat → FetchOutcome :=
  λ _, FetchResponse (mkResponse 500 (Some (VObj []))).

(** A request for the logs as CSV: the caller passes a header of its own. *)
Definition csv_options : Options :=
  mkOptions (Some "GET"%string) None (Some {["Accept" := "text/csv"%string]}).

(** The waits of a call whose every attempt is answered 429: the i-th wait
    (from 0) is [retryDelay * 2^i]. *)
Definition backoff (retryDelay : Z) (k : nat) : list Z :=
  map (λ i, retryDelay * 2 ^ Z.of_nat i)%Z (seq 0 k).

(** The token each socket was opened with, and the intervals that are
    scheduled: the part of the channel no method is meant to rewrite. *)
Definition channel (w : World) : list JsValue * list (Z * TimerAction) :=
  (map auth (sockets w), intervals w).

(** Between the two worlds some sockets were opened, each with its own
    heartbeat interval; the sockets and intervals there were are as they
    were. *)
Definition channel_grows (w w' : World) : Prop :=
  ∃ toks,
    map auth (sockets w') = map auth (sockets w) ++ toks
    ∧ intervals w' = intervals w ++ replicate (length toks) (30000%Z, Heartbeat).

(** Every interval ticks once, at time [now]. *)
Definition tick_all (now : Z) (n : nat) : list HostEvent :=
  map (λ i, IntervalTicks i now) (seq 0 n).

(** The heartbeat message. *)
Definition beat (sid : SocketId) (now : Z) : Effect :=
  SocketEmit sid "heartbeat" (VObj [("timestamp", VNum now)]).

(** A client whose first socket never opened and whose second did. *)
Definition reconnected : World :=
  deliver_all well_behaved [SocketOpened 1] (snd (connectSocket connecting)).

(** * The log viewer: [LogsViewer]

    The class of [src/unnamed/part_000] that listens to [logEntry] on the
    client and keeps the streamed entries, the filters and the page
    shown.  A log entry is an object with the four string fields the
    viewer reads.  What the viewer writes to the page (the entries
    rendered by [renderLogs], the labels and buttons set by
    [updatePagination], the calls of [scrollToBottom]) is kept in [view];
    the elements it looks up are taken to exist.  Lower-casing, regular
    expressions and the parsing of dates belong to the host. *)

Record LogEntry : Type := mkLog {
  timestamp : string;
  level : string;
  component : string;
  message : string
}.

Module Filters.
Record t : Type := mk {
  level : string;
  component : string;
  search : string;
  startDate : option Z;
  endDate : option Z;
  useRegex : bool
}.
End Filters.

Record Host : Type := mkHost {
  (* [s.toLowerCase()] *)
  toLowerCase : string → string;
  (* [new RegExp(pattern, 'i').test(text)]; [None] when the pattern is
     not a regular expression and the constructor throws *)
  regex_test : string → string → option bool;
  (* [new Date(s)] as milliseconds; [None] is an invalid date *)
  parse_date : string → option Z
}.

Record View : Type := mkView {
  shown : list LogEntry;
  showing : nat * nat;
  total_count : nat;
  prev_disabled : bool;
  next_disabled : bool;
  scrolls : nat
}.

Record LogsViewer : Type := mkViewer {
  logs : list LogEntry;
  filteredLogs : list LogEntry;
  currentPage : nat;
  logsPerPage : nat;
  isAutoScrolling : bool;
  filters : Filters.t;
  view : View
}.

Definition no_filters : Filters.t := Filters.mk "all" "all" "" None None false.

(** The fields of a fresh viewer, before [init] runs. *)
Definition new_viewer : LogsViewer :=
  mkViewer [] [] 1 50 true no_filters (mkView [] (0, 0) 0 false false 0).

(** [text.includes(search)] *)
Definition includes (text search : string) : bool :=
  match String.index 0 search text with
  | Some _ => true
  | None => false
  end.

(** The search part of the callback of [applyFilters]. *)
Definition search_hit (h : Host) (f : Filters.t) (log : LogEntry) : bool :=
  let searchText := toLowerCase h (Filters.search f) in
  let logText :=
    toLowerCase h (message log ++ " " ++ component log ++ " " ++ level log)%string in
  if Filters.useRegex f then
    match regex_test h searchText logText with
    | Some hit => hit
    | None => (* Invalid regex, treat as normal search *) includes logText searchText
    end
  else includes logText searchText.

(** The date part: comparisons with an invalid date are false. *)
Definition in_range (h : Host) (f : Filters.t) (log : LogEntry) : bool :=
  match Filters.startDate f, Filters.endDate f with
  | Some startDate, Some endDate =>
      match parse_date h (timestamp log) with
      | Some logDate => negb ((logDate <? startDate)%Z || (endDate <? logDate)%Z)
      | None => true
      end
  | _, _ => true
  end.

(** The callback of [this.logs.filter] in [applyFilters]. *)
Definition passes (h : Host) (f : Filters.t) (log : LogEntry) : bool :=
  if negb (String.eqb (Filters.level f) "all")
     && negb (String.eqb (level log) (Filters.level f)) then false
  else if negb (String.eqb (Filters.component f) "all")
          && negb (String.eqb (component log) (Filters.component f)) then false
  else if negb (String.eqb (Filters.search f) "") && negb (search_hit h f log) then false
  else in_range h f log.

Definition set_view (v : View) (s : LogsViewer) : LogsViewer :=
  mkViewer (logs s) (filteredLogs s) (currentPage s) (logsPerPage s)
    (isAutoScrolling s) (filters s) v.

Definition set_currentPage (p : nat) (s : LogsViewer) : LogsViewer :=
  mkViewer (logs s) (filteredLogs s) p (logsPerPage s)
    (isAutoScrolling s) (filters s) (view s).

Definition set_logs (l : list LogEntry) (s : LogsViewer) : LogsViewer :=
  mkViewer l (filteredLogs s) (currentPage s) (logsPerPage s)
    (isAutoScrolling s) (filters s) (view s).

Definition set_filteredLogs (l : list LogEntry) (s : LogsViewer) : LogsViewer :=
  mkViewer (logs s) l (currentPage s) (logsPerPage s)
    (isAutoScrolling s) (filters s) (view s).

Definition set_filters (f : Filters.t) (s : LogsViewer) : LogsViewer :=
  mkViewer (logs s) (filteredLogs s) (currentPage s) (logsPerPage s)
    (isAutoScrolling s) f (view s).

(** [l.slice(startIndex, endIndex)] for [0 <= startIndex <= endIndex] *)
Definition slice {A} (l : list A) (startIndex endIndex : nat) : list A :=
  take (endIndex - startIndex) (drop startIndex l).

(** [Math.ceil(a / b)] on natural numbers, [b] positive *)
Definition ceil_div (a b : nat) : nat := (a + b - 1) / b.

(** [renderLogs()] *)
Definition renderLogs (s : LogsViewer) : LogsViewer :=
  let startIndex := (currentPage s - 1) * logsPerPage s in
  let endIndex := startIndex + logsPerPage s in
  let pageLogs := slice (filteredLogs s) startIndex endIndex in
  let v := view s in
  set_view (mkView pageLogs (showing v) (total_count v) (prev_disabled v)
              (next_disabled v) (scrolls v)) s.

(** [scrollToBottom()] *)
Definition scrollToBottom (s : LogsViewer) : LogsViewer :=
  let v := view s in
  set_view (mkView (shown v) (showing v) (total_count v) (prev_disabled v)
              (next_disabled v) (S (scrolls v))) s.

(** [updatePagination()] *)
Definition updatePagination (s : LogsViewer) : LogsViewer :=
  let startIndex := (currentPage s - 1) * logsPerPage s + 1 in
  let endIndex := Nat.min (startIndex + logsPerPage s - 1) (length (filteredLogs s)) in
  let maxPage := ceil_div (length (filteredLogs s)) (logsPerPage s) in
  let v := view s in
  set_view (mkView (shown v) (startIndex, endIndex) (length (filteredLogs s))
              (currentPage s <=? 1)
              ((maxPage <=? currentPage s) || (maxPage =? 0))
              (scrolls v)) s.

(** [applyFilters()] *)
Definition applyFilters (h : Host) (s : LogsViewer) : LogsViewer :=
  let s1 := set_filteredLogs (filter (λ log, passes h (filters s) log = true) (logs s)) s in
  let s2 := set_currentPage 1 s1 in
  renderLogs (updatePagination s2).

(** [addLogEntry(logEntry)] *)
Definition addLogEntry (h : Host) (logEntry : LogEntry) (s : LogsViewer) : LogsViewer :=
  (* Add to logs array *)
  let s1 := set_logs (logEntry :: logs s) s in
  (* Keep only recent logs in memory *)
  let s2 := if (10000 <? Z.of_nat (length (logs s1)))%Z
            then set_logs (slice (logs s1) 0 (Z.to_nat 5000)) s1
            else s1 in
  (* Apply current filters *)
  let s3 := applyFilters h s2 in
  (* Update display if on first page *)
  let s4 := if currentPage s3 =? 1
            then
              let s' := renderLogs s3 in
              if isAutoScrolling s' then scrollToBottom s' else s'
            else s3 in
  updatePagination s4.

(** [previousPage()] *)
Definition previousPage (s : LogsViewer) : LogsViewer :=
  if 1 <? currentPage s
  then updatePagination (renderLogs (set_currentPage (currentPage s - 1) s))
  else s.

(** [nextPage()] *)
Definition nextPage (s : LogsViewer) : LogsViewer :=
  let maxPage := ceil_div (length (filteredLogs s)) (logsPerPage s) in
  if currentPage s <? maxPage
  then updatePagination (renderLogs (set_currentPage (currentPage s + 1) s))
  else s.

(** [clearFilters()] *)
Definition clearFilters (h : Host) (s : LogsViewer) : LogsViewer :=
  applyFilters h (set_filters no_filters s).

(** Calls of the methods of the viewer that change what it holds:
    [addLogEntry] with an entry that has the four fields, the two page
    buttons, [clearFilters], and the two selectors, which assign their
    filter and call [applyFilters].  (The listener of [logEntry] passes
    [data.data] on to [addLogEntry] as it comes; payloads without an entry
    are not calls of this kind.) *)
Inductive ViewerCall : Type :=
| AddLogEntry (logEntry : LogEntry)
| PreviousPage
| NextPage
| ClearFilters
| ChooseLevel (level : string)
| ChooseComponent (component : string).

Definition set_level (l : string) (f : Filters.t) : Filters.t :=
  Filters.mk l (Filters.component f) (Filters.search f) (Filters.startDate f)
    (Filters.endDate f) (Filters.useRegex f).

Definition set_component (c : string) (f : Filters.t) : Filters.t :=
  Filters.mk (Filters.level f) c (Filters.search f) (Filters.startDate f)
    (Filters.endDate f) (Filters.useRegex f).

(** One call, and a sequence of calls. *)
Definition perform (h : Host) (c : ViewerCall) (s : LogsViewer) : LogsViewer :=
  match c with
  | AddLogEntry logEntry => addLogEntry h logEntry s
  | PreviousPage => previousPage s
  | NextPage => nextPage s
  | ClearFilters => clearFilters h s
  | ChooseLevel l => applyFilters h (set_filters (set_level l (filters s)) s)
  | ChooseComponent c => applyFilters h (set_filters (set_component c (filters s)) s)
  end.

Definition perform_all (h : Host) (cs : list ViewerCall) (s : LogsViewer) : LogsViewer :=
  foldl (λ s c, perform h c s) s cs.

(** The page [p] of the filtered logs, as [renderLogs] cuts it. *)
Definition page_of (s : LogsViewer) (p : nat) : list LogEntry :=
  shown (view (renderLogs (set_currentPage p s))).

Definition max_page (s : LogsViewer) : nat :=
  ceil_div (length (filteredLogs s)) (logsPerPage s).

(** A host for the examples: ASCII text already in lower case, no regular
    expressions, no dates. *)
Definition plain_host : Host := mkHost (λ s, s) (λ _ _, None) (λ _, None).

Definition error_entry : LogEntry := mkLog "2024-01-01T00:00:00Z" "ERROR" "api" "boom".
Definition info_entry : LogEntry := mkLog "2024-01-01T00:00:01Z" "INFO" "api" "ok".

(** A viewer holding 120 entries, the reader on page 3. *)
Definition reading : LogsViewer :=
  nextPage (nextPage (applyFilters plain_host
                        (set_logs (replicate 120 info_entry) new_viewer))).

(** The viewer shows what it holds: the page number is 1 or, when there
    are pages, a page there is; the filtered logs are the logs that pass
    the filters; and the entries, labels and buttons on the page are those
    of the current page. *)
Definition in_sync (h : Host) (s : LogsViewer) : Prop :=
  1 ≤ currentPage s
  ∧ (currentPage s = 1 ∨ currentPage s ≤ max_page s)
  ∧ filteredLogs s = filter (λ log, passes h (filters s) log = true) (logs s)
  ∧ view (renderLogs s) = view s
  ∧ view (updatePagination s) = view s.

(** What the handlers of socket events and the timers may do: notify
    listeners, log, open sockets and install handlers, schedule timers,
    and send the two messages of the client, the subscription to the
    dashboard room and the heartbeat. *)
Definition channel_effect (e : Effect) : Prop :=
  match e with
  | Fetch _ _ | Delay _ | ConsoleError _ _ | SocketDisconnect _ => False
  | SocketEmit _ event data =>
      (event = "subscribe" ∧ data = VObj [("room", VStr "dashboard")])
      ∨ (event = "heartbeat" ∧ ∃ now, data = VObj [("timestamp", VNum now)])
  | _ => True
  end.

(** The second world is the first one after channel activity only. *)
Definition channel_only (w w' : World) : Prop :=
  credentials w' = credentials w
  ∧ fetches w' = fetches w
  ∧ eventListeners (client w') = eventListeners (client w)
  ∧ grows channel_effect w w'.




(** [register(username, email, password)] *)
Definition register (network : nat → FetchOutcome)
    (behaviour : Callback → JsValue → CallbackOutcome)
    (username email password : JsValue) (w : World)
    : option (Completion JsValue * World) :=
  post network behaviour "/register"
    (VObj [("username", username); ("email", email); ("password", password)]) w.

(** The server creates every account and answers with a token. *)
Definition accepts_registration : nat → FetchOutcome :=
  λ _, FetchResponse
         (mkResponse 201 (Some (VObj [("token", VStr "t0k3n"); ("user", VStr "operator")]))).

(** ** The event system *)

Section EventBus.

Variable behaviour : Callback → JsValue → CallbackOutcome.

Lemma emit_all_nil w : emit_all [] w = w.
Proof. destruct w; unfold emit_all; simpl. by rewrite app_nil_r. Qed.

Lemma emit_all_cons e es w : emit_all (e :: es) w = emit_all es (emit_effect e w).
Proof. unfold emit_all, emit_effect; simpl. by rewrite <- app_assoc. Qed.

(** [forEach] when every callback returns. *)
Lemma forEach_all_return data l w :
  Forall (λ cb, behaviour cb data = Returns) l →
  forEach behaviour l data w = (Normal tt, emit_all (invocations data l) w).
Proof.
  intros H. revert w. induction H as [|cb l Hcb _ IH]; intros w.
  - simpl. by rewrite emit_all_nil.
  - simpl. unfold bind, call, bind, effect, modify. rewrite Hcb. simpl.
    rewrite IH. by rewrite emit_all_cons.
Qed.

(** [forEach] stops at the first callback that throws. *)
Lemma forEach_first_throw data pre cb post e w :
  Forall (λ cb, behaviour cb data = Returns) pre →
  behaviour cb data = Throws e →
  forEach behaviour (pre ++ cb :: post) data w
  = (Throw e, emit_all (invocations data (pre ++ [cb])) w).
Proof.
  intros H Hcb. revert w. induction H as [|x l Hx _ IH]; intros w.
  - simpl. unfold bind, call, bind, effect, modify. rewrite Hcb. simpl.
    by rewrite emit_all_cons, emit_all_nil.
  - simpl. unfold bind at 1. unfold call, bind, effect, modify. rewrite Hx. simpl.
    rewrite IH. by rewrite emit_all_cons.
Qed.

Lemma set_add_fresh x l : x ∉ l → set_add x l = l ++ [x].
Proof. intros H. unfold set_add. by rewrite decide_False. Qed.

Lemma set_add_present x l : x ∈ l → set_add x l = l.
Proof. intros H. unfold set_add. by rewrite decide_True. Qed.

Lemma registered_on_same event cb w :
  registered (snd (on event cb w)) event = set_add cb (registered w event).
Proof. unfold registered, on, modify; simpl. by rewrite lookup_insert_eq. Qed.

Lemma on_trace event cb w : trace (snd (on event cb w)) = trace w.
Proof. reflexivity. Qed.

(** Registering a handler that is already registered changes nothing. *)
Lemma on_idempotent event cb w :
  snd (on event cb (snd (on event cb w))) = snd (on event cb w).
Proof.
  unfold on, modify, with_client, set_eventListeners; simpl.
  rewrite lookup_insert_eq. simpl.
  rewrite insert_insert_eq.
  rewrite (set_add_present cb (set_add cb _)); [done|].
  unfold set_add. case_decide; [done|]. apply elem_of_app. right. by left.
Qed.

Lemma subscribe_registered event cbs : ∀ w,
  NoDup (registered w event ++ cbs) →
  registered (subscribe event cbs w) event = registered w event ++ cbs.
Proof.
  induction cbs as [|cb rest IH]; intros w Hnd.
  - simpl. by rewrite app_nil_r.
  - assert (Hreg : registered (snd (on event cb w)) event = registered w event ++ [cb]).
    { rewrite registered_on_same. apply set_add_fresh.
      apply NoDup_app in Hnd as (_ & Hdisj & _). intros Hin.
      eapply Hdisj; [exact Hin | by left]. }
    change (subscribe event (cb :: rest) w)
      with (subscribe event rest (snd (on event cb w))).
    rewrite IH; rewrite Hreg; by rewrite <- app_assoc.
Qed.

Lemma broadcastEvent_unfold event data w :
  broadcastEvent behaviour event data w
  = match eventListeners (client w) !! event with
    | Some l => forEach behaviour l data w
    | None => (Normal tt, w)
    end.
Proof. unfold broadcastEvent, bind, read. by destruct (_ !! _). Qed.

Lemma subscribe_again event h n : ∀ w,
  subscribe event (replicate (S n) h) w = snd (on event h w).
Proof.
  induction n as [|n IH]; intros w; [done|].
  change (subscribe event (replicate (S (S n)) h) w)
    with (subscribe event (replicate (S n) h) (snd (on event h w))).
  rewrite IH. apply on_idempotent.
Qed.

Lemma broadcastEvent_registered event data w :
  broadcastEvent behaviour event data w = forEach behaviour (registered w event) data w.
Proof.
  rewrite broadcastEvent_unfold. unfold registered. by destruct (_ !! _).
Qed.

(** C8 (amended): handlers registered in the order [cbs] are invoked by
    [broadcastEvent] synchronously and in that order.  When none of them
    throws, every handler is invoked exactly once and the publisher
    continues normally.  When a handler throws, the handlers registered
    before it have been invoked exactly once, the ones registered after it
    are not invoked, and the exception reaches the publisher. *)
Theorem broadcastEvent_fan_out event data (cbs : list Callback) w :
  registered w event = [] →
  NoDup cbs →
  let w1 := subscribe event cbs w in
  (Forall (λ cb, behaviour cb data = Returns) cbs →
   broadcastEvent behaviour event data w1
   = (Normal tt, emit_all (invocations data cbs) w1))
  ∧ (∀ pre cb post e,
       cbs = pre ++ cb :: post →
       Forall (λ cb, behaviour cb data = Returns) pre →
       behaviour cb data = Throws e →
       broadcastEvent behaviour event data w1
       = (Throw e, emit_all (invocations data (pre ++ [cb])) w1)).
Proof.
  intros Hempty Hnd w1.
  assert (Hreg : registered w1 event = cbs).
  { unfold w1. rewrite subscribe_registered; rewrite Hempty; done. }
  split.
  - intros Hret. rewrite broadcastEvent_registered, Hreg.
    by apply forEach_all_return.
  - intros pre cb post e -> Hpre Hcb.
    rewrite broadcastEvent_registered, Hreg.
    by apply forEach_first_throw.
Qed.

(** C9 (amended): registrations of one handler for an event.  When the
    same function object is registered again and again, the listener set
    holds it once and a single [broadcastEvent] invokes it exactly once.
    When the caller does not track identity and registers distinct function
    objects (here: the distinct callbacks [cbs]), a single [broadcastEvent]
    invokes one of them per registration, provided they return normally. *)
Theorem registrations_and_invocations event data w :
  registered w event = [] →
  (∀ h n,
     let w1 := subscribe event (replicate (S n) h) w in
     registered w1 event = [h]
     ∧ snd (broadcastEvent behaviour event data w1) = emit_all [Invoke h data] w1)
  ∧ (∀ cbs : list Callback,
       NoDup cbs →
       Forall (λ cb, behaviour cb data = Returns) cbs →
       let w1 := subscribe event cbs w in
       broadcastEvent behaviour event data w1
       = (Normal tt, emit_all (invocations data cbs) w1)
       ∧ length (invocations data cbs) = length cbs).
Proof.
  intros Hempty. split.
  - intros h n w1.
    assert (Hreg : registered w1 event = [h]).
    { unfold w1. rewrite subscribe_again, registered_on_same, Hempty. done. }
    split; [done|].
    rewrite broadcastEvent_registered, Hreg. simpl.
    unfold bind, call, bind, effect, modify. simpl.
    destruct (behaviour h data); simpl; by rewrite emit_all_cons, emit_all_nil.
  - intros cbs Hnd Hret w1.
    assert (Hreg : registered w1 event = cbs).
    { unfold w1. rewrite subscribe_registered; rewrite Hempty; done. }
    split.
    + rewrite broadcastEvent_registered, Hreg. by apply forEach_all_return.
    + unfold invocations. by rewrite length_map.
Qed.

End EventBus.

(** C8, witness: two handlers that return, registered on [logEntry]. *)
Lemma broadcastEvent_fan_out_witness :
  broadcastEvent well_behaved "logEntry" log_entry (subscribe "logEntry" [1; 2] (boot ∅))
  = (Normal tt,
     emit_all [Invoke 1 log_entry; Invoke 2 log_entry] (subscribe "logEntry" [1; 2] (boot ∅))).
Proof.
  apply (broadcastEvent_fan_out well_behaved "logEntry" log_entry [1; 2] (boot ∅)).
  - reflexivity.
  - apply (bool_decide_unpack (NoDup [1; 2])). exact I.
  - repeat constructor.
Defined.

(** C8, as stated, fails: the first of two handlers throws; the second is
    never invoked and the exception reaches the publisher. *)
Lemma throwing_handler_stops_delivery :
  let w := subscribe "logEntry" [1; 2] (boot ∅) in
  let r := broadcastEvent first_throws "logEntry" log_entry w in
  fst r = Throw (Error "render failed")
  ∧ trace (snd r) = [Invoke 1 log_entry]
  ∧ Invoke 2 log_entry ∉ trace (snd r).
Proof.
  split; [reflexivity|]. split; [reflexivity|].
  change (trace (snd (broadcastEvent first_throws "logEntry" log_entry
            (subscribe "logEntry" [1; 2] (boot ∅)))))
    with [Invoke 1 log_entry].
  intros H%list_elem_of_singleton. discriminate H.
Qed.

(** C9, witness: one function object registered three times, and three
    distinct function objects registered once each. *)
Lemma registrations_and_invocations_witness :
  (registered (subscribe "logEntry" (replicate 3 7) (boot ∅)) "logEntry" = [7]
   ∧ snd (broadcastEvent well_behaved "logEntry" log_entry
            (subscribe "logEntry" (replicate 3 7) (boot ∅)))
     = emit_all [Invoke 7 log_entry] (subscribe "logEntry" (replicate 3 7) (boot ∅)))
  ∧ (broadcastEvent well_behaved "logEntry" log_entry
       (subscribe "logEntry" [7; 8; 9] (boot ∅))
     = (Normal tt,
        emit_all (invocations log_entry [7; 8; 9]) (subscribe "logEntry" [7; 8; 9] (boot ∅)))
     ∧ length (invocations log_entry [7; 8; 9]) = 3).
Proof.
  destruct (registrations_and_invocations well_behaved "logEntry" log_entry (boot ∅))
    as [Hsame Hdistinct].
  - reflexivity.
  - split.
    + apply (Hsame 7 2).
    + apply (Hdistinct [7; 8; 9]).
      * apply (bool_decide_unpack (NoDup [7; 8; 9])). exact I.
      * repeat constructor.
Defined.

(** C9, as stated, fails.  A function object registered twice is invoked
    once by a single publish, not twice.  And two distinct function objects
    of a handler that throws are not both invoked either: the first throw
    ends the delivery. *)
Lemma twice_registered_invoked_once :
  (let w := subscribe "logEntry" [7; 7] (boot ∅) in
   let r := broadcastEvent well_behaved "logEntry" log_entry w in
   invoked (trace (snd r)) = [Invoke 7 log_entry]
   ∧ length (invoked (trace (snd r))) ≠ 2)
  ∧ (let w := subscribe "logEntry" [7; 8] (boot ∅) in
     let r := broadcastEvent always_throws "logEntry" log_entry w in
     invoked (trace (snd r)) = [Invoke 7 log_entry]
     ∧ length (invoked (trace (snd r))) ≠ 2).
Proof.
  split; (split; [reflexivity|]); vm_compute; lia.
Qed.

(** ** What the methods leave alone *)

Section Frame.

Context {B : Type} (f : World → B).

Lemma keeps_ret {A} (a : A) : keeps (unchanged f) (ret a).
Proof. intros w. reflexivity. Qed.

Lemma keeps_throw {A} (e : JsError) : keeps (unchanged f) (@throw A e).
Proof. intros w. reflexivity. Qed.

Lemma keeps_read {A} (g : World → A) : keeps (unchanged f) (read g).
Proof. intros w. reflexivity. Qed.

Lemma keeps_modify (g : World → World) :
  (∀ w, f (g w) = f w) → keeps (unchanged f) (modify g).
Proof. intros H w. apply H. Qed.

Lemma keeps_bind {A C} (m : M A) (k : A → M C) :
  keeps (unchanged f) m → (∀ a, keeps (unchanged f) (k a)) →
  keeps (unchanged f) (bind m k).
Proof.
  intros Hm Hk w. unfold bind. specialize (Hm w).
  destruct (m w) as [[a|e] w1]; simpl in *; [|done].
  specialize (Hk a w1). unfold unchanged in *. congruence.
Qed.

Lemma keeps_try_catch {A} (m : M A) (h : JsError → M A) :
  keeps (unchanged f) m → (∀ e, keeps (unchanged f) (h e)) →
  keeps (unchanged f) (try_catch m h).
Proof.
  intros Hm Hh w. unfold try_catch. specialize (Hm w).
  destruct (m w) as [[a|e] w1]; simpl in *; [done|].
  specialize (Hh e w1). unfold unchanged in *. congruence.
Qed.

(** What a method keeps, read off a run of it. *)
Lemma keeps_run {A} (m : M A) w r w' :
  keeps (unchanged f) m → m w = (r, w') → f w' = f w.
Proof. intros H E. specialize (H w). by rewrite E in H. Qed.

End Frame.

Section Untouched.

Variable network : nat → FetchOutcome.
Variable behaviour : Callback → JsValue → CallbackOutcome.

(** A part of the world that does not look at the trace, the credentials or
    the socket state: the settings, the listener registry, the fetch
    counter. *)
Variable B : Type.
Variable f : World → B.
Hypothesis f_trace : ∀ e w, f (emit_effect e w) = f w.
Hypothesis f_token : ∀ v w, f (with_client (set_token v) w) = f w.
Hypothesis f_storage : ∀ m w, f (set_localStorage m w) = f w.
Hypothesis f_sockets : ∀ l w, f (set_sockets l w) = f w.
Hypothesis f_socket : ∀ o w, f (with_client (set_socket o) w) = f w.
Hypothesis f_socketConnected : ∀ b w, f (with_client (set_socketConnected b) w) = f w.

Lemma keeps_effect e : keeps (unchanged f) (effect e).
Proof. apply keeps_modify. intros w. apply f_trace. Qed.

Lemma forEach_untouched l data : keeps (unchanged f) (forEach behaviour l data).
Proof.
  induction l as [|cb l IH]; simpl; [apply keeps_ret|].
  apply keeps_bind; [|done]. unfold call.
  apply keeps_bind; [apply keeps_effect|]. intros _.
  destruct (behaviour cb data); [apply keeps_ret | apply keeps_throw].
Qed.

Lemma broadcastEvent_untouched event data :
  keeps (unchanged f) (broadcastEvent behaviour event data).
Proof.
  unfold broadcastEvent. apply keeps_bind; [apply keeps_read|].
  intros [l|]; [apply forEach_untouched | apply keeps_ret].
Qed.

Lemma disconnectSocket_untouched : keeps (unchanged f) disconnectSocket.
Proof.
  unfold disconnectSocket. apply keeps_bind; [apply keeps_read|].
  intros [sid|]; [|apply keeps_ret]. unfold socket_disconnect.
  apply keeps_bind.
  { apply keeps_bind; [apply keeps_modify; intros w; apply f_sockets | intros _].
    apply keeps_effect. }
  intros _.
  apply keeps_bind; [apply keeps_modify; intros w; apply f_socket | intros _].
  apply keeps_modify; intros w; apply f_socketConnected.
Qed.

Lemma logout_untouched : keeps (unchanged f) (logout behaviour).
Proof.
  unfold logout, removeItem.
  apply keeps_bind; [apply keeps_modify; intros w; apply f_token | intros _].
  apply keeps_bind; [apply keeps_modify; intros w; apply f_storage | intros _].
  apply keeps_bind; [apply keeps_modify; intros w; apply f_storage | intros _].
  apply keeps_bind; [apply disconnectSocket_untouched | intros _].
  apply broadcastEvent_untouched.
Qed.

Lemma refreshAuthToken_untouched : keeps (unchanged f) (refreshAuthToken behaviour).
Proof.
  unfold refreshAuthToken. apply keeps_try_catch.
  - apply keeps_bind; [apply logout_untouched|]. intros _. apply keeps_ret.
  - intros e. apply keeps_bind; [apply keeps_effect|]. intros _.
    apply keeps_bind; [apply logout_untouched|]. intros _. apply keeps_ret.
Qed.

Lemma handle_error_untouched options retryCount e :
  keeps (unchanged f) (handle_error options retryCount e).
Proof.
  unfold handle_error, delay. apply keeps_bind; [apply keeps_read|]. intros c.
  case_decide; [|apply keeps_throw].
  apply keeps_bind; [apply keeps_effect|]. intros _. apply keeps_ret.
Qed.

Lemma handle_response_untouched options headers retryCount response :
  keeps (unchanged f) (handle_response behaviour options headers retryCount response).
Proof.
  unfold handle_response, delay, json, prop.
  apply keeps_bind; [apply keeps_read|]. intros c.
  apply keeps_bind.
  { case_decide; [|apply keeps_ret].
    apply keeps_bind; [apply refreshAuthToken_untouched|].
    intros [|]; [|apply keeps_ret].
    apply keeps_bind; [apply keeps_read|]. intros ?. apply keeps_ret. }
  intros [next|]; [apply keeps_ret|].
  apply keeps_bind; [apply keeps_read|]. intros c'.
  apply keeps_bind.
  { repeat case_decide; try apply keeps_ret.
    apply keeps_bind; [apply keeps_effect|]. intros _. apply keeps_ret. }
  intros [next|]; [apply keeps_ret|].
  apply keeps_bind.
  { destruct (json_body response); [apply keeps_ret | apply keeps_throw]. }
  intros data. destruct (negb (ok response)); [|apply keeps_ret].
  apply keeps_bind; [|intros ?; apply keeps_throw].
  destruct (get_prop data "error"); [apply keeps_throw | apply keeps_ret].
Qed.

End Untouched.

(** ** The request wrapper *)

Section Request.

Variable network : nat → FetchOutcome.
Variable behaviour : Callback → JsValue → CallbackOutcome.

Lemma write_through_fields options h :
  opt_method (write_through options h) = opt_method options
  ∧ opt_body (write_through options h) = opt_body options.
Proof. unfold write_through. by destruct (opt_headers options). Qed.

(** One activation: [fetch] is called exactly once, then the response or
    the failure is handled. *)
Lemma attempt_unfold endpoint options retryCount w :
  attempt network behaviour endpoint options retryCount w
  = match network (fetches w) with
    | FetchFailed e =>
        handle_error (sent_options w options) retryCount e (fetched endpoint options w)
    | FetchResponse r =>
        try_catch
          (handle_response behaviour (sent_options w options) (sent_headers w options) retryCount r)
          (handle_error (sent_options w options) retryCount)
          (fetched endpoint options w)
    end.
Proof.
  unfold attempt, fetched, sent_config, sent_options, sent_headers.
  unfold bind at 1. unfold read at 1. cbv beta iota zeta.
  destruct (write_through_fields options
              (if truthy (token (client w))
               then authorize (token (client w)) (config_headers options)
               else config_headers options)) as [-> ->].
  unfold try_catch, bind, fetch, effect, modify, read, bind. simpl.
  destruct (network (fetches w)); reflexivity.
Qed.

Lemma handle_error_retry options retryCount e w :
  retryCount < maxRetries (client w) →
  handle_error options retryCount e w
  = (Normal (Retry options), emit_effect (Delay (retryDelay (client w))) w).
Proof.
  intros H. unfold handle_error, bind, read, delay, effect, modify. simpl.
  by rewrite decide_True.
Qed.

Lemma handle_error_exhausted options retryCount e w :
  ¬ retryCount < maxRetries (client w) →
  handle_error options retryCount e w = (Throw e, w).
Proof.
  intros H. unfold handle_error, bind, read. simpl. by rewrite decide_False.
Qed.

Lemma ok_status r : ok r = true → status r ≠ 401%Z ∧ status r ≠ 429%Z.
Proof. unfold ok. intros H. apply andb_true_iff in H as [H1 H2]. lia. Qed.

(** A response that is neither 401 nor 429 goes straight to its body. *)
Lemma handle_response_other options headers retryCount r w :
  status r ≠ 401%Z → status r ≠ 429%Z →
  handle_response behaviour options headers retryCount r w
  = match json_body r with
    | None => (Throw (SyntaxError "Unexpected token in JSON"), w)
    | Some data =>
        if ok r then (Normal (Return data), w)
        else match get_prop data "error" with
             | inl e => (Throw e, w)
             | inr err => (Throw (Error (ToString (or_else err (VStr "Request failed")))), w)
             end
    end.
Proof.
  intros H401 H429. unfold handle_response, bind, read, json, prop. simpl.
  rewrite decide_False by (intros [? _]; done). simpl.
  rewrite (decide_False (P := status r = 429%Z)) by done. simpl.
  destruct (json_body r) as [data|]; simpl; [|done].
  destruct (ok r); simpl; [done|].
  by destruct (get_prop data "error").
Qed.

(** A 429 within the retry budget: exponential backoff, then the
    recursive call. *)
Lemma handle_response_429 options headers retryCount r w :
  status r = 429%Z → retryCount < maxRetries (client w) →
  handle_response behaviour options headers retryCount r w
  = (Normal (Retry options),
     emit_effect (Delay (retryDelay (client w) * 2 ^ Z.of_nat retryCount)) w).
Proof.
  intros H429 Hlt. unfold handle_response, bind, read, delay, effect, modify. simpl.
  rewrite decide_False by (intros [? _]; lia). simpl.
  rewrite (decide_True (P := status r = 429%Z)) by done.
  by rewrite decide_True.
Qed.

(** The recursive call is made only while [retryCount < maxRetries]. *)
Lemma handle_error_retry_inv options retryCount e w o' w' :
  handle_error options retryCount e w = (Normal (Retry o'), w') →
  retryCount < maxRetries (client w).
Proof.
  unfold handle_error, bind, read, delay, effect, modify. simpl.
  case_decide; [done|]. unfold throw. intros; discriminate.
Qed.

Lemma handle_response_retry_inv options headers retryCount r w o' w' :
  handle_response behaviour options headers retryCount r w = (Normal (Retry o'), w') →
  retryCount < maxRetries (client w).
Proof.
  destruct (decide (retryCount < maxRetries (client w))) as [|Hge]; [done|].
  unfold handle_response, bind, read, json, prop. simpl.
  rewrite decide_False by (intros [_ ?]; done). simpl.
  case_decide; simpl.
  - rewrite decide_False by done. simpl.
    destruct (json_body r) as [data|]; simpl; [|intros; discriminate].
    destruct (negb (ok r)); simpl; [|intros; discriminate].
    destruct (get_prop data "error"); simpl; intros; discriminate.
  - destruct (json_body r) as [data|]; simpl; [|intros; discriminate].
    destruct (negb (ok r)); simpl; [|intros; discriminate].
    destruct (get_prop data "error"); simpl; intros; discriminate.
Qed.

Lemma settings_maxRetries w w' :
  settings w' = settings w → maxRetries (client w') = maxRetries (client w).
Proof. unfold settings. intros H. by simplify_eq. Qed.

(** Handling a response or a failure assigns no setting, registers no
    listener and calls [fetch] no further. *)
Lemma after_fetch_untouched {B} (f : World → B) options headers retryCount r :
  (∀ e w, f (emit_effect e w) = f w) →
  (∀ v w, f (with_client (set_token v) w) = f w) →
  (∀ m w, f (set_localStorage m w) = f w) →
  (∀ l w, f (set_sockets l w) = f w) →
  (∀ o w, f (with_client (set_socket o) w) = f w) →
  (∀ b w, f (with_client (set_socketConnected b) w) = f w) →
  keeps (unchanged f)
    (try_catch (handle_response behaviour options headers retryCount r)
               (handle_error options retryCount)).
Proof.
  intros. apply keeps_try_catch.
  - by apply handle_response_untouched.
  - intros e. by apply handle_error_untouched.
Qed.

Lemma attempt_untouched {B} (f : World → B) endpoint options retryCount w r w' :
  (∀ e w, f (emit_effect e w) = f w) →
  (∀ v w, f (with_client (set_token v) w) = f w) →
  (∀ m w, f (set_localStorage m w) = f w) →
  (∀ l w, f (set_sockets l w) = f w) →
  (∀ o w, f (with_client (set_socket o) w) = f w) →
  (∀ b w, f (with_client (set_socketConnected b) w) = f w) →
  attempt network behaviour endpoint options retryCount w = (r, w') →
  f w' = f (fetched endpoint options w).
Proof.
  intros ? ? ? ? ? ?. rewrite attempt_unfold.
  destruct (network (fetches w)) as [e|resp]; intros E.
  - eapply keeps_run; [|exact E]. by apply handle_error_untouched.
  - eapply keeps_run; [|exact E]. by apply after_fetch_untouched.
Qed.

Lemma attempt_settings endpoint options retryCount w r w' :
  attempt network behaviour endpoint options retryCount w = (r, w') →
  settings w' = settings w.
Proof. intros E. by apply (attempt_untouched settings) in E. Qed.

(** Every activation of [request] calls [fetch] exactly once. *)
Lemma attempt_fetches endpoint options retryCount w r w' :
  attempt network behaviour endpoint options retryCount w = (r, w') →
  fetches w' = S (fetches w).
Proof. intros E. by apply (attempt_untouched fetches) in E. Qed.

Lemma attempt_retry_inv endpoint options retryCount w o' w' :
  attempt network behaviour endpoint options retryCount w = (Normal (Retry o'), w') →
  retryCount < maxRetries (client w).
Proof.
  rewrite attempt_unfold.
  destruct (network (fetches w)) as [e|resp].
  - intros E. by apply handle_error_retry_inv in E.
  - unfold try_catch.
    destruct (handle_response _ _ _ _ _ _) as [[next|e] w1] eqn:E1.
    + intros E. simplify_eq. by apply handle_response_retry_inv in E1.
    + intros E. apply handle_error_retry_inv in E.
      apply (keeps_run settings) in E1;
        [|by apply handle_response_untouched].
      apply settings_maxRetries in E1. simpl in E1. lia.
Qed.

(** With fuel for the remaining budget the call settles, after at least
    one and at most [maxRetries - retryCount + 1] calls of [fetch]. *)
Lemma request_fuel_settles endpoint fuel : ∀ options retryCount w,
  maxRetries (client w) - retryCount < fuel →
  ∃ r w', request_fuel network behaviour fuel endpoint options retryCount w = Some (r, w')
          ∧ settings w' = settings w
          ∧ fetches w < fetches w'
          ∧ fetches w' ≤ fetches w + (maxRetries (client w) - retryCount) + 1.
Proof.
  induction fuel as [|fuel IH]; intros options retryCount w Hfuel; [lia|].
  simpl.
  destruct (attempt network behaviour endpoint options retryCount w)
    as [[[data|options']|e] w1] eqn:E.
  - exists (Normal data), w1.
    pose proof (attempt_settings _ _ _ _ _ _ E).
    pose proof (attempt_fetches _ _ _ _ _ _ E). repeat split; [done|lia..].
  - pose proof (attempt_settings _ _ _ _ _ _ E) as Hset.
    pose proof (attempt_fetches _ _ _ _ _ _ E) as Hfet.
    pose proof (attempt_retry_inv _ _ _ _ _ _ E) as Hlt.
    pose proof (settings_maxRetries _ _ Hset) as Hmax.
    destruct (IH options' (S retryCount) w1) as (r & w' & Hreq & Hset' & Hlo & Hhi); [lia|].
    exists r, w'. rewrite Hreq. repeat split; [congruence|lia..].
  - exists (Throw e), w1.
    pose proof (attempt_settings _ _ _ _ _ _ E).
    pose proof (attempt_fetches _ _ _ _ _ _ E). repeat split; [done|lia..].
Qed.

(** More fuel than needed changes nothing. *)
Lemma request_fuel_more endpoint fuel : ∀ fuel' options retryCount w res,
  request_fuel network behaviour fuel endpoint options retryCount w = Some res →
  fuel ≤ fuel' →
  request_fuel network behaviour fuel' endpoint options retryCount w = Some res.
Proof.
  induction fuel as [|fuel IH]; intros fuel' options retryCount w res; [done|].
  intros H Hle. destruct fuel' as [|fuel']; [lia|]. simpl in *.
  destruct (attempt network behaviour endpoint options retryCount w)
    as [[[data|options']|e] w1]; try done.
  apply IH; [done|lia].
Qed.

(** C3: for every endpoint and options, every sequence of transport
    outcomes and whatever the registered callbacks do, [request] settles
    (it resolves or rejects), having called [fetch] at least once and at
    most [maxRetries + 1] times. *)
Theorem request_attempts_bounded endpoint options w :
  ∃ r w', request network behaviour endpoint options w = Some (r, w')
          ∧ 1 ≤ fetches w' - fetches w
          ∧ fetches w' - fetches w ≤ maxRetries (client w) + 1.
Proof.
  unfold request.
  destruct (request_fuel_settles endpoint (S (maxRetries (client w))) options 0 w)
    as (r & w' & Hreq & _ & Hlo & Hhi); [lia|].
  exists r, w'. split; [done|]. lia.
Qed.

End Request.

(** ** Retries *)

Section Retries.

Variable network : nat → FetchOutcome.
Variable behaviour : Callback → JsValue → CallbackOutcome.

(** A successful answer resolves the call with the parsed body. *)
Lemma attempt_ok endpoint options retryCount w r data :
  network (fetches w) = FetchResponse r →
  ok r = true → json_body r = Some data →
  attempt network behaviour endpoint options retryCount w
  = (Normal (Return data), fetched endpoint options w).
Proof.
  intros Hnet Hok Hbody. rewrite attempt_unfold, Hnet.
  destruct (ok_status r Hok) as [H401 H429].
  unfold try_catch. rewrite handle_response_other by done.
  by rewrite Hbody, Hok.
Qed.

(** A 429 within the budget waits [retryDelay * 2^retryCount] and calls
    [request] again. *)
Lemma attempt_429 endpoint options retryCount w r :
  network (fetches w) = FetchResponse r →
  status r = 429%Z → retryCount < maxRetries (client w) →
  attempt network behaviour endpoint options retryCount w
  = (Normal (Retry (sent_options w options)),
     emit_effect (Delay (retryDelay (client w) * 2 ^ Z.of_nat retryCount))
       (fetched endpoint options w)).
Proof.
  intros Hnet H429 Hlt. rewrite attempt_unfold, Hnet.
  unfold try_catch. by rewrite handle_response_429.
Qed.

(** A refusal within the budget is thrown inside [try], caught by the
    [catch] of the same activation, and retried after [retryDelay]. *)
Lemma attempt_refused_retry endpoint options retryCount w msg :
  refuses network (fetches w) msg →
  retryCount < maxRetries (client w) →
  attempt network behaviour endpoint options retryCount w
  = (Normal (Retry (sent_options w options)),
     emit_effect (Delay (retryDelay (client w))) (fetched endpoint options w)).
Proof.
  intros (r & data & Hnet & Hok & H401 & H429 & Hbody & Herr & Hmsg) Hlt.
  rewrite attempt_unfold, Hnet.
  unfold try_catch. rewrite handle_response_other by done.
  rewrite Hbody, Hok, Herr. by rewrite handle_error_retry.
Qed.

Lemma or_else_message msg :
  msg ≠ ""%string → or_else (VStr msg) (VStr "Request failed") = VStr msg.
Proof.
  intros H. unfold or_else, truthy.
  destruct (String.eqb_spec msg ""); [done|reflexivity].
Qed.

(** A refusal with the budget used up rejects with the server message. *)
Lemma attempt_refused_exhausted endpoint options retryCount w msg :
  refuses network (fetches w) msg →
  ¬ retryCount < maxRetries (client w) →
  attempt network behaviour endpoint options retryCount w
  = (Throw (Error msg), fetched endpoint options w).
Proof.
  intros (r & data & Hnet & Hok & H401 & H429 & Hbody & Herr & Hmsg) Hge.
  rewrite attempt_unfold, Hnet.
  unfold try_catch. rewrite handle_response_other by done.
  rewrite Hbody, Hok, Herr, or_else_message by done.
  by rewrite handle_error_exhausted.
Qed.

Lemma delays_app tr1 tr2 : delays (tr1 ++ tr2) = delays tr1 ++ delays tr2.
Proof. unfold delays. apply omap_app. Qed.

Lemma added_app w w' es : trace w' = trace w ++ es → added w w' = es.
Proof. intros H. unfold added. rewrite H. by rewrite drop_app_length. Qed.

(** [k] answers 429, then a success: the call resolves; the i-th wait
    (counting from 0) is [retryDelay * 2^(retryCount + i)]. *)
Lemma rate_limited_run endpoint r data k : ∀ fuel options retryCount w,
  k < fuel →
  retryCount + k ≤ maxRetries (client w) →
  (∀ i, i < k → status_at network (fetches w + i) = Some 429%Z) →
  network (fetches w + k) = FetchResponse r →
  ok r = true → json_body r = Some data →
  ∃ w' es,
    request_fuel network behaviour fuel endpoint options retryCount w = Some (Normal data, w')
    ∧ trace w' = trace w ++ es
    ∧ delays es = map (λ i, retryDelay (client w) * 2 ^ Z.of_nat (retryCount + i))%Z (seq 0 k)
    ∧ fetches w' = fetches w + k + 1
    ∧ credentials w' = credentials w
    ∧ invoked es = [].
Proof.
  induction k as [|k IH]; intros fuel options retryCount w Hfuel Hbudget H429 Hnet Hok Hbody.
  - destruct fuel as [|fuel]; [lia|]. simpl.
    rewrite Nat.add_0_r in Hnet.
    rewrite (attempt_ok _ _ _ _ _ _ Hnet Hok Hbody).
    eexists _, _. split; [reflexivity|]. simpl.
    repeat split; [lia].
  - destruct fuel as [|fuel]; [lia|]. simpl.
    assert (H0 : status_at network (fetches w + 0) = Some 429%Z) by (apply H429; lia).
    rewrite Nat.add_0_r in H0. unfold status_at in H0.
    destruct (network (fetches w)) as [|r0] eqn:Hnet0; [done|].
    assert (Hst : status r0 = 429%Z) by congruence.
    assert (Hlt : retryCount < maxRetries (client w)) by lia.
    rewrite (attempt_429 _ _ _ _ r0 Hnet0 Hst Hlt).
    set (w1 := emit_effect _ _).
    destruct (IH fuel (sent_options w options) (S retryCount) w1)
      as (w' & es & Hreq & Htr & Hdel & Hfet & Hcred & Hinv); try done; try lia.
    + simpl. lia.
    + intros i Hi. change (fetches w1) with (S (fetches w)).
      replace (S (fetches w) + i) with (fetches w + S i) by lia.
      apply H429. lia.
    + change (fetches w1) with (S (fetches w)).
      replace (S (fetches w) + k) with (fetches w + S k) by lia. done.
    + exists w', (Fetch (baseURL (client w) ++ endpoint)%string (sent_config w options)
                  :: Delay (retryDelay (client w) * 2 ^ Z.of_nat retryCount) :: es).
      split; [done|]. split; [|split; [|split; [|split]]].
      * rewrite Htr. simpl. by rewrite <- !app_assoc.
      * change (delays (?a :: ?b :: es)) with (retryDelay (client w) * 2 ^ Z.of_nat retryCount :: delays es)%Z.
        rewrite Hdel. simpl. rewrite Nat.add_0_r. f_equal.
        rewrite <- seq_shift, map_map. apply map_ext. intros i.
        simpl. by replace (retryCount + S i) with (S (retryCount + i)) by lia.
      * rewrite Hfet. simpl. lia.
      * rewrite Hcred. reflexivity.
      * exact Hinv.
Qed.

(** [k] refusals within the budget, then one more with the budget used
    up: the call waits [retryDelay] after each of the first [k] and
    rejects with the message of the last. *)
Lemma refused_run endpoint msg k : ∀ fuel options retryCount w,
  k < fuel →
  retryCount + k = maxRetries (client w) →
  (∀ i, i < k → ∃ m, refuses network (fetches w + i) m) →
  refuses network (fetches w + k) msg →
  ∃ w' es,
    request_fuel network behaviour fuel endpoint options retryCount w = Some (Throw (Error msg), w')
    ∧ trace w' = trace w ++ es
    ∧ delays es = replicate k (retryDelay (client w))
    ∧ fetches w' = fetches w + k + 1
    ∧ credentials w' = credentials w
    ∧ invoked es = [].
Proof.
  induction k as [|k IH]; intros fuel options retryCount w Hfuel Hbudget Hpre Hlast.
  - destruct fuel as [|fuel]; [lia|]. simpl.
    rewrite Nat.add_0_r in Hlast.
    rewrite (attempt_refused_exhausted _ _ _ _ _ Hlast) by lia.
    eexists _, _. split; [reflexivity|]. simpl.
    repeat split; [lia].
  - destruct fuel as [|fuel]; [lia|]. simpl.
    destruct (Hpre 0) as [m Hm]; [lia|]. rewrite Nat.add_0_r in Hm.
    rewrite (attempt_refused_retry _ _ _ _ _ Hm) by lia.
    set (w1 := emit_effect _ _).
    destruct (IH fuel (sent_options w options) (S retryCount) w1)
      as (w' & es & Hreq & Htr & Hdel & Hfet & Hcred & Hinv); try done; try lia.
    + simpl. lia.
    + intros i Hi. change (fetches w1) with (S (fetches w)).
      replace (S (fetches w) + i) with (fetches w + S i) by lia.
      apply Hpre. lia.
    + change (fetches w1) with (S (fetches w)).
      replace (S (fetches w) + k) with (fetches w + S k) by lia. done.
    + exists w', (Fetch (baseURL (client w) ++ endpoint)%string (sent_config w options)
                  :: Delay (retryDelay (client w)) :: es).
      split; [done|]. split; [|split; [|split; [|split]]].
      * rewrite Htr. simpl. by rewrite <- !app_assoc.
      * change (delays (?a :: ?b :: es)) with (retryDelay (client w) :: delays es).
        by rewrite Hdel.
      * rewrite Hfet. simpl. lia.
      * rewrite Hcred. reflexivity.
      * exact Hinv.
Qed.

(** C4 (amended): when the first [k < maxRetries] attempts are answered
    with HTTP 429 and the next attempt succeeds, [request] resolves with the
    success payload after [k] waits, and the wait before attempt [n]
    ([2 <= n <= k + 1], the first attempt being attempt 1) is
    [retryDelay * 2^(n-2)]: the first retry waits [retryDelay] itself.
    Numbered by [retryCount] instead (the first attempt being attempt 0),
    the wait before attempt [m] ([1 <= m <= k]) is [retryDelay * 2^(m-1)]. *)
Theorem rate_limited_then_success endpoint options w k r data :
  k < maxRetries (client w) →
  (∀ i, i < k → status_at network (fetches w + i) = Some 429%Z) →
  network (fetches w + k) = FetchResponse r →
  ok r = true → json_body r = Some data →
  ∃ w',
    request network behaviour endpoint options w = Some (Normal data, w')
    ∧ length (delays (added w w')) = k
    ∧ (∀ n, 2 ≤ n ≤ k + 1 →
         delays (added w w') !! (n - 2)
         = Some (retryDelay (client w) * 2 ^ Z.of_nat (n - 2))%Z)
    ∧ (∀ m, 1 ≤ m ≤ k →
         delays (added w w') !! (m - 1)
         = Some (retryDelay (client w) * 2 ^ Z.of_nat (m - 1))%Z).
Proof.
  intros Hk H429 Hnet Hok Hbody.
  destruct (rate_limited_run endpoint r data k (S (maxRetries (client w))) options 0 w)
    as (w' & es & Hreq & Htr & Hdel & _); try done; try lia.
  exists w'. split; [exact Hreq|].
  rewrite (added_app _ _ _ Htr), Hdel. split; [|split].
  - by rewrite length_map, length_seq.
  - intros n Hn. rewrite list_lookup_fmap.
    rewrite lookup_seq_lt by lia. reflexivity.
  - intros m Hm. rewrite list_lookup_fmap.
    rewrite lookup_seq_lt by lia. reflexivity.
Qed.

(** What the code does with refusals in general: when every attempt is
    refused, the call waits [retryDelay] after each of the first
    [maxRetries] refusals and rejects, after [maxRetries + 1] attempts, with
    the server message of the last one. *)
Lemma refused_until_budget endpoint options w msg :
  (∀ i, i < maxRetries (client w) → ∃ m, refuses network (fetches w + i) m) →
  refuses network (fetches w + maxRetries (client w)) msg →
  ∃ w',
    request network behaviour endpoint options w = Some (Throw (Error msg), w')
    ∧ fetches w' = fetches w + maxRetries (client w) + 1
    ∧ delays (added w w') = replicate (maxRetries (client w)) (retryDelay (client w))
    ∧ credentials w' = credentials w.
Proof.
  intros Hpre Hlast.
  destruct (refused_run endpoint msg (maxRetries (client w))
              (S (maxRetries (client w))) options 0 w)
    as (w' & es & Hreq & Htr & Hdel & Hfet & Hcred & _); try done; try lia.
  exists w'. rewrite (added_app _ _ _ Htr). done.
Qed.

End Retries.

(** C4, witness: one 429, then 200 with the stats. *)
Lemma rate_limited_then_success_witness :
  ∃ w',
    request rate_limited_once well_behaved "/stats" get_options (boot ∅)
    = Some (Normal stats, w')
    ∧ length (delays (added (boot ∅) w')) = 1
    ∧ (∀ n, 2 ≤ n ≤ 1 + 1 →
         delays (added (boot ∅) w') !! (n - 2)
         = Some (retryDelay (client (boot ∅)) * 2 ^ Z.of_nat (n - 2))%Z)
    ∧ (∀ m, 1 ≤ m ≤ 1 →
         delays (added (boot ∅) w') !! (m - 1)
         = Some (retryDelay (client (boot ∅)) * 2 ^ Z.of_nat (m - 1))%Z).
Proof.
  apply (rate_limited_then_success rate_limited_once well_behaved "/stats" get_options
           (boot ∅) 1 (mkResponse 200 (Some stats)) stats).
  - simpl. lia.
  - intros i Hi. destruct i; [reflexivity | lia].
  - reflexivity.
  - reflexivity.
  - reflexivity.
Defined.

(** C4, as stated, fails: after one 429 the wait before attempt 2 is
    [retryDelay] (1000 ms), not [retryDelay * 2^(2-1)] (2000 ms). *)
Lemma first_retry_waits_base_delay :
  ∃ w',
    request rate_limited_once well_behaved "/stats" get_options (boot ∅)
    = Some (Normal stats, w')
    ∧ delays (added (boot ∅) w') !! (2 - 2) = Some 1000%Z
    ∧ delays (added (boot ∅) w') !! (2 - 2)
      ≠ Some (retryDelay (client (boot ∅)) * 2 ^ (2 - 1))%Z.
Proof.
  eexists. split; [vm_compute; reflexivity|].
  split; [reflexivity|]. vm_compute. discriminate.
Qed.

(** C1 at a failing input: the first answer is HTTP 500 with a message.
    The call does not reject: it waits [retryDelay], issues a second
    attempt and resolves with the body of that attempt. *)
Theorem refused_request_is_retried :
  ∃ w',
    request fails_once well_behaved "/stats" get_options (boot ∅)
    = Some (Normal stats, w')
    ∧ fetches w' = 2
    ∧ delays (added (boot ∅) w') = [1000%Z].
Proof. eexists. split; [vm_compute; reflexivity|]. split; reflexivity. Qed.

(** The same defect seen from a 401: the refresh fails, the client is
    signed out and [authChange] is published, and yet the call does not
    reject: the request is sent again, without a token, and resolves. *)
Lemma unauthorized_then_success_resolves :
  ∃ w',
    request unauthorized_once well_behaved "/stats" get_options signed_in
    = Some (Normal stats, w')
    ∧ fetches w' = 2
    ∧ invoked (added signed_in w') = [Invoke 5 signed_out_event]
    ∧ credentials w' = (VNull, None, None).
Proof.
  eexists. split; [vm_compute; reflexivity|].
  split; [reflexivity|]. split; reflexivity.
Qed.

(** C2 at a failing input: a signed-in client whose every attempt is
    answered with HTTP 401.  The refresh is attempted on each of the first
    [maxRetries] attempts, so [authChange] with [authenticated: false] is
    published three times, and the call rejects only after four attempts. *)
Theorem unauthorized_request_refreshes_repeatedly :
  ∃ w',
    request always_unauthorized well_behaved "/stats" get_options signed_in
    = Some (Throw (Error "Unauthorized"), w')
    ∧ fetches w' = 4
    ∧ invoked (added signed_in w')
      = [Invoke 5 signed_out_event; Invoke 5 signed_out_event; Invoke 5 signed_out_event]
    ∧ credentials w' = (VNull, None, None).
Proof.
  eexists. split; [vm_compute; reflexivity|].
  split; [reflexivity|]. split; reflexivity.
Qed.

(** ** Login *)

Section Login.

Variable network : nat → FetchOutcome.
Variable behaviour : Callback → JsValue → CallbackOutcome.

Lemma transport_only_refl w : transport_only w w.
Proof.
  exists (fetches w), []. split; [|constructor].
  destruct w; unfold set_fetches, emit_all; simpl. by rewrite app_nil_r.
Qed.

Lemma transport_only_trans w1 w2 w3 :
  transport_only w1 w2 → transport_only w2 w3 → transport_only w1 w3.
Proof.
  intros (n1 & es1 & -> & H1) (n2 & es2 & -> & H2).
  exists n2, (es1 ++ es2). split; [|by apply Forall_app].
  unfold set_fetches, emit_all; simpl. by rewrite app_assoc.
Qed.

Lemma transport_only_effect e w :
  is_transport e → transport_only w (emit_effect e w).
Proof.
  intros He. exists (fetches w), [e]. split; [|by repeat constructor].
  reflexivity.
Qed.

Lemma transport_only_fetched endpoint options w :
  transport_only w (fetched endpoint options w).
Proof.
  eexists (S (fetches w)), [_]. split; [reflexivity|]. by repeat constructor.
Qed.

Lemma transport_only_credentials w w' :
  transport_only w w' → credentials w' = credentials w.
Proof. by intros (n & es & -> & _). Qed.

Lemma invoked_transport es : Forall is_transport es → invoked es = [].
Proof.
  induction 1 as [|e es He _ IH]; [done|].
  unfold invoked in *. rewrite filter_cons. destruct e; simpl in *; done.
Qed.

Lemma transport_only_invoked w w' :
  transport_only w w' → invoked (trace w') = invoked (trace w).
Proof.
  intros (n & es & -> & H). simpl.
  pose proof (invoked_transport es H) as Hes.
  unfold invoked in *. rewrite filter_app, Hes.
  by rewrite app_nil_r.
Qed.

Lemma transport_only_settings w w' :
  transport_only w w' → settings w' = settings w.
Proof. by intros (n & es & -> & _). Qed.

Lemma handle_error_transport options retryCount e w :
  transport_only w (snd (handle_error options retryCount e w)).
Proof.
  destruct (decide (retryCount < maxRetries (client w))) as [Hlt|Hge].
  - rewrite handle_error_retry by done. by apply transport_only_effect.
  - rewrite handle_error_exhausted by done. apply transport_only_refl.
Qed.

(** Without a 401 inside the retry budget, handling a response touches
    nothing but the clock. *)
Lemma handle_response_transport options headers retryCount r w :
  ¬ (status r = 401%Z ∧ retryCount < maxRetries (client w)) →
  transport_only w (snd (handle_response behaviour options headers retryCount r w)).
Proof.
  intros Hno. unfold handle_response, bind, read, json, prop, delay, effect, modify. simpl.
  rewrite decide_False by done. simpl.
  repeat case_decide; simpl;
    try (by apply transport_only_effect);
    (destruct (json_body r) as [data|]; simpl; [|apply transport_only_refl];
     destruct (negb (ok r)); simpl; [|apply transport_only_refl];
     destruct (get_prop data "error"); simpl; apply transport_only_refl).
Qed.

Lemma attempt_transport endpoint options retryCount w :
  ¬ (status_at network (fetches w) = Some 401%Z ∧ retryCount < maxRetries (client w)) →
  transport_only w (snd (attempt network behaviour endpoint options retryCount w)).
Proof.
  intros Hno. rewrite attempt_unfold. unfold status_at in Hno.
  eapply transport_only_trans; [apply (transport_only_fetched endpoint options)|].
  destruct (network (fetches w)) as [e|r].
  - apply handle_error_transport.
  - unfold try_catch.
    assert (Hr : transport_only (fetched endpoint options w)
                   (snd (handle_response behaviour (sent_options w options)
                           (sent_headers w options) retryCount r
                           (fetched endpoint options w)))).
    { apply handle_response_transport. simpl. intros [? ?]. apply Hno.
      split; [congruence|done]. }
    destruct (handle_response _ _ _ _ _ _) as [[next|e] w1]; simpl in *; [done|].
    eapply transport_only_trans; [exact Hr|]. apply handle_error_transport.
Qed.

(** A call none of whose attempts is answered 401 while retry budget
    remains leaves the credentials alone and invokes no callback. *)
Lemma request_fuel_transport endpoint fuel : ∀ options retryCount w res w',
  (∀ i, retryCount + i < maxRetries (client w) →
        status_at network (fetches w + i) ≠ Some 401%Z) →
  request_fuel network behaviour fuel endpoint options retryCount w = Some (res, w') →
  transport_only w w'.
Proof.
  induction fuel as [|fuel IH]; intros options retryCount w res w' Hno; [done|].
  simpl.
  assert (Ha : transport_only w
                 (snd (attempt network behaviour endpoint options retryCount w))).
  { apply attempt_transport. intros [H401 Hlt].
    apply (Hno 0); [lia|]. by rewrite Nat.add_0_r. }
  pose proof (attempt_fetches network behaviour endpoint options retryCount w) as Hfet.
  destruct (attempt network behaviour endpoint options retryCount w)
    as [[[data|options']|e] w1]; simpl in Ha; intros E; simplify_eq; try done.
  eapply transport_only_trans; [exact Ha|].
  eapply IH; [|exact E].
  intros i Hi. rewrite (Hfet _ _ eq_refl).
  replace (S (fetches w) + i) with (fetches w + S i) by lia.
  apply Hno. rewrite (settings_maxRetries _ _ (transport_only_settings _ _ Ha)) in Hi. lia.
Qed.

Lemma login_failed_transport e w :
  login_failed e w = (Throw e, emit_effect (ConsoleError "Login failed:" e) w).
Proof. reflexivity. Qed.

(** C10 (amended): if the POST issued by [login] rejects, [login] logs
    and rethrows the same error and itself changes nothing: the token, the
    persisted token entry and the remember-me flag are as the POST left
    them, and [login] invokes no callback.  If moreover no attempt of that
    POST was answered 401 while retry budget remained, they keep the
    values they had before the call and no callback is invoked at all (no
    [authChange] is published). *)
Theorem login_rejected_post username password rememberMe w e w1 :
  post network behaviour "/login"
    (VObj [("username", username); ("password", password)]) w = Some (Throw e, w1) →
  ∃ w',
    login network behaviour username password rememberMe w = Some (Throw e, w')
    ∧ credentials w' = credentials w1
    ∧ invoked (trace w') = invoked (trace w1)
    ∧ ((∀ i, i < maxRetries (client w) →
             status_at network (fetches w + i) ≠ Some 401%Z) →
       credentials w' = credentials w
       ∧ invoked (trace w') = invoked (trace w)).
Proof.
  intros Hpost. unfold login. rewrite Hpost.
  eexists. split; [reflexivity|].
  assert (Hinv : invoked (trace (snd (login_failed e w1))) = invoked (trace w1)).
  { unfold invoked. simpl. rewrite filter_app. simpl. by rewrite app_nil_r. }
  split; [reflexivity|]. split; [exact Hinv|].
  intros Hno.
  unfold post, request in Hpost.
  apply request_fuel_transport in Hpost; [|intros i Hi; apply Hno; lia].
  split.
  - change (credentials (emit_effect (ConsoleError "Login failed:" e) w1))
      with (credentials w1).
    by apply transport_only_credentials.
  - rewrite <- (transport_only_invoked _ _ Hpost). exact Hinv.
Qed.

End Login.

(** C10, witness: the login endpoint answers 404 at every attempt. *)
Lemma login_rejected_post_witness :
  ∃ w',
    login always_not_found well_behaved (VStr "operator") (VStr "secret") true signed_in
    = Some (Throw (Error "Not found"), w')
    ∧ credentials w' = credentials signed_in
    ∧ invoked (trace w') = invoked (trace signed_in).
Proof.
  destruct (login_rejected_post always_not_found well_behaved
              (VStr "operator") (VStr "secret") true signed_in (Error "Not found")
              (snd (default (Normal VNull, signed_in)
                      (post always_not_found well_behaved "/login"
                         (VObj [("username", VStr "operator"); ("password", VStr "secret")])
                         signed_in))))
    as (w' & Hlogin & _ & _ & Hkept).
  - vm_compute. reflexivity.
  - exists w'. split; [exact Hlogin|]. apply Hkept.
    intros i _. unfold status_at, always_not_found. simpl. discriminate.
Defined.

(** C10, as stated, fails: the login endpoint answers 401 (wrong
    password) to a client that holds a token.  [login] rejects, but the
    token, its persisted entry and the remember-me flag are gone and
    [authChange] has been published. *)
Lemma login_unauthorized_clears_credentials :
  ∃ w',
    login always_unauthorized well_behaved (VStr "operator") (VStr "wrong") false signed_in
    = Some (Throw (Error "Unauthorized"), w')
    ∧ credentials signed_in = (VStr "abc", Some "abc"%string, Some "true"%string)
    ∧ credentials w' = (VNull, None, None)
    ∧ credentials w' ≠ credentials signed_in
    ∧ invoked (added signed_in w')
      = [Invoke 5 signed_out_event; Invoke 5 signed_out_event; Invoke 5 signed_out_event].
Proof.
  eexists. split; [vm_compute; reflexivity|].
  split; [reflexivity|]. split; [reflexivity|]. split; [discriminate|].
  reflexivity.
Qed.

(** ** The socket channel *)

Section QuietFrame.

Variable behaviour : Callback → JsValue → CallbackOutcome.

(** A part of the world that quiet effects and the bookkeeping of sockets
    and timers do not change. *)
Variable B : Type.
Variable f : World → B.
Hypothesis f_quiet : ∀ e w, quiet e → f (emit_effect e w) = f w.
Hypothesis f_sockets : ∀ l w, f (set_sockets l w) = f w.
Hypothesis f_socket : ∀ o w, f (with_client (set_socket o) w) = f w.
Hypothesis f_intervals : ∀ l w, f (set_intervals l w) = f w.
Hypothesis f_timeouts : ∀ l w, f (set_timeouts l w) = f w.

Lemma quiet_effect e : quiet e → keeps (unchanged f) (effect e).
Proof. intros He. apply keeps_modify. intros w. by apply f_quiet. Qed.

Lemma forEach_quiet l data : keeps (unchanged f) (forEach behaviour l data).
Proof.
  induction l as [|cb l IH]; simpl; [apply keeps_ret|].
  apply keeps_bind; [|done]. unfold call.
  apply keeps_bind; [by apply quiet_effect|]. intros _.
  destruct (behaviour cb data); [apply keeps_ret | apply keeps_throw].
Qed.

Lemma broadcastEvent_quiet event data :
  keeps (unchanged f) (broadcastEvent behaviour event data).
Proof.
  unfold broadcastEvent. apply keeps_bind; [apply keeps_read|].
  intros [l|]; [apply forEach_quiet | apply keeps_ret].
Qed.







End QuietFrame.

Section Channel.

Variable behaviour : Callback → JsValue → CallbackOutcome.

Lemma count_effects_snoc p tr e :
  count_effects p (tr ++ [e]) = count_effects p tr + (if p e then 1 else 0).
Proof.
  unfold count_effects. rewrite filter_app, length_app. f_equal.
  rewrite filter_cons, filter_nil.
  destruct (p e); case_decide; simpl; congruence.
Qed.

Lemma count_effects_quiet p e w :
  p e = false → count_effects p (trace (emit_effect e w)) = count_effects p (trace w).
Proof. intros H. simpl. rewrite count_effects_snoc, H. lia. Qed.

(** The outcome of a publication depends on the listeners and on what they
    do, not on the rest of the world. *)
Lemma forEach_outcome l data w1 w2 :
  fst (forEach behaviour l data w1) = fst (forEach behaviour l data w2).
Proof.
  revert w1 w2. induction l as [|cb l IH]; intros w1 w2; [done|].
  simpl. unfold bind, call, bind, effect, modify. simpl.
  destruct (behaviour cb data); simpl; [apply IH | done].
Qed.

Lemma broadcastEvent_outcome event data w1 w2 :
  eventListeners (client w1) = eventListeners (client w2) →
  fst (broadcastEvent behaviour event data w1) = fst (broadcastEvent behaviour event data w2).
Proof.
  intros H. rewrite !broadcastEvent_unfold, H.
  destruct (_ !! _); [apply forEach_outcome | done].
Qed.

Lemma notify_throws_listeners w1 w2 :
  eventListeners (client w1) = eventListeners (client w2) →
  notify_throws behaviour w1 = notify_throws behaviour w2.
Proof.
  intros H. unfold notify_throws. by rewrite (broadcastEvent_outcome _ _ w1 w2 H).
Qed.

(** The [disconnect] handler, laid out. *)
Lemma on_disconnect_unfold w :
  on_disconnect behaviour w
  = match broadcastEvent behaviour "socketChange" went_down
            (with_client (set_socketConnected false)
               (emit_effect (ConsoleLog "WebSocket disconnected") w)) with
    | (Normal _, wb) =>
        if decide (reconnectAttempts (client wb) < maxReconnectAttempts (client wb))
        then (Normal tt, schedule_reconnect wb)
        else (Normal tt, wb)
    | (Throw e, wb) => (Throw e, wb)
    end.
Proof.
  unfold on_disconnect, went_down. unfold bind at 1. unfold effect at 1, modify at 1.
  unfold bind at 1. unfold modify at 1. unfold bind at 1.
  destruct (broadcastEvent _ _ _ _) as [[[]|e] wb]; [|done].
  unfold bind, read. simpl. by case_decide.
Qed.


Lemma watch_quiet e w : quiet e → watch (emit_effect e w) = watch w.
Proof.
  intros (H1 & H2 & H3). unfold watch, scheduled, closed, opened.
  by rewrite !count_effects_quiet.
Qed.

Lemma watch_inv w w' :
  watch w' = watch w →
  scheduled w' = scheduled w ∧ closed w' = closed w ∧ opened w' = opened w
  ∧ reconnectAttempts (client w') = reconnectAttempts (client w)
  ∧ maxReconnectAttempts (client w') = maxReconnectAttempts (client w)
  ∧ socketConnected (client w') = socketConnected (client w)
  ∧ eventListeners (client w') = eventListeners (client w).
Proof. unfold watch. intros H. by simplify_eq. Qed.

Lemma broadcastEvent_watch event data w :
  watch (snd (broadcastEvent behaviour event data w)) = watch w.
Proof.
  apply (broadcastEvent_quiet behaviour _ watch); auto using watch_quiet.
Qed.














Lemma deliver_all_app evs1 evs2 w :
  deliver_all behaviour (evs1 ++ evs2) w
  = deliver_all behaviour evs2 (deliver_all behaviour evs1 w).
Proof. revert w. induction evs1 as [|ev evs1 IH]; intros w; simpl; [done|]. apply IH. Qed.





(** The guard of [connectSocket]: nothing happens when the current socket
    is connected; otherwise a new socket is opened. *)
Lemma connectSocket_connected w :
  current_socket_connected w = true → connectSocket w = (Normal tt, w).
Proof. intros H. unfold connectSocket, bind, read. by rewrite H. Qed.

Lemma connectSocket_not_connected w :
  current_socket_connected w = false →
  opened_sockets (snd (connectSocket w)) = opened_sockets w + 1
  ∧ length (sockets (snd (connectSocket w))) = length (sockets w) + 1
  ∧ socket (client (snd (connectSocket w))) = Some (length (sockets w)).
Proof.
  intros H. unfold connectSocket, bind, read. rewrite H.
  unfold opened_sockets. simpl. rewrite !count_effects_snoc. simpl.
  rewrite !length_alter, length_app. simpl. repeat split; lia.
Qed.

Lemma disconnectSocket_unfold w sid :
  socket (client w) = Some sid →
  disconnectSocket w
  = (Normal tt,
     with_client (set_socketConnected false)
       (with_client (set_socket None)
          (emit_effect (SocketDisconnect sid)
             (set_sockets (alter (set_connected false) sid (sockets w)) w)))).
Proof. intros H. unfold disconnectSocket, bind, read. by rewrite H. Qed.

(** C6 (amended): an explicit [disconnectSocket] on a client holding a
    socket tells the socket to disconnect, clears the socket reference and
    leaves the channel disconnected.  It cancels no timer: the heartbeat
    interval and the pending reconnection timeouts stay scheduled.  It keeps
    no mark of intent: when the [disconnect] handler runs afterwards, it
    schedules a reconnection if [reconnectAttempts] is below
    [maxReconnectAttempts] and publishing the loss does not throw; if a
    listener of [socketChange] throws, or the attempts are used up, it
    schedules nothing. *)
Theorem disconnectSocket_keeps_timers w sid :
  socket (client w) = Some sid →
  let w' := snd (disconnectSocket w) in
  (fst (disconnectSocket w) = Normal tt
   ∧ added w w' = [SocketDisconnect sid]
   ∧ socket (client w') = None
   ∧ socketConnected (client w') = false
   ∧ intervals w' = intervals w
   ∧ timeouts w' = timeouts w)
  ∧ (reconnectAttempts (client w) < maxReconnectAttempts (client w) →
     notify_throws behaviour w = false →
     scheduled (snd (on_disconnect behaviour w')) = scheduled w' + 1
     ∧ timeouts (snd (on_disconnect behaviour w'))
       = timeouts w ++ [(reconnectDelay (client w), Reconnect)])
  ∧ (notify_throws behaviour w = true
     ∨ ¬ reconnectAttempts (client w) < maxReconnectAttempts (client w) →
     scheduled (snd (on_disconnect behaviour w')) = scheduled w'
     ∧ timeouts (snd (on_disconnect behaviour w')) = timeouts w).
Proof.
  intros Hs w'. unfold w'. rewrite (disconnectSocket_unfold w sid Hs).
  split; [|split].
  - simpl. repeat split. unfold added. simpl. by rewrite drop_app_length.
  - intros Hlt Hquiet. simpl. rewrite on_disconnect_unfold.
    set (w0 := with_client (set_socketConnected false) (emit_effect _ _)).
    assert (Hn : notify_throws behaviour w0 = notify_throws behaviour w)
      by (by apply notify_throws_listeners).
    rewrite Hquiet in Hn. unfold notify_throws in Hn.
    pose proof (broadcastEvent_watch "socketChange" went_down w0) as Hw.
    pose proof (broadcastEvent_untouched behaviour _
                  (λ w, (timeouts w, reconnectDelay (client w)))
                  (λ _ _, eq_refl) "socketChange" went_down w0) as Ht.
    destruct (broadcastEvent behaviour "socketChange" went_down w0) as [[[]|e] wb];
      simpl in Hw, Hn, Ht; [|done].
    apply watch_inv in Hw as (Hsc & _ & _ & Ha & Hm & _).
    unfold unchanged in Ht. simpl in Ht.
    rewrite decide_True by (rewrite Ha, Hm; exact Hlt). simpl.
    split.
    + unfold scheduled at 1. unfold schedule_reconnect. simpl.
      rewrite count_effects_snoc. simpl. fold (scheduled wb). rewrite Hsc.
      unfold scheduled, w0. simpl. rewrite !count_effects_snoc. simpl. lia.
    + injection Ht as -> ->. reflexivity.
  - intros Hnot. simpl. rewrite on_disconnect_unfold.
    set (w0 := with_client (set_socketConnected false) (emit_effect _ _)).
    assert (Hn : notify_throws behaviour w0 = notify_throws behaviour w)
      by (by apply notify_throws_listeners).
    unfold notify_throws in Hn at 1.
    pose proof (broadcastEvent_watch "socketChange" went_down w0) as Hw.
    pose proof (broadcastEvent_untouched behaviour _
                  (λ w, (timeouts w, reconnectDelay (client w)))
                  (λ _ _, eq_refl) "socketChange" went_down w0) as Ht.
    assert (Hs0 : scheduled w0
                  = scheduled (with_client (set_socketConnected false)
                      (with_client (set_socket None)
                         (emit_effect (SocketDisconnect sid)
                            (set_sockets (alter (set_connected false) sid (sockets w)) w))))).
    { unfold scheduled, w0. simpl. rewrite !count_effects_snoc. simpl. lia. }
    destruct (broadcastEvent behaviour "socketChange" went_down w0) as [[[]|e] wb];
      simpl in Hw, Hn, Ht;
      apply watch_inv in Hw as (Hsc & _ & _ & Ha & Hm & _);
      unfold unchanged in Ht; simpl in Ht; injection Ht as Ht _.
    + destruct Hnot as [Hthrows|Hused]; [congruence|].
      rewrite decide_False by (rewrite Ha, Hm; exact Hused). simpl.
      split; [congruence | exact Ht].
    + simpl. split; [congruence | exact Ht].
Qed.

End Channel.



(** C6, witness: the live channel of the scenarios. *)
Lemma disconnectSocket_keeps_timers_witness :
  (fst (disconnectSocket live_channel) = Normal tt
   ∧ added live_channel (snd (disconnectSocket live_channel)) = [SocketDisconnect 0]
   ∧ socket (client (snd (disconnectSocket live_channel))) = None
   ∧ socketConnected (client (snd (disconnectSocket live_channel))) = false
   ∧ intervals (snd (disconnectSocket live_channel)) = intervals live_channel
   ∧ timeouts (snd (disconnectSocket live_channel)) = timeouts live_channel)
  ∧ (scheduled (snd (on_disconnect well_behaved (snd (disconnectSocket live_channel))))
     = scheduled (snd (disconnectSocket live_channel)) + 1
     ∧ timeouts (snd (on_disconnect well_behaved (snd (disconnectSocket live_channel))))
       = timeouts live_channel ++ [(reconnectDelay (client live_channel), Reconnect)]).
Proof.
  destruct (disconnectSocket_keeps_timers well_behaved live_channel 0) as [H1 [H2 _]].
  - reflexivity.
  - split; [exact H1|]. apply H2.
    + vm_compute. lia.
    + reflexivity.
Defined.

(** C6, as stated, fails: after an explicit [disconnectSocket] the
    heartbeat interval is still scheduled; when the close of the socket is
    reported, the [disconnect] handler schedules a reconnection; and when
    that timer fires, a new socket is opened. *)
Lemma explicit_disconnect_still_reconnects :
  let w1 := snd (disconnectSocket live_channel) in
  let w2 := deliver_all well_behaved [SocketClosed 0] w1 in
  let w3 := deliver_all well_behaved [TimeoutFires 0] w2 in
  intervals w1 = [(30000%Z, Heartbeat)]
  ∧ timeouts w1 = []
  ∧ timeouts w2 = [(2000%Z, Reconnect)]
  ∧ opened_sockets w1 = 1
  ∧ opened_sockets w3 = 2.
Proof. vm_compute. repeat split. Qed.

(** A listener of [socketChange] that throws keeps the [disconnect]
    handler from scheduling anything, with attempts to spare. *)
Lemma throwing_listener_blocks_reconnection :
  let w := snd (on "socketChange" 3 live_channel) in
  let w' := snd (disconnectSocket w) in
  notify_throws always_throws w = true
  ∧ reconnectAttempts (client w) < maxReconnectAttempts (client w)
  ∧ scheduled (snd (on_disconnect always_throws w')) = scheduled w'
  ∧ timeouts (snd (on_disconnect always_throws w')) = [].
Proof. vm_compute. repeat split; lia. Qed.

(** [socketConnected] is written by the handlers of every socket there
    is: the close of a socket that was replaced clears the flag while the
    current socket is connected. *)
Lemma stale_close_clears_flag :
  let w1 := deliver_all well_behaved (replicate 5 (SocketClosed 0)) connecting in
  let w2 := deliver_all well_behaved [TimeoutFires 0; SocketOpened 1] w1 in
  let w3 := deliver_all well_behaved [SocketClosed 0] w2 in
  socket (client w3) = Some 1
  ∧ current_socket_connected w3 = true
  ∧ socketConnected (client w3) = false.
Proof. vm_compute. repeat split. Qed.

(** C7 at a failing input: [connectSocket] is called twice in a row on a
    fresh client.  After the first call the socket exists but is not
    connected; the second call passes the guard and opens a second socket
    (with its own handlers and heartbeat interval). *)
Theorem connect_while_connecting_opens_second_socket :
  let w1 := snd (connectSocket (boot ∅)) in
  let w2 := snd (connectSocket w1) in
  socket (client w1) = Some 0
  ∧ current_socket_connected w1 = false
  ∧ opened_sockets w1 = 1
  ∧ opened_sockets w2 = 2
  ∧ socket (client w2) = Some 1
  ∧ length (intervals w2) = 2.
Proof. vm_compute. repeat split. Qed.

(** ** Signing out *)

Section SignOut.

Variable behaviour : Callback → JsValue → CallbackOutcome.

(** [logout] clears the token, its persisted entry and the remember-me
    flag, whatever the listeners of [authChange] do. *)
Lemma logout_clears w :
  credentials (snd (logout behaviour w)) = (VNull, None, None).
Proof.
  unfold logout, removeItem.
  unfold bind at 1, modify at 1. unfold bind at 1, modify at 1.
  unfold bind at 1, modify at 1.
  set (w0 := set_localStorage _ _).
  assert (H0 : credentials w0 = (VNull, None, None)).
  { unfold credentials, w0. simpl.
    rewrite lookup_delete_ne by (intros ?; discriminate).
    by rewrite !lookup_delete_eq. }
  rewrite <- H0.
  apply (keeps_bind credentials).
  - apply disconnectSocket_untouched; intros; reflexivity.
  - intros _. apply broadcastEvent_untouched. intros; reflexivity.
Qed.

Lemma refreshAuthToken_unfold w :
  refreshAuthToken behaviour w
  = match logout behaviour w with
    | (Normal _, w1) => (Normal false, w1)
    | (Throw e, w1) =>
        match logout behaviour (emit_effect (ConsoleError "Token refresh failed:" e) w1) with
        | (Normal _, w2) => (Normal false, w2)
        | (Throw e', w2) => (Throw e', w2)
        end
    end.
Proof.
  unfold refreshAuthToken, try_catch, bind, effect, modify, ret.
  destruct (logout behaviour w) as [[[]|e] w1]; [done|]. simpl.
  by destruct (logout behaviour _) as [[[]|e'] w2].
Qed.

(** The refresh never succeeds: it signs the client out and answers
    [false] (or throws, when a listener of [authChange] throws twice). *)
Lemma refreshAuthToken_never_refreshes w :
  fst (refreshAuthToken behaviour w) ≠ Normal true
  ∧ credentials (snd (refreshAuthToken behaviour w)) = (VNull, None, None).
Proof.
  rewrite refreshAuthToken_unfold.
  pose proof (logout_clears w) as Hc.
  destruct (logout behaviour w) as [[[]|e] w1]; simpl in *;
    [split; [discriminate | exact Hc]|].
  pose proof (logout_clears (emit_effect (ConsoleError "Token refresh failed:" e) w1)) as Hc'.
  destruct (logout behaviour _) as [[[]|e'] w2]; simpl in *;
    (split; [discriminate | exact Hc']).
Qed.

End SignOut.

(** * Further properties of the client *)

(** ** Subscriptions *)

Section Subscriptions.

Variable behaviour : Callback → JsValue → CallbackOutcome.

(** What a delivery does is fixed by the listeners, the payload and what
    the callbacks do: an outcome and a batch of invocations. *)
Lemma forEach_shape l data :
  ∃ r k,
    (∀ w, forEach behaviour l data w = (r, emit_all (invocations data (take k l)) w)).
Proof.
  induction l as [|cb l (r & k & IH)].
  - exists (Normal tt), 0. intros w. simpl. by rewrite emit_all_nil.
  - destruct (behaviour cb data) as [|e] eqn:Hcb.
    + exists r, (S k). intros w. simpl.
      unfold bind, call, bind, effect, modify. rewrite Hcb. simpl.
      rewrite IH. by rewrite emit_all_cons.
    + exists (Throw e), 1. intros w. simpl.
      unfold bind, call, bind, effect, modify. rewrite Hcb. simpl.
      by rewrite emit_all_cons, emit_all_nil.
Qed.

Lemma added_emit_all es w : added w (emit_all es w) = es.
Proof. unfold added. simpl. by rewrite drop_app_length. Qed.

Lemma world_eta w :
  mkWorld (client w) (localStorage w) (sockets w) (timeouts w) (intervals w)
    (fetches w) (trace w) = w.
Proof. by destruct w. Qed.

Lemma client_eta c :
  mkClient (baseURL c) (token c) (refreshToken c) (maxRetries c) (retryDelay c)
    (eventListeners c) (socket c) (socketConnected c) (reconnectAttempts c)
    (maxReconnectAttempts c) (reconnectDelay c) = c.
Proof. by destruct c. Qed.

Lemma set_delete_absent cb l : cb ∉ l → set_delete cb l = l.
Proof.
  intros H. unfold set_delete. induction l as [|x l IH]; [done|].
  rewrite filter_cons. apply not_elem_of_cons in H as [Hne Hl].
  rewrite decide_True by done. by rewrite IH.
Qed.

Lemma registered_off_same event cb w :
  registered (snd (off event cb w)) event = set_delete cb (registered w event).
Proof.
  unfold registered, off, modify, with_client. simpl.
  destruct (eventListeners (client w) !! event) as [l|] eqn:Hl; simpl.
  - by rewrite lookup_insert_eq.
  - by rewrite Hl.
Qed.

Lemma registered_off_other event event' cb w :
  event' ≠ event →
  registered (snd (off event cb w)) event' = registered w event'.
Proof.
  intros Hne. unfold registered, off, modify, with_client. simpl.
  destruct (eventListeners (client w) !! event) as [l|] eqn:Hl; simpl; [|done].
  by rewrite lookup_insert_ne.
Qed.

(** X1: [off(event, cb)] removes the handler: a later publish of the event
    never invokes it, the other handlers keep their order, the listeners of
    other events are untouched; and when the handler was not registered
    for the event, [off] changes nothing at all. *)
Theorem off_removes_handler event cb data w :
  let w1 := snd (off event cb w) in
  (cb ∉ registered w event → w1 = w)
  ∧ registered w1 event = filter (λ x, x ≠ cb) (registered w event)
  ∧ (Invoke cb data ∉ added w1 (snd (broadcastEvent behaviour event data w1)))
  ∧ (∀ event', event' ≠ event → registered w1 event' = registered w event').
Proof.
  intros w1. split; [|split; [|split]].
  - intros Hnot. unfold w1, off, modify, with_client. simpl.
    unfold registered in Hnot.
    destruct (eventListeners (client w) !! event) as [l|] eqn:Hl; simpl in *.
    + rewrite set_delete_absent by done. rewrite insert_id by done.
      unfold set_eventListeners. rewrite client_eta. apply world_eta.
    + apply world_eta.
  - apply registered_off_same.
  - rewrite broadcastEvent_registered.
    destruct (forEach_shape (registered w1 event) data) as (r & k & Hshape).
    rewrite Hshape. simpl. rewrite added_emit_all.
    unfold invocations. intros Hin.
    apply list_elem_of_fmap in Hin as (x & Hx & Hin). simplify_eq.
    apply elem_of_take in Hin as (i & Hin & _).
    apply list_elem_of_lookup_2 in Hin.
    unfold w1 in Hin. rewrite registered_off_same in Hin.
    unfold set_delete in Hin. apply list_elem_of_filter in Hin as [Hne _]. done.
  - intros event' Hne. by apply registered_off_other.
Qed.

Lemma on_emit_all event cb es w :
  snd (on event cb (emit_all es w)) = emit_all es (snd (on event cb w)).
Proof. reflexivity. Qed.

Lemma registered_on_other event event' cb w :
  event ≠ event' →
  registered (snd (on event cb w)) event' = registered w event'.
Proof.
  intros Hne. unfold registered, on, modify, with_client. simpl.
  by rewrite lookup_insert_ne.
Qed.

(** X2: publishing an event nobody listens to does nothing and returns
    normally; and subscribing to one event does not change what publishing
    another event does. *)
Theorem publish_is_per_event event event' cb data w :
  (registered w event' = [] → broadcastEvent behaviour event' data w = (Normal tt, w))
  ∧ (event ≠ event' →
     broadcastEvent behaviour event' data (snd (on event cb w))
     = (fst (broadcastEvent behaviour event' data w),
        snd (on event cb (snd (broadcastEvent behaviour event' data w))))).
Proof.
  split.
  - intros Hnone. rewrite broadcastEvent_registered, Hnone. reflexivity.
  - intros Hne. rewrite !broadcastEvent_registered.
    rewrite registered_on_other by done.
    destruct (forEach_shape (registered w event') data) as (r & k & Hshape).
    rewrite !Hshape. cbn [fst snd]. by rewrite on_emit_all.
Qed.

End Subscriptions.

(** X2, witness: a [logEntry] listener does not hear [socketChange]. *)
Lemma publish_is_per_event_witness :
  broadcastEvent well_behaved "socketChange" went_down (boot ∅) = (Normal tt, boot ∅)
  ∧ broadcastEvent well_behaved "socketChange" went_down (snd (on "logEntry" 7 (boot ∅)))
    = (fst (broadcastEvent well_behaved "socketChange" went_down (boot ∅)),
       snd (on "logEntry" 7 (snd (broadcastEvent well_behaved "socketChange" went_down (boot ∅))))).
Proof.
  destruct (publish_is_per_event well_behaved "logEntry" "socketChange" 7 went_down (boot ∅))
    as [Hnone Hother].
  split; [apply Hnone; reflexivity | apply Hother; discriminate].
Defined.

(** ** Signing in and out *)

Section Sessions.

Variable network : nat → FetchOutcome.
Variable behaviour : Callback → JsValue → CallbackOutcome.

Lemma invoked_invocations data l : invoked (invocations data l) = invocations data l.
Proof.
  unfold invoked, invocations. induction l as [|cb l IH]; [done|].
  simpl. rewrite filter_cons. simpl. by rewrite IH.
Qed.

Lemma invoked_app tr1 tr2 : invoked (tr1 ++ tr2) = invoked tr1 ++ invoked tr2.
Proof. unfold invoked. apply filter_app. Qed.

Lemma added_app_emit_all es1 es w w1 :
  trace w1 = trace w ++ es1 → added w (emit_all es w1) = es1 ++ es.
Proof.
  intros H. unfold added. simpl. rewrite H, <- app_assoc. by rewrite drop_app_length.
Qed.

(** [logout], laid out: forget, close the socket, publish. *)
Lemma logout_unfold w :
  logout behaviour w
  = broadcastEvent behaviour "authChange" signed_out_event
      (snd (disconnectSocket (forgotten w))).
Proof.
  unfold logout, removeItem, forgotten.
  unfold bind at 1, modify at 1. unfold bind at 1, modify at 1.
  unfold bind at 1, modify at 1. unfold bind at 1.
  by destruct (disconnectSocket _) as [[[]|e] w1] eqn:E;
    [|unfold disconnectSocket, bind, read in E; simpl in E;
      destruct (socket (client w)); discriminate].
Qed.

(** X3: [logout] always leaves the client signed out, even when a listener
    throws: no token, no persisted token or remember-me flag, no socket
    reference; a socket that was held has been told to disconnect.  When
    the [authChange] listeners return, each is told
    [{authenticated: false}] once, in registration order. *)
Theorem logout_signs_out w :
  let r := logout behaviour w in
  (credentials (snd r) = (VNull, None, None)
   ∧ isAuthenticated (snd r) = false
   ∧ socket (client (snd r)) = None)
  ∧ (∀ sid, socket (client w) = Some sid →
       socketConnected (client (snd r)) = false
       ∧ socket_connected (snd r) sid = false
       ∧ head (added w (snd r)) = Some (SocketDisconnect sid))
  ∧ (Forall (λ cb, behaviour cb signed_out_event = Returns) (registered w "authChange") →
       fst r = Normal tt
       ∧ invoked (added w (snd r))
         = invocations signed_out_event (registered w "authChange")).
Proof.
  intros r. unfold r. rewrite logout_unfold, broadcastEvent_registered.
  set (wf := forgotten w).
  assert (Hcred : credentials wf = (VNull, None, None)).
  { unfold credentials, wf, forgotten. simpl.
    rewrite lookup_delete_ne by (intros ?; discriminate).
    by rewrite !lookup_delete_eq. }
  destruct (socket (client w)) as [sid|] eqn:Hs.
  - rewrite (disconnectSocket_unfold wf sid) by exact Hs.
    cbn [snd]. set (wd := with_client _ _).
    change (registered wd "authChange") with (registered w "authChange").
    destruct (forEach_shape behaviour (registered w "authChange") signed_out_event)
      as (res & k & Hshape).
    split; [|split].
    + rewrite Hshape. repeat split.
      * exact Hcred.
    + intros sid' Hsid. simplify_eq. rewrite Hshape. cbn [snd].
      split; [reflexivity|]. split.
      * unfold socket_connected, wd. simpl. rewrite list_lookup_alter.
        rewrite decide_True by done.
        match goal with |- context [fmap _ ?x] => destruct x end; reflexivity.
      * rewrite (added_app_emit_all [SocketDisconnect sid']) by reflexivity.
        reflexivity.
    + intros Hret. rewrite forEach_all_return by exact Hret.
      split; [reflexivity|]. cbn [snd].
      rewrite (added_app_emit_all [SocketDisconnect sid]) by reflexivity.
      rewrite invoked_app, invoked_invocations. reflexivity.
  - assert (Hd : disconnectSocket wf = (Normal tt, wf)).
    { unfold disconnectSocket, bind, read. simpl. by rewrite Hs. }
    rewrite Hd. cbn [snd].
    change (registered wf "authChange") with (registered w "authChange").
    destruct (forEach_shape behaviour (registered w "authChange") signed_out_event)
      as (res & k & Hshape).
    split; [|split].
    + rewrite Hshape. repeat split; [exact Hcred | simpl; exact Hs].
    + intros sid' Hsid. discriminate.
    + intros Hret. rewrite forEach_all_return by exact Hret.
      split; [reflexivity|]. cbn [snd].
      rewrite (added_app_emit_all []) by (by rewrite app_nil_r).
      simpl. apply invoked_invocations.
Qed.

(** [login] once the POST has resolved with a body that has properties. *)
Lemma login_accepted username password rememberMe w response w1 tok user :
  post network behaviour "/login" (login_data username password) w
  = Some (Normal response, w1) →
  get_prop response "token" = inr tok →
  get_prop response "user" = inr user →
  login network behaviour username password rememberMe w
  = Some match broadcastEvent behaviour "authChange" (signed_in_event user)
                 (remembered tok rememberMe w1) with
         | (Normal _, w') => (Normal response, w')
         | (Throw e, w') => login_failed e w'
         end.
Proof.
  intros Hpost Htok Huser. unfold login_data in Hpost. unfold login. rewrite Hpost.
  f_equal. unfold try_catch, prop. rewrite Htok, Huser.
  unfold bind at 1, ret at 1. unfold bind at 1, modify at 1.
  unfold bind at 1, setItem at 1, modify at 1.
  unfold remembered, signed_in_event.
  destruct rememberMe; simpl.
  - unfold bind at 1, setItem, modify. unfold bind at 1, ret at 1.
    unfold bind.
    by destruct (broadcastEvent _ _ _ _) as [[[]|e] w'].
  - unfold bind at 1, ret at 1. unfold bind at 1, ret at 1.
    unfold bind.
    by destruct (broadcastEvent _ _ _ _) as [[[]|e] w'].
Qed.

Lemma remembered_facts tok rememberMe w :
  token (client (remembered tok rememberMe w)) = tok
  ∧ localStorage (remembered tok rememberMe w) !! "token" = Some (ToString tok)
  ∧ localStorage (remembered tok rememberMe w) !! "remember_me"
    = (if rememberMe then Some "true"%string else localStorage w !! "remember_me")
  ∧ trace (remembered tok rememberMe w) = trace w
  ∧ registered (remembered tok rememberMe w) "authChange" = registered w "authChange".
Proof.
  unfold remembered. destruct rememberMe; simpl.
  - rewrite lookup_insert_ne by (intros ?; discriminate).
    rewrite !lookup_insert_eq. done.
  - rewrite lookup_insert_eq.
    rewrite lookup_insert_ne by (intros ?; discriminate). done.
Qed.

(** X4: when the POST of [login] resolves with a body, [login] installs
    the body's [token] in the client and persists it as a string, sets the
    remember-me flag only when asked to (it never clears an older flag),
    tells each [authChange] listener [{authenticated: true, user}] once,
    and resolves with the body. *)
Theorem login_success username password rememberMe w response w1 tok user :
  post network behaviour "/login" (login_data username password) w
  = Some (Normal response, w1) →
  get_prop response "token" = inr tok →
  get_prop response "user" = inr user →
  Forall (λ cb, behaviour cb (signed_in_event user) = Returns) (registered w1 "authChange") →
  ∃ w',
    login network behaviour username password rememberMe w = Some (Normal response, w')
    ∧ token (client w') = tok
    ∧ localStorage w' !! "token" = Some (ToString tok)
    ∧ localStorage w' !! "remember_me"
      = (if rememberMe then Some "true"%string else localStorage w1 !! "remember_me")
    ∧ added w1 w' = invocations (signed_in_event user) (registered w1 "authChange").
Proof.
  intros Hpost Htok Huser Hret.
  rewrite (login_accepted _ _ _ _ _ _ _ _ Hpost Htok Huser).
  destruct (remembered_facts tok rememberMe w1) as (Ht & Hst & Hsr & Htr & Hreg).
  rewrite broadcastEvent_registered, Hreg, forEach_all_return by exact Hret.
  eexists. split; [reflexivity|]. simpl.
  repeat split; try done.
  unfold added. simpl. rewrite Htr. by rewrite drop_app_length.
Qed.

(** X5: when an [authChange] listener throws while [login] publishes its
    success, [login] rejects with that error, although the token is
    already installed and persisted: the caller sees a failed login on a
    client that is signed in. *)
Theorem login_listener_throws username password rememberMe w response w1 tok user e :
  post network behaviour "/login" (login_data username password) w
  = Some (Normal response, w1) →
  get_prop response "token" = inr tok →
  get_prop response "user" = inr user →
  fst (broadcastEvent behaviour "authChange" (signed_in_event user) w1) = Throw e →
  ∃ w',
    login network behaviour username password rememberMe w = Some (Throw e, w')
    ∧ token (client w') = tok
    ∧ localStorage w' !! "token" = Some (ToString tok)
    ∧ isAuthenticated w' = truthy tok.
Proof.
  intros Hpost Htok Huser Hthrow.
  rewrite (login_accepted _ _ _ _ _ _ _ _ Hpost Htok Huser).
  destruct (remembered_facts tok rememberMe w1) as (Ht & Hst & Hsr & Htr & Hreg).
  rewrite broadcastEvent_registered in Hthrow.
  rewrite broadcastEvent_registered, Hreg.
  destruct (forEach_shape behaviour (registered w1 "authChange") (signed_in_event user))
    as (res & k & Hshape).
  rewrite Hshape in Hthrow. rewrite Hshape. simpl in Hthrow. subst res.
  eexists. split; [reflexivity|]. simpl. unfold isAuthenticated. simpl.
  by rewrite Ht.
Qed.

(** X6: a login answered with a body that has no [token] leaves the
    client without a token, but persists the string ["undefined"]: a
    client constructed later from that storage (after a reload) holds a
    truthy token and reports itself authenticated. *)
Theorem login_without_token username password rememberMe w response w1 user :
  post network behaviour "/login" (login_data username password) w
  = Some (Normal response, w1) →
  get_prop response "token" = inr VUndefined →
  get_prop response "user" = inr user →
  ∃ r w',
    login network behaviour username password rememberMe w = Some (r, w')
    ∧ isAuthenticated w' = false
    ∧ localStorage w' !! "token" = Some "undefined"%string
    ∧ isAuthenticated (boot (localStorage w')) = true.
Proof.
  intros Hpost Htok Huser.
  rewrite (login_accepted _ _ _ _ _ _ _ _ Hpost Htok Huser).
  destruct (remembered_facts VUndefined rememberMe w1) as (Ht & Hst & Hsr & Htr & Hreg).
  rewrite broadcastEvent_registered.
  destruct (forEach_shape behaviour
              (registered (remembered VUndefined rememberMe w1) "authChange")
              (signed_in_event user)) as (res & k & Hshape).
  rewrite Hshape.
  assert (Hboot : ∀ w', localStorage w' !! "token" = Some "undefined"%string →
                        isAuthenticated (boot (localStorage w')) = true).
  { intros w' H. unfold isAuthenticated, boot, constructor, getItem. simpl.
    by rewrite H. }
  destruct res as [[]|e]; eexists _, _; (split; [reflexivity|]).
  - simpl. unfold isAuthenticated. simpl. rewrite Ht. repeat split; [done|].
    apply Hboot. simpl. exact Hst.
  - simpl. unfold isAuthenticated. simpl. rewrite Ht. repeat split; [done|].
    apply Hboot. simpl. exact Hst.
Qed.

End Sessions.

(** X4, witness: the operator logs in and asks to be remembered. *)
Lemma login_success_witness :
  ∃ w',
    login accepts_login well_behaved (VStr "operator") (VStr "secret") true signed_in
    = Some (Normal (VObj [("token", VStr "t0k3n"); ("user", VStr "operator")]), w')
    ∧ token (client w') = VStr "t0k3n"
    ∧ localStorage w' !! "token" = Some "t0k3n"%string
    ∧ localStorage w' !! "remember_me" = Some "true"%string.
Proof.
  destruct (login_success accepts_login well_behaved (VStr "operator") (VStr "secret") true
              signed_in (VObj [("token", VStr "t0k3n"); ("user", VStr "operator")])
              (snd (default (Normal VNull, signed_in)
                      (post accepts_login well_behaved "/login"
                         (login_data (VStr "operator") (VStr "secret")) signed_in)))
              (VStr "t0k3n") (VStr "operator"))
    as (w' & Hlogin & Htok & Hst & Hrem & _).
  - vm_compute. reflexivity.
  - reflexivity.
  - reflexivity.
  - repeat constructor.
  - exists w'. repeat split; assumption.
Defined.

(** X5, witness: the only [authChange] listener throws. *)
Lemma login_listener_throws_witness :
  ∃ w',
    login accepts_login always_throws (VStr "operator") (VStr "secret") false signed_in
    = Some (Throw (Error "render failed"), w')
    ∧ token (client w') = VStr "t0k3n"
    ∧ localStorage w' !! "token" = Some "t0k3n"%string
    ∧ isAuthenticated w' = true.
Proof.
  apply (login_listener_throws accepts_login always_throws (VStr "operator") (VStr "secret")
           false signed_in (VObj [("token", VStr "t0k3n"); ("user", VStr "operator")])
           (snd (default (Normal VNull, signed_in)
                   (post accepts_login always_throws "/login"
                      (login_data (VStr "operator") (VStr "secret")) signed_in)))
           (VStr "t0k3n") (VStr "operator")).
  - vm_compute. reflexivity.
  - reflexivity.
  - reflexivity.
  - reflexivity.
Defined.

(** X6, witness: the server forgets to send a token. *)
Lemma login_without_token_witness :
  ∃ r w',
    login forgets_token well_behaved (VStr "operator") (VStr "secret") false (boot ∅)
    = Some (r, w')
    ∧ isAuthenticated w' = false
    ∧ localStorage w' !! "token" = Some "undefined"%string
    ∧ isAuthenticated (boot (localStorage w')) = true.
Proof.
  apply (login_without_token forgets_token well_behaved (VStr "operator") (VStr "secret")
           false (boot ∅) (VObj [("user", VStr "operator")])
           (snd (default (Normal VNull, boot ∅)
                   (post forgets_token well_behaved "/login"
                      (login_data (VStr "operator") (VStr "secret")) (boot ∅))))
           (VStr "operator")).
  - vm_compute. reflexivity.
  - reflexivity.
  - reflexivity.
Defined.

(** ** What a request puts on the wire *)

Section Growth.

Variable φ : Effect → Prop.

Lemma grows_refl w : grows φ w w.
Proof. exists []. split; [by rewrite app_nil_r | constructor]. Qed.

Lemma grows_trans w1 w2 w3 : grows φ w1 w2 → grows φ w2 w3 → grows φ w1 w3.
Proof.
  intros (es1 & H1 & F1) (es2 & H2 & F2). exists (es1 ++ es2).
  split; [by rewrite H2, H1, app_assoc | by apply Forall_app].
Qed.

Lemma grows_ret {A} (a : A) : keeps (grows φ) (ret a).
Proof. intros w. apply grows_refl. Qed.

Lemma grows_throw {A} (e : JsError) : keeps (grows φ) (@throw A e).
Proof. intros w. apply grows_refl. Qed.

Lemma grows_read {A} (g : World → A) : keeps (grows φ) (read g).
Proof. intros w. apply grows_refl. Qed.

Lemma grows_modify (g : World → World) :
  (∀ w, trace (g w) = trace w) → keeps (grows φ) (modify g).
Proof.
  intros H w. exists []. simpl. split; [by rewrite H, app_nil_r | constructor].
Qed.

Lemma grows_effect e : φ e → keeps (grows φ) (effect e).
Proof. intros He w. exists [e]. split; [reflexivity | by repeat constructor]. Qed.

Lemma grows_bind {A C} (m : M A) (k : A → M C) :
  keeps (grows φ) m → (∀ a, keeps (grows φ) (k a)) → keeps (grows φ) (bind m k).
Proof.
  intros Hm Hk w. unfold bind. specialize (Hm w).
  destruct (m w) as [[a|e] w1]; simpl in *; [|done].
  eapply grows_trans; [exact Hm | apply Hk].
Qed.

Lemma grows_try_catch {A} (m : M A) (h : JsError → M A) :
  keeps (grows φ) m → (∀ e, keeps (grows φ) (h e)) → keeps (grows φ) (try_catch m h).
Proof.
  intros Hm Hh w. unfold try_catch. specialize (Hm w).
  destruct (m w) as [[a|e] w1]; simpl in *; [done|].
  eapply grows_trans; [exact Hm | apply Hh].
Qed.

Variable behaviour : Callback → JsValue → CallbackOutcome.

Hypothesis φ_invoke : ∀ cb data, φ (Invoke cb data).
Hypothesis φ_disconnect : ∀ sid, φ (SocketDisconnect sid).
Hypothesis φ_console_error : ∀ msg e, φ (ConsoleError msg e).
Hypothesis φ_delay : ∀ ms, φ (Delay ms).

Lemma forEach_grows l data : keeps (grows φ) (forEach behaviour l data).
Proof.
  induction l as [|cb l IH]; simpl; [apply grows_ret|].
  apply grows_bind; [|done]. unfold call.
  apply grows_bind; [by apply grows_effect|]. intros _.
  destruct (behaviour cb data); [apply grows_ret | apply grows_throw].
Qed.

Lemma broadcastEvent_grows event data :
  keeps (grows φ) (broadcastEvent behaviour event data).
Proof.
  unfold broadcastEvent. apply grows_bind; [apply grows_read|].
  intros [l|]; [apply forEach_grows | apply grows_ret].
Qed.

Lemma disconnectSocket_grows : keeps (grows φ) disconnectSocket.
Proof.
  unfold disconnectSocket. apply grows_bind; [apply grows_read|].
  intros [sid|]; [|apply grows_ret]. unfold socket_disconnect.
  apply grows_bind.
  { apply grows_bind; [by apply grows_modify | intros _]. by apply grows_effect. }
  intros _. apply grows_bind; [by apply grows_modify | intros _].
  by apply grows_modify.
Qed.

Lemma logout_grows : keeps (grows φ) (logout behaviour).
Proof.
  unfold logout, removeItem.
  apply grows_bind; [by apply grows_modify | intros _].
  apply grows_bind; [by apply grows_modify | intros _].
  apply grows_bind; [by apply grows_modify | intros _].
  apply grows_bind; [apply disconnectSocket_grows | intros _].
  apply broadcastEvent_grows.
Qed.

Lemma refreshAuthToken_grows : keeps (grows φ) (refreshAuthToken behaviour).
Proof.
  unfold refreshAuthToken. apply grows_try_catch.
  - apply grows_bind; [apply logout_grows|]. intros _. apply grows_ret.
  - intros e. apply grows_bind; [by apply grows_effect|]. intros _.
    apply grows_bind; [apply logout_grows|]. intros _. apply grows_ret.
Qed.

Lemma handle_error_grows options retryCount e :
  keeps (grows φ) (handle_error options retryCount e).
Proof.
  unfold handle_error, delay. apply grows_bind; [apply grows_read|]. intros c.
  case_decide; [|apply grows_throw].
  apply grows_bind; [by apply grows_effect|]. intros _. apply grows_ret.
Qed.

Lemma handle_response_grows options headers retryCount response :
  keeps (grows φ) (handle_response behaviour options headers retryCount response).
Proof.
  unfold handle_response, delay, json, prop.
  apply grows_bind; [apply grows_read|]. intros c.
  apply grows_bind.
  { case_decide; [|apply grows_ret].
    apply grows_bind; [apply refreshAuthToken_grows|].
    intros [|]; [|apply grows_ret].
    apply grows_bind; [apply grows_read|]. intros ?. apply grows_ret. }
  intros [next|]; [apply grows_ret|].
  apply grows_bind; [apply grows_read|]. intros c'.
  apply grows_bind.
  { repeat case_decide; try apply grows_ret.
    apply grows_bind; [by apply grows_effect|]. intros _. apply grows_ret. }
  intros [next|]; [apply grows_ret|].
  apply grows_bind.
  { destruct (json_body response); [apply grows_ret | apply grows_throw]. }
  intros data. destruct (negb (ok response)); [|apply grows_ret].
  apply grows_bind; [|intros ?; apply grows_throw].
  destruct (get_prop data "error"); [apply grows_throw | apply grows_ret].
Qed.

End Growth.

Section Wire.

Variable network : nat → FetchOutcome.
Variable behaviour : Callback → JsValue → CallbackOutcome.

Lemma not_fetch_count es : Forall not_fetch es → count_effects is_fetch es = 0.
Proof.
  induction 1 as [|e es He _ IH]; [done|].
  unfold count_effects in *. rewrite filter_cons.
  unfold not_fetch in He. rewrite decide_False by congruence. exact IH.
Qed.

Lemma not_fetch_same_request url options es :
  Forall not_fetch es → Forall (same_request url options) es.
Proof.
  intros H. eapply Forall_impl; [exact H|].
  intros e He. unfold not_fetch in He. by destruct e.
Qed.

Lemma count_effects_app p es1 es2 :
  count_effects p (es1 ++ es2) = count_effects p es1 + count_effects p es2.
Proof. unfold count_effects. by rewrite filter_app, length_app. Qed.

(** One activation: the call of [fetch], then effects that are no calls of
    [fetch]. *)
Lemma attempt_trace endpoint options retryCount w :
  ∃ es,
    trace (snd (attempt network behaviour endpoint options retryCount w))
    = trace w ++ Fetch (baseURL (client w) ++ endpoint)%string (sent_config w options) :: es
    ∧ Forall not_fetch es.
Proof.
  rewrite attempt_unfold.
  assert (Hg : grows not_fetch (fetched endpoint options w)
                 (snd match network (fetches w) with
                      | FetchFailed e =>
                          handle_error (sent_options w options) retryCount e
                            (fetched endpoint options w)
                      | FetchResponse r =>
                          try_catch
                            (handle_response behaviour (sent_options w options)
                               (sent_headers w options) retryCount r)
                            (handle_error (sent_options w options) retryCount)
                            (fetched endpoint options w)
                      end)).
  { destruct (network (fetches w)) as [e|r].
    - apply handle_error_grows. done.
    - apply grows_try_catch.
      + by apply handle_response_grows.
      + intros e. by apply handle_error_grows. }
  destruct Hg as (es & Htr & Hes). exists es. split; [|done].
  rewrite Htr. simpl. by rewrite <- app_assoc.
Qed.

Lemma handle_error_retry_options options retryCount e w o' w' :
  handle_error options retryCount e w = (Normal (Retry o'), w') → o' = options.
Proof.
  unfold handle_error, bind, read, delay, effect, modify, ret, throw. simpl.
  case_decide; simpl; intros Heq; by simplify_eq.
Qed.

Lemma handle_response_retry_options options headers retryCount r w o' w' :
  handle_response behaviour options headers retryCount r w = (Normal (Retry o'), w') →
  opt_method o' = opt_method options ∧ opt_body o' = opt_body options.
Proof.
  unfold handle_response, bind at 1, read at 1. unfold bind at 1.
  case_decide as H401.
  - unfold bind at 1.
    destruct (refreshAuthToken behaviour w) as [[[|]|e] w1]; simpl.
    + unfold bind, read, ret. simpl.
      intros Heq. simplify_eq. apply write_through_fields.
    + unfold bind, read, json, prop, delay, effect, modify, ret, throw. simpl.
      rewrite decide_False by (destruct H401; lia). simpl.
      destruct (json_body r) as [data|]; simpl; [|intros; discriminate].
      destruct (negb (ok r)); simpl; [|intros; discriminate].
      destruct (get_prop data "error"); simpl; intros; discriminate.
    + intros; discriminate.
  - unfold bind, read, json, prop, delay, effect, modify, ret, throw. simpl.
    repeat case_decide; simpl; try (intros Heq; by simplify_eq).
    + destruct (json_body r) as [data|]; simpl; [|intros; discriminate].
      destruct (negb (ok r)); simpl; [|intros; discriminate].
      destruct (get_prop data "error"); simpl; intros; discriminate.
    + destruct (json_body r) as [data|]; simpl; [|intros; discriminate].
      destruct (negb (ok r)); simpl; [|intros; discriminate].
      destruct (get_prop data "error"); simpl; intros; discriminate.
Qed.

(** The options handed to the recursive call name the same request. *)
Lemma attempt_retry_options endpoint options retryCount w o' w' :
  attempt network behaviour endpoint options retryCount w = (Normal (Retry o'), w') →
  opt_method o' = opt_method options ∧ opt_body o' = opt_body options.
Proof.
  rewrite attempt_unfold.
  destruct (write_through_fields options (sent_headers w options)) as [Hm Hb].
  fold (sent_options w options) in Hm, Hb.
  destruct (network (fetches w)) as [e|r].
  - intros H. apply handle_error_retry_options in H. subst o'. done.
  - unfold try_catch.
    destruct (handle_response _ _ _ _ _ _) as [[next|e] w1] eqn:E.
    + intros H. simplify_eq. apply handle_response_retry_options in E.
      destruct E as [-> ->]. done.
    + intros H. apply handle_error_retry_options in H. subst o'. done.
Qed.

Lemma same_request_ext url options options' e :
  opt_method options' = opt_method options →
  opt_body options' = opt_body options →
  same_request url options' e → same_request url options e.
Proof. intros Hm Hb. destruct e; simpl; try done. by rewrite Hm, Hb. Qed.

Lemma settings_baseURL w w' :
  settings w' = settings w → baseURL (client w') = baseURL (client w).
Proof. unfold settings. intros H. by simplify_eq. Qed.

Lemma request_fuel_wire endpoint fuel : ∀ options retryCount w r w',
  request_fuel network behaviour fuel endpoint options retryCount w = Some (r, w') →
  ∃ es,
    trace w' = trace w ++ es
    ∧ head es = Some (Fetch (baseURL (client w) ++ endpoint)%string (sent_config w options))
    ∧ Forall (same_request (baseURL (client w) ++ endpoint)%string options) es
    ∧ fetches w' = fetches w + count_effects is_fetch es.
Proof.
  induction fuel as [|fuel IH]; intros options retryCount w r w'; [done|].
  simpl.
  destruct (attempt_trace endpoint options retryCount w) as (es1 & Htr1 & Hes1).
  pose proof (attempt_fetches network behaviour endpoint options retryCount w) as Hfet.
  pose proof (attempt_settings network behaviour endpoint options retryCount w) as Hset.
  pose proof (attempt_retry_options endpoint options retryCount w) as Hopt.
  assert (Hone : ∀ w1, trace w1 = trace w ++
                   Fetch (baseURL (client w) ++ endpoint)%string (sent_config w options) :: es1 →
                 fetches w1 = S (fetches w) →
                 head (Fetch (baseURL (client w) ++ endpoint)%string
                         (sent_config w options) :: es1)
                 = Some (Fetch (baseURL (client w) ++ endpoint)%string (sent_config w options))
                 ∧ Forall (same_request (baseURL (client w) ++ endpoint)%string options)
                     (Fetch (baseURL (client w) ++ endpoint)%string
                        (sent_config w options) :: es1)
                 ∧ fetches w1 = fetches w + count_effects is_fetch
                     (Fetch (baseURL (client w) ++ endpoint)%string
                        (sent_config w options) :: es1)).
  { intros w1 _ Hf. split; [done|]. split.
    - constructor; [done | by apply not_fetch_same_request].
    - change (Fetch ?u ?c :: es1) with ([Fetch u c] ++ es1).
      rewrite count_effects_app, (not_fetch_count es1) by done.
      rewrite Hf. unfold count_effects. simpl. lia. }
  destruct (attempt network behaviour endpoint options retryCount w)
    as [[[data|options']|e] w1]; simpl in Htr1; intros E; simplify_eq.
  - eexists. split; [exact Htr1|]. apply (Hone w'); [done | exact (Hfet _ _ eq_refl)].
  - destruct (IH _ _ _ _ _ E) as (es2 & Htr2 & _ & Hsame2 & Hfet2).
    destruct (Hopt _ _ eq_refl) as [Hm Hb].
    destruct (Hone w1 Htr1 (Hfet _ _ eq_refl)) as (Hh & Hsame1 & Hfet1).
    exists ((Fetch (baseURL (client w) ++ endpoint)%string (sent_config w options) :: es1)
            ++ es2).
    split; [by rewrite Htr2, Htr1, <- app_assoc|].
    split; [done|]. split.
    + apply Forall_app. split; [done|].
      rewrite (settings_baseURL _ _ (Hset _ _ eq_refl)) in Hsame2.
      eapply Forall_impl; [exact Hsame2|].
      intros x. by apply same_request_ext.
    + rewrite count_effects_app. lia.
  - eexists. split; [exact Htr1|]. apply (Hone w'); [done | exact (Hfet _ _ eq_refl)].
Qed.

(** X7: every attempt of one call of [request] sends the same request:
    the URL is [baseURL] followed by the endpoint, and the method and the
    body are those of [options]; the first thing the call does is the
    first [fetch]; and the calls of [fetch] are all the attempts there
    are. *)
Theorem request_resends_same_request endpoint options w :
  ∃ r w' es,
    request network behaviour endpoint options w = Some (r, w')
    ∧ trace w' = trace w ++ es
    ∧ head es = Some (Fetch (baseURL (client w) ++ endpoint)%string (sent_config w options))
    ∧ Forall (same_request (baseURL (client w) ++ endpoint)%string options) es
    ∧ count_effects is_fetch es = fetches w' - fetches w.
Proof.
  unfold request.
  destruct (request_fuel_settles network behaviour endpoint
              (S (maxRetries (client w))) options 0 w)
    as (r & w' & Hreq & _); [lia|].
  destruct (request_fuel_wire _ _ _ _ _ _ _ Hreq) as (es & Htr & Hh & Hsame & Hfet).
  exists r, w', es. repeat split; try done. lia.
Qed.

Lemma request_first_fetch endpoint options w :
  ∃ r w' es,
    request network behaviour endpoint options w = Some (r, w')
    ∧ trace w' = trace w ++ es
    ∧ head es = Some (Fetch (baseURL (client w) ++ endpoint)%string (sent_config w options)).
Proof.
  unfold request.
  destruct (request_fuel_settles network behaviour endpoint
              (S (maxRetries (client w))) options 0 w)
    as (r & w' & Hreq & _); [lia|].
  destruct (request_fuel_wire _ _ _ _ _ _ _ Hreq) as (es & Htr & Hh & _).
  by exists r, w', es.
Qed.

(** X8: for a call that passes no headers of its own, the first attempt
    carries [Content-Type: application/json], and an [Authorization]
    header exactly when the client holds a truthy token, which it then
    presents as [Bearer <token>]. *)
Theorem authorization_follows_token endpoint options w :
  opt_headers options = None →
  ∃ r w' config es,
    request network behaviour endpoint options w = Some (r, w')
    ∧ trace w' = trace w ++ Fetch (baseURL (client w) ++ endpoint)%string config :: es
    ∧ cfg_headers config !! "Content-Type" = Some "application/json"%string
    ∧ cfg_headers config !! "Authorization"
      = (if isAuthenticated w
         then Some ("Bearer " ++ ToString (token (client w)))%string
         else None).
Proof.
  intros Hnone.
  destruct (request_first_fetch endpoint options w)
    as (r & w' & es & Hreq & Htr & Hh).
  destruct es as [|e es]; [discriminate|]. simpl in Hh. simplify_eq.
  exists r, w', (sent_config w options), es. split; [done|]. split; [done|].
  unfold sent_config, sent_headers, config_headers, isAuthenticated, authorize. simpl.
  rewrite Hnone. destruct (truthy (token (client w))).
  - rewrite lookup_insert_ne by (intros ?; discriminate).
    rewrite lookup_insert_eq. split; [|done]. apply lookup_singleton_eq.
  - split; [apply lookup_singleton_eq|].
    apply lookup_singleton_ne. intros ?; discriminate.
Qed.

End Wire.


(** X8, witness: the signed-in client asks for the statistics. *)
Lemma authorization_follows_token_witness :
  ∃ r w' config es,
    request rate_limited_once well_behaved "/stats" get_options signed_in = Some (r, w')
    ∧ trace w' = trace signed_in ++ Fetch (baseURL (client signed_in) ++ "/stats")%string config :: es
    ∧ cfg_headers config !! "Content-Type" = Some "application/json"%string
    ∧ cfg_headers config !! "Authorization"
      = (if isAuthenticated signed_in
         then Some ("Bearer " ++ ToString (token (client signed_in)))%string
         else None).
Proof.
  apply (authorization_follows_token rate_limited_once well_behaved "/stats" get_options
           signed_in).
  reflexivity.
Defined.

(** ** Headers passed by the caller *)

Section CallerHeaders.

Variable network : nat → FetchOutcome.
Variable behaviour : Callback → JsValue → CallbackOutcome.

(** A 401 within the budget: the client is signed out, the error of the
    response is thrown inside [try]. *)
Lemma handle_response_401 options headers retryCount r w :
  status r = 401%Z → retryCount < maxRetries (client w) →
  ∃ e w2,
    handle_response behaviour options headers retryCount r w = (Throw e, w2)
    ∧ credentials w2 = (VNull, None, None)
    ∧ settings w2 = settings w.
Proof.
  intros H401 Hlt.
  unfold handle_response, bind at 1, read at 1. unfold bind at 1.
  rewrite decide_True by done. unfold bind at 1.
  destruct (refreshAuthToken_never_refreshes behaviour w) as [Hne Hcred].
  assert (Hset : settings (snd (refreshAuthToken behaviour w)) = settings w).
  { by apply (refreshAuthToken_untouched behaviour). }
  destruct (refreshAuthToken behaviour w) as [[[|]|e] w2]; simpl in *.
  - done.
  - unfold bind, read, json, prop, delay, effect, modify, ret, throw. simpl.
    rewrite decide_False by lia. simpl.
    assert (Hok : ok r = false) by (unfold ok; rewrite H401; reflexivity).
    rewrite Hok. simpl.
    destruct (json_body r) as [data|]; simpl; [|by eexists _, _].
    destruct (get_prop data "error"); simpl; by eexists _, _.
  - by eexists _, _.
Qed.

Lemma attempt_401 endpoint options retryCount w r :
  network (fetches w) = FetchResponse r →
  status r = 401%Z → retryCount < maxRetries (client w) →
  ∃ w1,
    attempt network behaviour endpoint options retryCount w
    = (Normal (Retry (sent_options w options)), w1)
    ∧ credentials w1 = (VNull, None, None)
    ∧ settings w1 = settings w.
Proof.
  intros Hnet H401 Hlt. rewrite attempt_unfold, Hnet.
  destruct (handle_response_401 (sent_options w options) (sent_headers w options)
              retryCount r (fetched endpoint options w) H401 Hlt)
    as (e & w2 & Hresp & Hcred & Hset).
  unfold try_catch. rewrite Hresp.
  rewrite handle_error_retry by (by rewrite (settings_maxRetries _ _ Hset)).
  eexists. split; [reflexivity|]. split; [exact Hcred | exact Hset].
Qed.

(** X9: when the caller passes headers of its own, they replace the
    defaults instead of being merged with them: the request carries the
    caller's headers, plus [Authorization] when the client holds a token;
    [Content-Type: application/json] is sent only if the caller's headers
    say so. *)
Theorem caller_headers_replace_defaults endpoint options h w :
  opt_headers options = Some h →
  ∃ r w' config es,
    request network behaviour endpoint options w = Some (r, w')
    ∧ trace w' = trace w ++ Fetch (baseURL (client w) ++ endpoint)%string config :: es
    ∧ cfg_headers config
      = (if isAuthenticated w
         then <["Authorization" := ("Bearer " ++ ToString (token (client w)))%string]> h
         else h)
    ∧ cfg_headers config !! "Content-Type" = h !! "Content-Type".
Proof.
  intros Hsome.
  destruct (request_first_fetch network behaviour endpoint options w)
    as (r & w' & es & Hreq & Htr & Hh).
  destruct es as [|e es]; [discriminate|]. simpl in Hh. simplify_eq.
  exists r, w', (sent_config w options), es. split; [done|]. split; [done|].
  unfold sent_config, sent_headers, config_headers, isAuthenticated, authorize. simpl.
  rewrite Hsome. destruct (truthy (token (client w))); [|done].
  split; [done|]. by rewrite lookup_insert_ne by (intros ?; discriminate).
Qed.

(** X10: the [Authorization] header is written into the header object of
    the caller, and stays there.  A signed-in client sends a request with
    caller headers and is answered 401 within the budget: the client is
    signed out, and the next attempt, made without a token, still
    presents the old one. *)
Theorem authorization_outlives_logout endpoint options h retryCount w r :
  opt_headers options = Some h →
  isAuthenticated w = true →
  network (fetches w) = FetchResponse r →
  status r = 401%Z →
  retryCount < maxRetries (client w) →
  ∃ options1 w1 config es,
    attempt network behaviour endpoint options retryCount w = (Normal (Retry options1), w1)
    ∧ isAuthenticated w1 = false
    ∧ trace (snd (attempt network behaviour endpoint options1 (S retryCount) w1))
      = trace w1 ++ Fetch (baseURL (client w) ++ endpoint)%string config :: es
    ∧ cfg_headers config !! "Authorization"
      = Some ("Bearer " ++ ToString (token (client w)))%string.
Proof.
  intros Hsome Hauth Hnet H401 Hlt.
  destruct (attempt_401 endpoint options retryCount w r Hnet H401 Hlt)
    as (w1 & Hatt & Hcred & Hset).
  destruct (attempt_trace network behaviour endpoint (sent_options w options)
              (S retryCount) w1) as (es & Htr & _).
  assert (Htok : token (client w1) = VNull).
  { unfold credentials in Hcred. by simplify_eq. }
  exists (sent_options w options), w1, (sent_config w1 (sent_options w options)), es.
  split; [exact Hatt|]. split; [unfold isAuthenticated; by rewrite Htok|].
  split; [by rewrite Htr, (settings_baseURL _ _ Hset)|].
  unfold isAuthenticated in Hauth.
  unfold sent_config, sent_headers at 1. simpl. rewrite Htok. simpl.
  unfold config_headers, sent_options, write_through. rewrite Hsome. simpl.
  unfold sent_headers. rewrite Hauth. unfold authorize.
  by rewrite lookup_insert_eq.
Qed.

End CallerHeaders.


(** X9, witness: the signed-in client asks for the logs as CSV. *)
Lemma caller_headers_replace_defaults_witness :
  ∃ r w' config es,
    request always_not_found well_behaved "/logs" csv_options signed_in = Some (r, w')
    ∧ trace w' = trace signed_in ++ Fetch (baseURL (client signed_in) ++ "/logs")%string config :: es
    ∧ cfg_headers config
      = (if isAuthenticated signed_in
         then <["Authorization" := ("Bearer " ++ ToString (token (client signed_in)))%string]>
                {["Accept" := "text/csv"%string]}
         else {["Accept" := "text/csv"%string]})
    ∧ cfg_headers config !! "Content-Type"
      = ({["Accept" := "text/csv"%string]} : gmap string string) !! "Content-Type".
Proof.
  apply (caller_headers_replace_defaults always_not_found well_behaved "/logs" csv_options
           {["Accept" := "text/csv"%string]} signed_in).
  reflexivity.
Defined.

(** X10, witness: the session has expired when the signed-in client asks
    for the logs as CSV. *)
Lemma authorization_outlives_logout_witness :
  ∃ options1 w1 config es,
    attempt always_unauthorized well_behaved "/logs" csv_options 0 signed_in
    = (Normal (Retry options1), w1)
    ∧ isAuthenticated w1 = false
    ∧ trace (snd (attempt always_unauthorized well_behaved "/logs" options1 1 w1))
      = trace w1 ++ Fetch (baseURL (client signed_in) ++ "/logs")%string config :: es
    ∧ cfg_headers config !! "Authorization"
      = Some ("Bearer " ++ ToString (token (client signed_in)))%string.
Proof.
  apply (authorization_outlives_logout always_unauthorized well_behaved "/logs" csv_options
           {["Accept" := "text/csv"%string]} 0 signed_in
           (mkResponse 401 (Some (VObj [("error", VStr "Unauthorized")])))).
  - reflexivity.
  - reflexivity.
  - reflexivity.
  - reflexivity.
  - vm_compute. lia.
Defined.

(** ** Requests that fail *)

Section Failures.

Variable network : nat → FetchOutcome.
Variable behaviour : Callback → JsValue → CallbackOutcome.

Lemma plain_failure_thrown options headers retryCount r w e :
  plain_failure (FetchResponse r) = Some e →
  handle_response behaviour options headers retryCount r w = (Throw e, w).
Proof.
  unfold plain_failure. case_decide as Hst; [done|]. intros H.
  rewrite handle_response_other by (intros ?; apply Hst; auto).
  destruct (json_body r) as [data|]; [|by simplify_eq].
  destruct (ok r); [done|].
  destruct (get_prop data "error"); by simplify_eq.
Qed.

(** A failure within the budget is retried after [retryDelay]. *)
Lemma attempt_failure_retry endpoint options retryCount w e :
  plain_failure (network (fetches w)) = Some e →
  retryCount < maxRetries (client w) →
  attempt network behaviour endpoint options retryCount w
  = (Normal (Retry (sent_options w options)),
     emit_effect (Delay (retryDelay (client w))) (fetched endpoint options w)).
Proof.
  intros Hf Hlt. rewrite attempt_unfold.
  destruct (network (fetches w)) as [e0|r].
  - by rewrite handle_error_retry.
  - unfold try_catch. rewrite (plain_failure_thrown _ _ _ _ _ _ Hf).
    by rewrite handle_error_retry.
Qed.

(** A failure with the budget used up rejects the call. *)
Lemma attempt_failure_exhausted endpoint options retryCount w e :
  plain_failure (network (fetches w)) = Some e →
  ¬ retryCount < maxRetries (client w) →
  attempt network behaviour endpoint options retryCount w
  = (Throw e, fetched endpoint options w).
Proof.
  intros Hf Hge. rewrite attempt_unfold.
  destruct (network (fetches w)) as [e0|r].
  - simpl in Hf. simplify_eq. by rewrite handle_error_exhausted.
  - unfold try_catch. rewrite (plain_failure_thrown _ _ _ _ _ _ Hf).
    by rewrite handle_error_exhausted.
Qed.

(** [k] failures, and a last one with the budget used up. *)
Lemma failed_run endpoint e k : ∀ fuel options retryCount w,
  k < fuel →
  retryCount + k = maxRetries (client w) →
  (∀ i, i < k → is_Some (plain_failure (network (fetches w + i)))) →
  plain_failure (network (fetches w + k)) = Some e →
  ∃ w' es,
    request_fuel network behaviour fuel endpoint options retryCount w = Some (Throw e, w')
    ∧ trace w' = trace w ++ es
    ∧ delays es = replicate k (retryDelay (client w))
    ∧ fetches w' = fetches w + k + 1
    ∧ credentials w' = credentials w
    ∧ invoked es = [].
Proof.
  induction k as [|k IH]; intros fuel options retryCount w Hfuel Hbudget Hpre Hlast.
  - destruct fuel as [|fuel]; [lia|]. simpl.
    rewrite Nat.add_0_r in Hlast.
    rewrite (attempt_failure_exhausted _ _ _ _ _ Hlast) by lia.
    eexists _, _. split; [reflexivity|]. simpl.
    repeat split; [lia].
  - destruct fuel as [|fuel]; [lia|]. simpl.
    destruct (Hpre 0) as [m Hm]; [lia|]. rewrite Nat.add_0_r in Hm.
    rewrite (attempt_failure_retry _ _ _ _ _ Hm) by lia.
    set (w1 := emit_effect _ _).
    destruct (IH fuel (sent_options w options) (S retryCount) w1)
      as (w' & es & Hreq & Htr & Hdel & Hfet & Hcred & Hinv); try done; try lia.
    + simpl. lia.
    + intros i Hi. change (fetches w1) with (S (fetches w)).
      replace (S (fetches w) + i) with (fetches w + S i) by lia.
      apply Hpre. lia.
    + change (fetches w1) with (S (fetches w)).
      replace (S (fetches w) + k) with (fetches w + S k) by lia. done.
    + exists w', (Fetch (baseURL (client w) ++ endpoint)%string (sent_config w options)
                  :: Delay (retryDelay (client w)) :: es).
      split; [done|]. split; [|split; [|split; [|split]]].
      * rewrite Htr. simpl. by rewrite <- !app_assoc.
      * change (delays (?a :: ?b :: es)) with (retryDelay (client w) :: delays es).
        by rewrite Hdel.
      * rewrite Hfet. simpl. lia.
      * rewrite Hcred. reflexivity.
      * exact Hinv.
Qed.

(** The same for a whole call. *)
Lemma failed_request endpoint options w e :
  (∀ i, i < maxRetries (client w) → is_Some (plain_failure (network (fetches w + i)))) →
  plain_failure (network (fetches w + maxRetries (client w))) = Some e →
  ∃ w',
    request network behaviour endpoint options w = Some (Throw e, w')
    ∧ delays (added w w') = replicate (maxRetries (client w)) (retryDelay (client w))
    ∧ fetches w' = fetches w + maxRetries (client w) + 1
    ∧ credentials w' = credentials w
    ∧ invoked (added w w') = [].
Proof.
  intros Hpre Hlast. unfold request.
  destruct (failed_run endpoint e (maxRetries (client w)) (S (maxRetries (client w)))
              options 0 w) as (w' & es & Hreq & Htr & Hdel & Hfet & Hcred & Hinv);
    try done; try lia.
  exists w'. rewrite (added_app _ _ _ Htr). done.
Qed.

(** X11: with no network, [request] calls [fetch] [maxRetries + 1] times,
    waits [retryDelay] between two attempts (no backoff), and rejects with
    the error of the last attempt; it changes no credential and notifies
    no listener. *)
Theorem network_failure_retried endpoint options w errors :
  (∀ i, i ≤ maxRetries (client w) → network (fetches w + i) = FetchFailed (errors i)) →
  ∃ w',
    request network behaviour endpoint options w
    = Some (Throw (errors (maxRetries (client w))), w')
    ∧ delays (added w w') = replicate (maxRetries (client w)) (retryDelay (client w))
    ∧ fetches w' = fetches w + maxRetries (client w) + 1
    ∧ credentials w' = credentials w
    ∧ invoked (added w w') = [].
Proof.
  intros Hnet. apply failed_request.
  - intros i Hi. rewrite Hnet by lia. by eexists.
  - by rewrite Hnet.
Qed.

(** X12: a success without a JSON body (a 204, say) does not resolve the
    call: reading the body throws inside [try], so the request, which the
    server has accepted, is sent again, [maxRetries + 1] times in all, and
    the call rejects with the [SyntaxError] of the last reading. *)
Theorem success_without_body_rejects endpoint options w :
  (∀ i, i ≤ maxRetries (client w) →
        ∃ r, network (fetches w + i) = FetchResponse r ∧ ok r = true ∧ json_body r = None) →
  ∃ msg w',
    request network behaviour endpoint options w = Some (Throw (SyntaxError msg), w')
    ∧ fetches w' = fetches w + maxRetries (client w) + 1
    ∧ delays (added w w') = replicate (maxRetries (client w)) (retryDelay (client w)).
Proof.
  intros Hnet.
  assert (Hf : ∀ i, i ≤ maxRetries (client w) →
            plain_failure (network (fetches w + i))
            = Some (SyntaxError "Unexpected token in JSON")).
  { intros i Hi. destruct (Hnet i Hi) as (r & -> & Hok & Hbody).
    unfold plain_failure. destruct (ok_status r Hok) as [H401 H429].
    rewrite decide_False by (intros [?|?]; done). by rewrite Hbody. }
  destruct (failed_request endpoint options w (SyntaxError "Unexpected token in JSON"))
    as (w' & Hreq & Hdel & Hfet & _).
  - intros i Hi. rewrite Hf by lia. by eexists.
  - apply Hf. lia.
  - by exists "Unexpected token in JSON"%string, w'.
Qed.

(** X13: a refusal (not 2xx, 401 or 429) whose JSON body has no [error]
    field, or a falsy one, rejects with the message [Request failed],
    after the retries. *)
Theorem refusal_without_message endpoint options w :
  (∀ i, i ≤ maxRetries (client w) →
        ∃ r data err,
          network (fetches w + i) = FetchResponse r ∧ ok r = false
          ∧ status r ≠ 401%Z ∧ status r ≠ 429%Z
          ∧ json_body r = Some data ∧ get_prop data "error" = inr err
          ∧ truthy err = false) →
  ∃ w',
    request network behaviour endpoint options w = Some (Throw (Error "Request failed"), w')
    ∧ fetches w' = fetches w + maxRetries (client w) + 1
    ∧ delays (added w w') = replicate (maxRetries (client w)) (retryDelay (client w)).
Proof.
  intros Hnet.
  assert (Hf : ∀ i, i ≤ maxRetries (client w) →
            plain_failure (network (fetches w + i)) = Some (Error "Request failed")).
  { intros i Hi.
    destruct (Hnet i Hi) as (r & data & err & -> & Hok & H401 & H429 & Hbody & Herr & Hfalsy).
    unfold plain_failure.
    rewrite decide_False by (intros [?|?]; done).
    rewrite Hbody, Hok, Herr. unfold or_else. by rewrite Hfalsy. }
  destruct (failed_request endpoint options w (Error "Request failed"))
    as (w' & Hreq & Hdel & Hfet & _).
  - intros i Hi. rewrite Hf by lia. by eexists.
  - apply Hf. lia.
  - by exists w'.
Qed.

End Failures.


(** X11, witness: the page asks for the statistics while offline. *)
Lemma network_failure_retried_witness :
  ∃ w',
    request offline well_behaved "/stats" get_options (boot ∅)
    = Some (Throw (NetworkError "Failed to fetch"), w')
    ∧ delays (added (boot ∅) w')
      = replicate (maxRetries (client (boot ∅))) (retryDelay (client (boot ∅)))
    ∧ fetches w' = fetches (boot ∅) + maxRetries (client (boot ∅)) + 1
    ∧ credentials w' = credentials (boot ∅)
    ∧ invoked (added (boot ∅) w') = [].
Proof.
  apply (network_failure_retried offline well_behaved "/stats" get_options (boot ∅)
           (λ _, NetworkError "Failed to fetch")).
  intros i _. reflexivity.
Defined.

(** X12, witness: every answer is 204 No Content. *)
Lemma success_without_body_rejects_witness :
  ∃ msg w',
    request no_content well_behaved "/settings" get_options (boot ∅)
    = Some (Throw (SyntaxError msg), w')
    ∧ fetches w' = fetches (boot ∅) + maxRetries (client (boot ∅)) + 1
    ∧ delays (added (boot ∅) w')
      = replicate (maxRetries (client (boot ∅))) (retryDelay (client (boot ∅))).
Proof.
  apply (success_without_body_rejects no_content well_behaved "/settings" get_options
           (boot ∅)).
  intros i _. exists (mkResponse 204 None). split; [reflexivity|]. split; reflexivity.
Defined.

(** X13, witness: every answer is 500 with an empty JSON object. *)
Lemma refusal_without_message_witness :
  ∃ w',
    request fails_silently well_behaved "/stats" get_options (boot ∅)
    = Some (Throw (Error "Request failed"), w')
    ∧ fetches w' = fetches (boot ∅) + maxRetries (client (boot ∅)) + 1
    ∧ delays (added (boot ∅) w')
      = replicate (maxRetries (client (boot ∅))) (retryDelay (client (boot ∅))).
Proof.
  apply (refusal_without_message fails_silently well_behaved "/stats" get_options (boot ∅)).
  intros i _. exists (mkResponse 500 (Some (VObj []))), (VObj []), VUndefined.
  split; [reflexivity|]. split; [reflexivity|].
  split; [discriminate|]. split; [discriminate|].
  split; [reflexivity|]. split; reflexivity.
Defined.

(** ** Rate limiting without end *)

Section Limited.

Variable network : nat → FetchOutcome.
Variable behaviour : Callback → JsValue → CallbackOutcome.

Lemma total_app ds1 ds2 : total (ds1 ++ ds2) = (total ds1 + total ds2)%Z.
Proof. unfold total. induction ds1 as [|d ds1 IH]; simpl; [done|]. rewrite IH. lia. Qed.

Lemma backoff_S d k : backoff d (S k) = backoff d k ++ [(d * 2 ^ Z.of_nat k)%Z].
Proof. unfold backoff. by rewrite seq_S, map_app. Qed.

(** The waits add up to [retryDelay * (2^k - 1)]. *)
Lemma total_backoff d k : total (backoff d k) = (d * (2 ^ Z.of_nat k - 1))%Z.
Proof.
  induction k as [|k IH]; [unfold total, backoff; simpl; lia|].
  rewrite backoff_S, total_app, IH. unfold total at 1. simpl.
  rewrite Nat2Z.inj_succ, Z.pow_succ_r by lia. lia.
Qed.

(** A 429 with the budget used up is treated as any refusal. *)
Lemma attempt_429_exhausted endpoint options retryCount w r data err :
  network (fetches w) = FetchResponse r →
  status r = 429%Z → ¬ retryCount < maxRetries (client w) →
  json_body r = Some data → get_prop data "error" = inr err →
  attempt network behaviour endpoint options retryCount w
  = (Throw (Error (ToString (or_else err (VStr "Request failed")))),
     fetched endpoint options w).
Proof.
  intros Hnet H429 Hge Hbody Herr. rewrite attempt_unfold, Hnet.
  assert (Hok : ok r = false) by (unfold ok; rewrite H429; reflexivity).
  assert (Hresp : ∀ w0, maxRetries (client w0) = maxRetries (client w) →
            handle_response behaviour (sent_options w options) (sent_headers w options)
              retryCount r w0
            = (Throw (Error (ToString (or_else err (VStr "Request failed")))), w0)).
  { intros w0 Hmax.
    unfold handle_response, bind, read, json, prop, delay, effect, modify, ret, throw. simpl.
    rewrite decide_False by (intros [? _]; lia). simpl.
    rewrite (decide_True (P := status r = 429%Z)) by done.
    rewrite decide_False by (by rewrite Hmax). simpl.
    by rewrite Hbody, Hok, Herr. }
  unfold try_catch. rewrite Hresp by done.
  by rewrite handle_error_exhausted.
Qed.

Lemma limited_run endpoint r data err k : ∀ fuel options retryCount w,
  k < fuel →
  retryCount + k = maxRetries (client w) →
  (∀ i, i < k → status_at network (fetches w + i) = Some 429%Z) →
  network (fetches w + k) = FetchResponse r →
  status r = 429%Z → json_body r = Some data → get_prop data "error" = inr err →
  ∃ w' es,
    request_fuel network behaviour fuel endpoint options retryCount w
    = Some (Throw (Error (ToString (or_else err (VStr "Request failed")))), w')
    ∧ trace w' = trace w ++ es
    ∧ delays es = map (λ i, retryDelay (client w) * 2 ^ Z.of_nat (retryCount + i))%Z (seq 0 k)
    ∧ fetches w' = fetches w + k + 1
    ∧ credentials w' = credentials w
    ∧ invoked es = [].
Proof.
  induction k as [|k IH];
    intros fuel options retryCount w Hfuel Hbudget H429 Hnet Hst Hbody Herr.
  - destruct fuel as [|fuel]; [lia|]. simpl.
    rewrite Nat.add_0_r in Hnet.
    rewrite (attempt_429_exhausted _ _ _ _ _ _ _ Hnet Hst) by (done || lia).
    eexists _, _. split; [reflexivity|]. simpl.
    repeat split; [lia].
  - destruct fuel as [|fuel]; [lia|]. simpl.
    assert (H0 : status_at network (fetches w + 0) = Some 429%Z) by (apply H429; lia).
    rewrite Nat.add_0_r in H0. unfold status_at in H0.
    destruct (network (fetches w)) as [|r0] eqn:Hnet0; [done|].
    assert (Hst0 : status r0 = 429%Z) by congruence.
    assert (Hlt : retryCount < maxRetries (client w)) by lia.
    rewrite (attempt_429 _ _ _ _ _ _ r0 Hnet0 Hst0 Hlt).
    set (w1 := emit_effect _ _).
    destruct (IH fuel (sent_options w options) (S retryCount) w1)
      as (w' & es & Hreq & Htr & Hdel & Hfet & Hcred & Hinv); try done; try lia.
    + simpl. lia.
    + intros i Hi. change (fetches w1) with (S (fetches w)).
      replace (S (fetches w) + i) with (fetches w + S i) by lia.
      apply H429. lia.
    + change (fetches w1) with (S (fetches w)).
      replace (S (fetches w) + k) with (fetches w + S k) by lia. done.
    + exists w', (Fetch (baseURL (client w) ++ endpoint)%string (sent_config w options)
                  :: Delay (retryDelay (client w) * 2 ^ Z.of_nat retryCount) :: es).
      split; [done|]. split; [|split; [|split; [|split]]].
      * rewrite Htr. simpl. by rewrite <- !app_assoc.
      * change (delays (?a :: ?b :: es))
          with ((retryDelay (client w) * 2 ^ Z.of_nat retryCount)%Z :: delays es).
        rewrite Hdel. simpl. rewrite Nat.add_0_r. f_equal.
        rewrite <- seq_shift, map_map. apply map_ext. intros i.
        simpl. by replace (retryCount + S i) with (S (retryCount + i)) by lia.
      * rewrite Hfet. simpl. lia.
      * rewrite Hcred. reflexivity.
      * exact Hinv.
Qed.

(** X14: when every attempt is answered 429, [request] backs off
    exponentially, [retryDelay * 2^i] before retry [i + 1], and then gives
    up: the last 429 is read as any refusal and the call rejects with the
    message of its body.  The waits add up to
    [retryDelay * (2^maxRetries - 1)]; no credential is touched and no
    listener notified. *)
Theorem rate_limited_until_budget endpoint options w r data err :
  (∀ i, i < maxRetries (client w) → status_at network (fetches w + i) = Some 429%Z) →
  network (fetches w + maxRetries (client w)) = FetchResponse r →
  status r = 429%Z → json_body r = Some data → get_prop data "error" = inr err →
  ∃ w',
    request network behaviour endpoint options w
    = Some (Throw (Error (ToString (or_else err (VStr "Request failed")))), w')
    ∧ fetches w' = fetches w + maxRetries (client w) + 1
    ∧ delays (added w w') = backoff (retryDelay (client w)) (maxRetries (client w))
    ∧ total (delays (added w w'))
      = (retryDelay (client w) * (2 ^ Z.of_nat (maxRetries (client w)) - 1))%Z
    ∧ credentials w' = credentials w
    ∧ invoked (added w w') = [].
Proof.
  intros H429 Hnet Hst Hbody Herr. unfold request.
  destruct (limited_run endpoint r data err (maxRetries (client w))
              (S (maxRetries (client w))) options 0 w)
    as (w' & es & Hreq & Htr & Hdel & Hfet & Hcred & Hinv); try done; try lia.
  exists w'. rewrite (added_app _ _ _ Htr). split; [exact Hreq|].
  assert (Hb : delays es = backoff (retryDelay (client w)) (maxRetries (client w))).
  { rewrite Hdel. reflexivity. }
  rewrite Hb, total_backoff. done.
Qed.

End Limited.

(** X14, witness: the server limits every request of a fresh client; the
    waits add up to seven seconds. *)
Lemma rate_limited_until_budget_witness :
  ∃ w',
    request always_limited well_behaved "/stats" get_options (boot ∅)
    = Some (Throw (Error (ToString (or_else (VStr "Too many requests")
                                      (VStr "Request failed")))), w')
    ∧ fetches w' = fetches (boot ∅) + maxRetries (client (boot ∅)) + 1
    ∧ delays (added (boot ∅) w')
      = backoff (retryDelay (client (boot ∅))) (maxRetries (client (boot ∅)))
    ∧ total (delays (added (boot ∅) w'))
      = (retryDelay (client (boot ∅)) * (2 ^ Z.of_nat (maxRetries (client (boot ∅))) - 1))%Z
    ∧ credentials w' = credentials (boot ∅)
    ∧ invoked (added (boot ∅) w') = [].
Proof.
  apply (rate_limited_until_budget always_limited well_behaved "/stats" get_options (boot ∅)
           (mkResponse 429 (Some (VObj [("error", VStr "Too many requests")])))
           (VObj [("error", VStr "Too many requests")]) (VStr "Too many requests")).
  - intros i _. reflexivity.
  - reflexivity.
  - reflexivity.
  - reflexivity.
  - reflexivity.
Defined.


(** ** What every method keeps *)

Section Invariants.

(** A relation between the worlds before and after that holds across the
    elementary steps, and across the effects [φ] allows, holds across
    every method that has no other effect. *)
Variable R : World → World → Prop.
Variable φ : Effect → Prop.
Hypothesis R_refl : ∀ w, R w w.
Hypothesis R_trans : ∀ w1 w2 w3, R w1 w2 → R w2 w3 → R w1 w3.

Lemma inv_ret {A} (a : A) : keeps R (ret a).
Proof. intros w. apply R_refl. Qed.

Lemma inv_throw {A} e : keeps R (throw (A := A) e).
Proof. intros w. apply R_refl. Qed.

Lemma inv_read {A} (g : World → A) : keeps R (read g).
Proof. intros w. apply R_refl. Qed.

Lemma inv_modify (g : World → World) : (∀ w, R w (g w)) → keeps R (modify g).
Proof. intros H w. apply H. Qed.

Lemma inv_bind {A C} (m : M A) (k : A → M C) :
  keeps R m → (∀ a, keeps R (k a)) → keeps R (bind m k).
Proof.
  intros Hm Hk w. unfold bind. specialize (Hm w).
  destruct (m w) as [[a|e] w1]; simpl in *; [|done].
  eapply R_trans; [exact Hm | apply Hk].
Qed.

Lemma inv_try_catch {A} (m : M A) (h : JsError → M A) :
  keeps R m → (∀ e, keeps R (h e)) → keeps R (try_catch m h).
Proof.
  intros Hm Hh w. unfold try_catch. specialize (Hm w).
  destruct (m w) as [[a|e] w1]; simpl in *; [done|].
  eapply R_trans; [exact Hm | apply Hh].
Qed.

Lemma inv_when b (m : M unit) : keeps R m → keeps R (when b m).
Proof. intros H. destruct b; [exact H | apply inv_ret]. Qed.

Hypothesis R_effect : ∀ e w, φ e → R w (emit_effect e w).
Hypothesis R_on : ∀ event cb w, R w (snd (on event cb w)).
Hypothesis R_off : ∀ event cb w, R w (snd (off event cb w)).
Hypothesis R_token : ∀ v w, R w (with_client (set_token v) w).
Hypothesis R_socket : ∀ o w, R w (with_client (set_socket o) w).
Hypothesis R_socketConnected : ∀ b w, R w (with_client (set_socketConnected b) w).
Hypothesis R_reconnectAttempts : ∀ n w, R w (with_client (set_reconnectAttempts n) w).
Hypothesis R_storage : ∀ m w, R w (set_localStorage m w).
Hypothesis R_timeouts : ∀ l w, R w (set_timeouts l w).
Hypothesis R_fetches : ∀ n w, R w (set_fetches n w).
Hypothesis R_connected :
  ∀ b sid w, R w (set_sockets (alter (set_connected b) sid (sockets w)) w).

Variable network : nat → FetchOutcome.
Variable behaviour : Callback → JsValue → CallbackOutcome.

Hypothesis φ_invoke : ∀ cb data, φ (Invoke cb data).
Hypothesis φ_disconnect : ∀ sid, φ (SocketDisconnect sid).
Hypothesis φ_console_error : ∀ msg e, φ (ConsoleError msg e).
Hypothesis φ_delay : ∀ ms, φ (Delay ms).
Hypothesis φ_fetch : ∀ url config, φ (Fetch url config).
Hypothesis φ_log : ∀ msg, φ (ConsoleLog msg).
Hypothesis φ_timeout : ∀ ms a, φ (SetTimeout ms a).
Hypothesis φ_subscribe :
  ∀ sid, φ (SocketEmit sid "subscribe" (VObj [("room", VStr "dashboard")])).
Hypothesis φ_heartbeat :
  ∀ sid now, φ (SocketEmit sid "heartbeat" (VObj [("timestamp", VNum now)])).

Lemma inv_effect e : φ e → keeps R (effect e).
Proof. intros He. apply inv_modify. intros w. by apply R_effect. Qed.

Lemma on_inv event cb : keeps R (on event cb).
Proof. intros w. apply R_on. Qed.

Lemma off_inv event cb : keeps R (off event cb).
Proof. intros w. apply R_off. Qed.

Lemma forEach_inv l data : keeps R (forEach behaviour l data).
Proof.
  induction l as [|cb l IH]; simpl; [apply inv_ret|].
  apply inv_bind; [|done]. unfold call.
  apply inv_bind; [by apply inv_effect|]. intros _.
  destruct (behaviour cb data); [apply inv_ret | apply inv_throw].
Qed.

Lemma broadcastEvent_inv event data : keeps R (broadcastEvent behaviour event data).
Proof.
  unfold broadcastEvent. apply inv_bind; [apply inv_read|].
  intros [l|]; [apply forEach_inv | apply inv_ret].
Qed.

Lemma disconnectSocket_inv : keeps R disconnectSocket.
Proof.
  unfold disconnectSocket. apply inv_bind; [apply inv_read|].
  intros [sid|]; [|apply inv_ret]. unfold socket_disconnect.
  apply inv_bind.
  { apply inv_bind; [|intros _; by apply inv_effect].
    apply inv_modify. intros w. apply R_connected. }
  intros _. apply inv_bind; [|intros _]; apply inv_modify; intros w;
    [apply R_socket | apply R_socketConnected].
Qed.

Lemma logout_inv : keeps R (logout behaviour).
Proof.
  unfold logout, removeItem.
  apply inv_bind; [apply inv_modify; intros w; apply R_token | intros _].
  apply inv_bind; [apply inv_modify; intros w; apply R_storage | intros _].
  apply inv_bind; [apply inv_modify; intros w; apply R_storage | intros _].
  apply inv_bind; [apply disconnectSocket_inv | intros _].
  apply broadcastEvent_inv.
Qed.

Lemma refreshAuthToken_inv : keeps R (refreshAuthToken behaviour).
Proof.
  unfold refreshAuthToken. apply inv_try_catch.
  - apply inv_bind; [apply logout_inv|]. intros _. apply inv_ret.
  - intros e. apply inv_bind; [by apply inv_effect|]. intros _.
    apply inv_bind; [apply logout_inv|]. intros _. apply inv_ret.
Qed.

Lemma handle_error_inv options retryCount e :
  keeps R (handle_error options retryCount e).
Proof.
  unfold handle_error, delay. apply inv_bind; [apply inv_read|]. intros c.
  case_decide; [|apply inv_throw].
  apply inv_bind; [by apply inv_effect|]. intros _. apply inv_ret.
Qed.

Lemma handle_response_inv options headers retryCount response :
  keeps R (handle_response behaviour options headers retryCount response).
Proof.
  unfold handle_response, delay, json, prop.
  apply inv_bind; [apply inv_read|]. intros c.
  apply inv_bind.
  { case_decide; [|apply inv_ret].
    apply inv_bind; [apply refreshAuthToken_inv|].
    intros [|]; [|apply inv_ret].
    apply inv_bind; [apply inv_read|]. intros ?. apply inv_ret. }
  intros [next|]; [apply inv_ret|].
  apply inv_bind; [apply inv_read|]. intros c'.
  apply inv_bind.
  { repeat case_decide; try apply inv_ret.
    apply inv_bind; [by apply inv_effect|]. intros _. apply inv_ret. }
  intros [next|]; [apply inv_ret|].
  apply inv_bind.
  { destruct (json_body response); [apply inv_ret | apply inv_throw]. }
  intros data. destruct (negb (ok response)); [|apply inv_ret].
  apply inv_bind; [|intros ?; apply inv_throw].
  destruct (get_prop data "error"); [apply inv_throw | apply inv_ret].
Qed.

Lemma attempt_inv endpoint options retryCount :
  keeps R (attempt network behaviour endpoint options retryCount).
Proof.
  intros w. rewrite attempt_unfold.
  eapply R_trans; [eapply R_trans; [apply R_effect, φ_fetch | apply R_fetches]|].
  fold (fetched endpoint options w).
  destruct (network (fetches w)) as [e|r].
  - apply handle_error_inv.
  - apply inv_try_catch; [apply handle_response_inv|].
    intros e. apply handle_error_inv.
Qed.

Lemma request_fuel_inv endpoint fuel : ∀ options retryCount w r w',
  request_fuel network behaviour fuel endpoint options retryCount w = Some (r, w') →
  R w w'.
Proof.
  induction fuel as [|fuel IH]; intros options retryCount w r w'; [done|]. simpl.
  pose proof (attempt_inv endpoint options retryCount w) as Ha.
  destruct (attempt network behaviour endpoint options retryCount w)
    as [[[data|options']|e] w1]; simpl in Ha; intros E.
  - by simplify_eq.
  - eapply R_trans; [exact Ha | by eapply IH].
  - by simplify_eq.
Qed.

Lemma login_inv username password rememberMe w r w' :
  login network behaviour username password rememberMe w = Some (r, w') → R w w'.
Proof.
  unfold login, post, request.
  destruct (request_fuel _ _ _ _ _ _ _) as [[[response|error] w1]|] eqn:E; [| |done].
  - apply request_fuel_inv in E. intros H. simplify_eq.
    eapply R_trans; [exact E|].
    match type of H with ?m w1 = _ =>
      assert (Hk : keeps R m); [|specialize (Hk w1); by rewrite H in Hk] end.
    apply inv_try_catch.
    + unfold prop, setItem.
      apply inv_bind.
      { destruct (get_prop response "token"); [apply inv_throw | apply inv_ret]. }
      intros tok.
      apply inv_bind; [apply inv_modify; intros ?; apply R_token | intros _].
      apply inv_bind; [apply inv_modify; intros ?; apply R_storage | intros _].
      apply inv_bind.
      { apply inv_when. apply inv_modify. intros ?. apply R_storage. }
      intros _. apply inv_bind.
      { destruct (get_prop response "user"); [apply inv_throw | apply inv_ret]. }
      intros user. apply inv_bind; [apply broadcastEvent_inv|]. intros _. apply inv_ret.
    + intros e. unfold login_failed.
      apply inv_bind; [by apply inv_effect|]. intros _. apply inv_throw.
  - apply request_fuel_inv in E. intros H. simplify_eq.
    eapply R_trans; [exact E|]. unfold login_failed.
    match type of H with ?m w1 = _ =>
      assert (Hk : keeps R m); [|specialize (Hk w1); by rewrite H in Hk] end.
    apply inv_bind; [by apply inv_effect|]. intros _. apply inv_throw.
Qed.

Lemma emit_on_current_inv event data :
  (∀ sid, φ (SocketEmit sid event data)) → keeps R (emit_on_current event data).
Proof.
  intros He. unfold emit_on_current. apply inv_bind; [apply inv_read|].
  intros [sid|]; [by apply inv_effect | apply inv_throw].
Qed.

Lemma on_connect_inv : keeps R (on_connect behaviour).
Proof.
  unfold on_connect.
  apply inv_bind; [by apply inv_effect | intros _].
  apply inv_bind; [apply inv_modify; intros ?; apply R_socketConnected | intros _].
  apply inv_bind; [apply inv_modify; intros ?; apply R_reconnectAttempts | intros _].
  apply inv_bind; [apply broadcastEvent_inv | intros _].
  by apply emit_on_current_inv.
Qed.

Lemma on_disconnect_inv : keeps R (on_disconnect behaviour).
Proof.
  unfold on_disconnect.
  apply inv_bind; [by apply inv_effect | intros _].
  apply inv_bind; [apply inv_modify; intros ?; apply R_socketConnected | intros _].
  apply inv_bind; [apply broadcastEvent_inv | intros _].
  apply inv_bind; [apply inv_read | intros c].
  case_decide; [|apply inv_ret].
  apply inv_bind; [apply inv_modify; intros ?; apply R_reconnectAttempts | intros _].
  apply inv_bind; [apply inv_modify; intros ?; apply R_timeouts | intros _].
  by apply inv_effect.
Qed.

Lemma heartbeat_inv now : keeps R (heartbeat now).
Proof.
  unfold heartbeat. apply inv_bind; [apply inv_read|].
  intros [|]; [by apply emit_on_current_inv | apply inv_ret].
Qed.

Hypothesis R_connect : ∀ w, R w (snd (connectSocket w)).

Lemma deliver_inv ev : keeps R (deliver behaviour ev).
Proof.
  destruct ev as [sid|sid|sid event data|i|i now]; unfold deliver.
  - apply inv_bind; [apply inv_read | intros h].
    apply inv_bind; [apply inv_modify; intros ?; apply R_connected | intros _].
    apply inv_when, on_connect_inv.
  - apply inv_bind; [apply inv_read | intros h].
    apply inv_bind; [apply inv_modify; intros ?; apply R_connected | intros _].
    apply inv_when, on_disconnect_inv.
  - apply inv_bind; [apply inv_read | intros h].
    destruct (forwarded event); [|apply inv_ret].
    apply inv_when, broadcastEvent_inv.
  - apply inv_bind; [apply inv_read | intros [[ms a]|]]; [|apply inv_ret].
    apply inv_bind; [apply inv_modify; intros ?; apply R_timeouts | intros _].
    destruct a; [exact R_connect | apply heartbeat_inv].
  - apply inv_bind; [apply inv_read | intros [[ms a]|]]; [|apply inv_ret].
    destruct a; [exact R_connect | apply heartbeat_inv].
Qed.

Lemma deliver_all_inv evs : ∀ w, R w (deliver_all behaviour evs w).
Proof.
  induction evs as [|ev evs IH]; intros w; simpl; [apply R_refl|].
  eapply R_trans; [apply deliver_inv | apply IH].
Qed.

End Invariants.


(** ** The channel over time *)

Section ChannelHistory.

Variable network : nat → FetchOutcome.
Variable behaviour : Callback → JsValue → CallbackOutcome.

Lemma auth_alter (g : SocketObj → SocketObj) i (l : list SocketObj) :
  (∀ so, auth (g so) = auth so) → map auth (alter g i l) = map auth l.
Proof.
  intros Hg. revert i. induction l as [|so l IH]; intros [|i]; simpl; [done..| |].
  - by rewrite Hg.
  - f_equal. apply IH.
Qed.

Lemma channel_connected b sid w :
  channel (set_sockets (alter (set_connected b) sid (sockets w)) w) = channel w.
Proof. unfold channel. simpl. by rewrite auth_alter. Qed.

Lemma channel_grows_refl w : channel_grows w w.
Proof. exists []. by rewrite !app_nil_r. Qed.

Lemma channel_grows_trans w1 w2 w3 :
  channel_grows w1 w2 → channel_grows w2 w3 → channel_grows w1 w3.
Proof.
  intros (t1 & Hs1 & Hi1) (t2 & Hs2 & Hi2). exists (t1 ++ t2).
  rewrite Hs2, Hs1, Hi2, Hi1, <- !app_assoc. split; [done|].
  by rewrite length_app, replicate_add.
Qed.

Lemma channel_grows_same w w' : channel w' = channel w → channel_grows w w'.
Proof.
  unfold channel. intros H. simplify_eq. exists [].
  rewrite !app_nil_r. done.
Qed.

(** [connectSocket] leaves the channel as it is or opens one socket, with
    the token of the client and one heartbeat interval. *)
Lemma connectSocket_channel w :
  channel_grows w (snd (connectSocket w)).
Proof.
  unfold connectSocket, bind, read.
  destruct (current_socket_connected w); [apply channel_grows_refl|].
  exists [token (client w)]. simpl.
  rewrite !auth_alter by done. by rewrite map_app.
Qed.

(** X15: over any run of the event loop, whatever the listeners do, the
    sockets that were opened keep the token they were opened with, no
    interval is ever cleared, and every socket opened since has added one
    heartbeat interval of 30 seconds. *)
Theorem channel_only_grows evs w :
  ∃ toks,
    map auth (sockets (deliver_all behaviour evs w)) = map auth (sockets w) ++ toks
    ∧ intervals (deliver_all behaviour evs w)
      = intervals w ++ replicate (length toks) (30000%Z, Heartbeat)
    ∧ length (sockets (deliver_all behaviour evs w)) = length (sockets w) + length toks.
Proof.
  assert (Hg : channel_grows w (deliver_all behaviour evs w)).
  { eapply (deliver_all_inv channel_grows (λ _, True));
      first [apply channel_grows_refl | apply channel_grows_trans
            | apply connectSocket_channel | done
            | intros; apply channel_grows_same; (reflexivity || apply channel_connected)]. }
  destruct Hg as (toks & Hs & Hi).
  exists toks. split; [done|]. split; [done|].
  apply (f_equal length) in Hs. by rewrite length_app, !length_map in Hs.
Qed.

(** X16: [login] settles, and it opens no socket, gives no socket a new
    token and sets or clears no interval: a socket opened before the
    login keeps the token, or the absence of one, it was opened with
    (the listeners of [authChange] are notified, and what they go on to
    do is theirs). *)
Theorem login_keeps_channel username password rememberMe w :
  ∃ r w',
    login network behaviour username password rememberMe w = Some (r, w')
    ∧ map auth (sockets w') = map auth (sockets w)
    ∧ intervals w' = intervals w.
Proof.
  assert (Hsome : ∃ r w',
            login network behaviour username password rememberMe w = Some (r, w')).
  { unfold login, post, request.
    destruct (request_fuel_settles network behaviour "/login"
                (S (maxRetries (client w)))
                (mkOptions (Some "POST"%string)
                   (Some (JSON_stringify
                            (VObj [("username", username); ("password", password)])))
                   None) 0 w) as (r & w1 & Hreq & _); [lia|].
    rewrite Hreq. destruct r as [response|error].
    - destruct (try_catch _ _ w1) as [r' w']. by exists r', w'.
    - destruct (login_failed error w1) as [r' w']. by exists r', w'. }
  destruct Hsome as (r & w' & Hlogin). exists r, w'. split; [done|].
  assert (H : unchanged channel w w').
  { eapply (login_inv (unchanged channel) (λ _, True)); try exact Hlogin;
      try done; intros; unfold unchanged in *;
      (reflexivity || congruence || apply channel_connected). }
  unfold unchanged, channel in H. by simplify_eq.
Qed.

Lemma heartbeat_beats sid now w :
  socket (client w) = Some sid → socket_connected w sid = true →
  heartbeat now w = (Normal tt, emit_effect (beat sid now) w).
Proof.
  intros Hs Hc. unfold heartbeat, bind, read, current_socket_connected, emit_on_current.
  rewrite Hs, Hc. unfold bind, read. by rewrite Hs.
Qed.

Lemma heartbeat_silent now w :
  current_socket_connected w = false → heartbeat now w = (Normal tt, w).
Proof. intros H. unfold heartbeat, bind, read. by rewrite H. Qed.

Lemma tick_heartbeat i now w ms :
  intervals w !! i = Some (ms, Heartbeat) →
  deliver behaviour (IntervalTicks i now) w = heartbeat now w.
Proof. intros H. unfold deliver, bind, read. by rewrite H. Qed.

Lemma ticks_beat sid now (ids : list nat) : ∀ w,
  socket (client w) = Some sid → socket_connected w sid = true →
  Forall (λ t, t.2 = Heartbeat) (intervals w) →
  Forall (λ i, i < length (intervals w)) ids →
  deliver_all behaviour (map (λ i, IntervalTicks i now) ids) w
  = emit_all (replicate (length ids) (beat sid now)) w.
Proof.
  induction ids as [|i ids IH]; intros w Hs Hc Hall Hids;
    cbn [map deliver_all length replicate].
  - by rewrite emit_all_nil.
  - apply Forall_cons in Hids as [Hi Hids].
    destruct (lookup_lt_is_Some_2 _ _ Hi) as [[ms a] Hlook].
    assert (a = Heartbeat) as ->.
    { rewrite Forall_lookup in Hall. apply (Hall _ _ Hlook). }
    rewrite (tick_heartbeat _ _ _ _ Hlook), (heartbeat_beats sid) by done. simpl.
    rewrite emit_all_cons. by apply IH.
Qed.

Lemma ticks_silent now (ids : list nat) w :
  current_socket_connected w = false →
  Forall (λ t, t.2 = Heartbeat) (intervals w) →
  deliver_all behaviour (map (λ i, IntervalTicks i now) ids) w = w.
Proof.
  intros Hc Hall. induction ids as [|i ids IH]; cbn [map deliver_all]; [done|].
  assert (Hd : deliver behaviour (IntervalTicks i now) w = (Normal tt, w)).
  { unfold deliver, bind, read.
    destruct (intervals w !! i) as [[ms a]|] eqn:Hlook; [|done].
    assert (a = Heartbeat) as ->.
    { rewrite Forall_lookup in Hall. apply (Hall _ _ Hlook). }
    by apply heartbeat_silent. }
  by rewrite Hd.
Qed.

(** X17: the heartbeat closures all look at the current socket, not at the
    socket they were started for.  With the current socket connected, one
    tick of every interval sends one heartbeat per interval on that one
    socket: after [n] reconnections the server receives [n + 1] heartbeats
    every 30 seconds. *)
Theorem heartbeats_multiply sid now w :
  socket (client w) = Some sid →
  socket_connected w sid = true →
  Forall (λ t, t.2 = Heartbeat) (intervals w) →
  deliver_all behaviour (tick_all now (length (intervals w))) w
  = emit_all (replicate (length (intervals w)) (beat sid now)) w.
Proof.
  intros Hs Hc Hall. unfold tick_all.
  rewrite (ticks_beat sid now (seq 0 (length (intervals w))) w Hs Hc Hall).
  - by rewrite length_seq.
  - apply Forall_forall. intros i Hi. apply elem_of_seq in Hi. lia.
Qed.

(** X18: after [disconnectSocket] the intervals are all still there and
    keep ticking, and their ticks send nothing and change nothing. *)
Theorem heartbeat_silent_after_disconnect now w :
  Forall (λ t, t.2 = Heartbeat) (intervals w) →
  let w1 := snd (disconnectSocket w) in
  intervals w1 = intervals w
  ∧ deliver_all behaviour (tick_all now (length (intervals w1))) w1 = w1.
Proof.
  intros Hall w1.
  assert (Hi : intervals w1 = intervals w).
  { unfold w1, disconnectSocket, bind, read.
    by destruct (socket (client w)). }
  assert (Hc : current_socket_connected w1 = false).
  { unfold w1, disconnectSocket, bind, read.
    destruct (socket (client w)) as [sid|] eqn:Hs; simpl.
    - reflexivity.
    - unfold current_socket_connected. by rewrite Hs. }
  split; [exact Hi|]. unfold tick_all. apply ticks_silent; [exact Hc|].
  by rewrite Hi.
Qed.

(** X19: [connectSocket], when the current socket is not connected (there
    is none, or it is still connecting, or it was closed), opens a new
    socket with the token the client holds at that moment, installs the
    seven handlers and starts a heartbeat; it does not disconnect the
    socket it replaces, which stays as it was. *)
Theorem connectSocket_replaces_without_closing w :
  current_socket_connected w = false →
  let w1 := snd (connectSocket w) in
  let sid := length (sockets w) in
  socket (client w1) = Some sid
  ∧ sockets w1 = sockets w ++ [mkSocket false (token (client w)) socket_events]
  ∧ added w w1
    = IoOpen sid (token (client w)) :: map (SocketOn sid) socket_events
      ++ [SetInterval 30000 Heartbeat]
  ∧ timeouts w1 = timeouts w.
Proof.
  intros Hc w1 sid. unfold w1, connectSocket, bind, read. rewrite Hc. simpl.
  split; [done|]. split.
  - assert (Ha : ∀ (g : SocketObj → SocketObj) so,
              alter g sid (sockets w ++ [so]) = sockets w ++ [g so]).
    { intros g so. unfold sid.
      rewrite <- (Nat.add_0_r (length (sockets w))).
      by rewrite alter_app_r. }
    by rewrite !Ha.
  - split; [|done]. unfold added. simpl.
    rewrite <- !app_assoc. by rewrite drop_app_length.
Qed.

End ChannelHistory.


(** X17, witness: the first socket never opened, the second did; both
    heartbeats go to the second. *)
Lemma heartbeats_multiply_witness :
  deliver_all well_behaved (tick_all 1000 (length (intervals reconnected))) reconnected
  = emit_all (replicate (length (intervals reconnected)) (beat 1 1000)) reconnected.
Proof.
  apply (heartbeats_multiply well_behaved 1 1000 reconnected).
  - reflexivity.
  - reflexivity.
  - vm_compute. repeat constructor.
Defined.

(** X18, witness: the live channel is disconnected. *)
Lemma heartbeat_silent_after_disconnect_witness :
  let w1 := snd (disconnectSocket live_channel) in
  intervals w1 = intervals live_channel
  ∧ deliver_all well_behaved (tick_all 1000 (length (intervals w1))) w1 = w1.
Proof.
  apply (heartbeat_silent_after_disconnect well_behaved 1000 live_channel).
  vm_compute. repeat constructor.
Defined.

(** X19, witness: a second call while the first socket is connecting. *)
Lemma connectSocket_replaces_without_closing_witness :
  let w1 := snd (connectSocket connecting) in
  let sid := length (sockets connecting) in
  socket (client w1) = Some sid
  ∧ sockets w1 = sockets connecting ++ [mkSocket false (token (client connecting)) socket_events]
  ∧ added connecting w1
    = IoOpen sid (token (client connecting)) :: map (SocketOn sid) socket_events
      ++ [SetInterval 30000 Heartbeat]
  ∧ timeouts w1 = timeouts connecting.
Proof.
  apply (connectSocket_replaces_without_closing connecting).
  reflexivity.
Defined.


(** * The log viewer *)

Section Viewer.

Variable h : Host.

Lemma take_add {A} (l : list A) a b : take (a + b) l = take a l ++ take b (drop a l).
Proof.
  revert l. induction a as [|a IH]; intros [|x l]; simpl; try done.
  - by rewrite take_nil.
  - by rewrite IH.
Qed.

Lemma ceil_div_upper a n : 0 < n → a ≤ ceil_div a n * n.
Proof.
  intros Hn. unfold ceil_div.
  pose proof (Nat.mul_succ_div_gt (a + n - 1) n ltac:(lia)). nia.
Qed.

Lemma ceil_div_lower a n : 0 < n → 0 < a → (ceil_div a n - 1) * n < a.
Proof.
  intros Hn Ha. unfold ceil_div.
  pose proof (Nat.Div0.mul_div_le (a + n - 1) n). nia.
Qed.

Lemma ceil_div_zero n : 0 < n → ceil_div 0 n = 0.
Proof. intros Hn. unfold ceil_div. apply Nat.div_small. lia. Qed.

Lemma page_of_eq s p :
  page_of s p = take (logsPerPage s) (drop ((p - 1) * logsPerPage s) (filteredLogs s)).
Proof.
  unfold page_of, renderLogs, slice. simpl. f_equal. lia.
Qed.

(** The first [k] pages, one after the other. *)
Lemma pages_concat s k :
  concat (map (page_of s) (seq 1 k)) = take (k * logsPerPage s) (filteredLogs s).
Proof.
  induction k as [|k IH]; [done|].
  rewrite seq_S, map_app, concat_app, IH. simpl. rewrite app_nil_r.
  rewrite page_of_eq. replace (S k - 1) with k by lia.
  replace (logsPerPage s + k * logsPerPage s) with (k * logsPerPage s + logsPerPage s)
    by lia.
  by rewrite take_add.
Qed.

(** X23: the pages cut the filtered logs into consecutive runs of
    [logsPerPage] entries: pages 1 to [maxPage], one after the other, give
    back the filtered logs; each of them shows at least one entry and at
    most [logsPerPage]; a page beyond [maxPage] shows nothing. *)
Theorem pages_partition s :
  0 < logsPerPage s →
  concat (map (page_of s) (seq 1 (max_page s))) = filteredLogs s
  ∧ (∀ p, 1 ≤ p ≤ max_page s →
       page_of s p ≠ [] ∧ length (page_of s p) ≤ logsPerPage s)
  ∧ (∀ p, max_page s < p → page_of s p = []).
Proof.
  intros Hn. unfold max_page.
  pose proof (ceil_div_upper (length (filteredLogs s)) (logsPerPage s) Hn) as Hup.
  split; [|split].
  - rewrite pages_concat. by rewrite take_ge.
  - intros p Hp. rewrite page_of_eq. split.
    + assert (Hpos : 0 < length (filteredLogs s)).
      { destruct (filteredLogs s); simpl; [|lia].
        rewrite ceil_div_zero in Hp by done. lia. }
      pose proof (ceil_div_lower _ _ Hn Hpos) as Hlow.
      intros Hnil. apply (f_equal length) in Hnil.
      rewrite length_take, length_drop in Hnil. simpl in Hnil. nia.
    + rewrite length_take. lia.
  - intros p Hp. rewrite page_of_eq.
    rewrite drop_ge by nia. by rewrite take_nil.
Qed.

Lemma applyFilters_fields s :
  logs (applyFilters h s) = logs s
  ∧ filteredLogs (applyFilters h s)
    = filter (λ log, passes h (filters s) log = true) (logs s)
  ∧ currentPage (applyFilters h s) = 1
  ∧ logsPerPage (applyFilters h s) = logsPerPage s
  ∧ filters (applyFilters h s) = filters s
  ∧ isAutoScrolling (applyFilters h s) = isAutoScrolling s
  ∧ scrolls (view (applyFilters h s)) = scrolls (view s).
Proof. done. Qed.

(** X20: [addLogEntry] puts the entry first, and holds at most 10000
    entries: while fewer than 10000 are held nothing is dropped; once
    10000 are held, the next entry drops all but the 4999 newest of them,
    so that 5000 remain. *)
Theorem addLogEntry_keeps_newest logEntry s :
  let s' := addLogEntry h logEntry s in
  head (logs s') = Some logEntry
  ∧ (Z.of_nat (length (logs s')) ≤ 10000)%Z
  ∧ ((Z.of_nat (length (logs s)) < 10000)%Z → logs s' = logEntry :: logs s)
  ∧ ((10000 ≤ Z.of_nat (length (logs s)))%Z →
       logs s' = logEntry :: take (Z.to_nat 4999) (logs s)
       ∧ Z.of_nat (length (logs s')) = 5000%Z).
Proof.
  intros s'.
  assert (Hlogs : logs s'
            = if (10000 <? Z.of_nat (length (logEntry :: logs s)))%Z
              then slice (logEntry :: logs s) 0 (Z.to_nat 5000)
              else logEntry :: logs s).
  { unfold s', addLogEntry. simpl.
    destruct (10000 <? _)%Z; simpl; by destruct (isAutoScrolling s). }
  rewrite Hlogs. unfold slice. rewrite Nat.sub_0_r, drop_0.
  replace (Z.to_nat 5000) with (S (Z.to_nat 4999)) by lia.
  destruct (Z.ltb_spec 10000 (Z.of_nat (length (logEntry :: logs s)))) as [Hgt|Hle];
    simpl in *.
  - split; [done|]. split; [rewrite length_take; lia|].
    split; [lia|]. intros _. split; [done|]. rewrite length_take. lia.
  - split; [done|]. split; [lia|]. split; [done|]. lia.
Qed.

(** X21: every streamed entry sends the reader back to page 1, whatever
    page was shown: [applyFilters] resets the page before [addLogEntry]
    looks at it.  The filtered logs are recomputed, the first page is
    rendered, and the view scrolls when auto-scrolling is on. *)
Theorem addLogEntry_returns_to_first_page logEntry s :
  let s' := addLogEntry h logEntry s in
  currentPage s' = 1
  ∧ filteredLogs s' = filter (λ log, passes h (filters s) log = true) (logs s')
  ∧ shown (view s') = take (logsPerPage s) (filteredLogs s')
  ∧ scrolls (view s') = scrolls (view s) + (if isAutoScrolling s then 1 else 0).
Proof.
  intros s'. unfold s', addLogEntry. simpl.
  destruct (10000 <? _)%Z; simpl; destruct (isAutoScrolling s); simpl;
    unfold slice; rewrite ?Nat.sub_0_r, ?drop_0;
    repeat split; try done; try lia;
    f_equal; lia.
Qed.

Lemma passes_no_filters log : passes h no_filters log = true.
Proof. reflexivity. Qed.

Lemma filter_no_filters (l : list LogEntry) :
  filter (λ log, passes h no_filters log = true) l = l.
Proof.
  induction l as [|log l IH]; [done|].
  rewrite filter_cons_True by apply passes_no_filters. by rewrite IH.
Qed.

(** What it is to pass the filters. *)
Lemma passes_spec f log :
  passes h f log = true ↔
    (Filters.level f = "all" ∨ level log = Filters.level f)
    ∧ (Filters.component f = "all" ∨ component log = Filters.component f)
    ∧ (Filters.search f = "" ∨ search_hit h f log = true)
    ∧ in_range h f log = true.
Proof.
  unfold passes.
  destruct (String.eqb_spec (Filters.level f) "all") as [Hl|Hl];
    destruct (String.eqb_spec (level log) (Filters.level f)) as [Hl'|Hl'];
    destruct (String.eqb_spec (Filters.component f) "all") as [Hc|Hc];
    destruct (String.eqb_spec (component log) (Filters.component f)) as [Hc'|Hc'];
    destruct (String.eqb_spec (Filters.search f) "") as [Hs|Hs];
    destruct (search_hit h f log); simpl; intuition congruence.
Qed.

(** X22: [applyFilters] keeps, in their order, exactly the logs that pass
    every filter that is set: the level and the component chosen (unless
    ['all']), the search text (unless empty), and the date range (when
    both ends are set), which an entry whose timestamp is no date always
    passes.  With the filters cleared, every log is kept. *)
Theorem applyFilters_keeps_matching s :
  let f := filters s in
  filteredLogs (applyFilters h s) `sublist_of` logs s
  ∧ (∀ log, log ∈ filteredLogs (applyFilters h s) ↔
       log ∈ logs s
       ∧ (Filters.level f = "all" ∨ level log = Filters.level f)
       ∧ (Filters.component f = "all" ∨ component log = Filters.component f)
       ∧ (Filters.search f = "" ∨ search_hit h f log = true)
       ∧ (∀ startDate endDate logDate,
            Filters.startDate f = Some startDate → Filters.endDate f = Some endDate →
            parse_date h (timestamp log) = Some logDate →
            (startDate ≤ logDate ≤ endDate)%Z))
  ∧ filteredLogs (clearFilters h s) = logs s.
Proof.
  intros f. destruct (applyFilters_fields s) as (_ & Hf & _). rewrite Hf.
  split; [apply sublist_filter|]. split.
  - intros log. rewrite list_elem_of_filter, passes_spec. fold f.
    assert (Hr : in_range h f log = true ↔
              ∀ startDate endDate logDate,
                Filters.startDate f = Some startDate → Filters.endDate f = Some endDate →
                parse_date h (timestamp log) = Some logDate →
                (startDate ≤ logDate ≤ endDate)%Z).
    { unfold in_range.
      destruct (Filters.startDate f) as [a|]; [|naive_solver].
      destruct (Filters.endDate f) as [b|]; [|naive_solver].
      destruct (parse_date h (timestamp log)) as [d|]; [|naive_solver].
      rewrite negb_true_iff, orb_false_iff, !Z.ltb_ge.
      split; [intros ? ? ? ? ? ? ?; simplify_eq; lia|].
      intros H. specialize (H a b d eq_refl eq_refl eq_refl). lia. }
    rewrite Hr. tauto.
  - unfold clearFilters.
    destruct (applyFilters_fields (set_filters no_filters s)) as (_ & Hc & _).
    rewrite Hc. simpl. apply filter_no_filters.
Qed.

End Viewer.


(** X23, witness: 120 entries on pages of 50. *)
Lemma pages_partition_witness :
  concat (map (page_of reading) (seq 1 (max_page reading))) = filteredLogs reading
  ∧ (∀ p, 1 ≤ p ≤ max_page reading →
       page_of reading p ≠ [] ∧ length (page_of reading p) ≤ logsPerPage reading)
  ∧ (∀ p, max_page reading < p → page_of reading p = []).
Proof.
  apply (pages_partition reading). vm_compute. lia.
Defined.

Section ViewerSync.

Variable h : Host.

Lemma in_sync_applyFilters s : in_sync h (applyFilters h s).
Proof. unfold in_sync. simpl. repeat split; auto. Qed.

Lemma in_sync_addLogEntry logEntry s : in_sync h (addLogEntry h logEntry s).
Proof.
  unfold in_sync, addLogEntry. simpl.
  destruct (10000 <? _)%Z; simpl; destruct (isAutoScrolling s); simpl;
    repeat split; auto.
Qed.

Lemma in_sync_nextPage s : in_sync h s → in_sync h (nextPage s).
Proof.
  intros (H1 & H2 & H3 & H4 & H5). unfold nextPage.
  destruct (Nat.ltb_spec (currentPage s)
              (ceil_div (length (filteredLogs s)) (logsPerPage s))) as [Hlt|Hge];
    [|done].
  unfold in_sync, max_page. simpl. repeat split; auto; lia.
Qed.

Lemma in_sync_previousPage s : in_sync h s → in_sync h (previousPage s).
Proof.
  intros (H1 & H2 & H3 & H4 & H5). unfold previousPage.
  destruct (Nat.ltb_spec 1 (currentPage s)) as [Hlt|Hge]; [|done].
  unfold in_sync, max_page in *. simpl. repeat split; auto; lia.
Qed.

Lemma in_sync_perform c s : in_sync h s → in_sync h (perform h c s).
Proof.
  intros Hs. destruct c; simpl.
  - apply in_sync_addLogEntry.
  - by apply in_sync_previousPage.
  - by apply in_sync_nextPage.
  - apply in_sync_applyFilters.
  - apply in_sync_applyFilters.
  - apply in_sync_applyFilters.
Qed.

Lemma perform_logsPerPage c s : logsPerPage (perform h c s) = logsPerPage s.
Proof.
  destruct c; simpl; try done.
  - unfold addLogEntry. simpl.
    destruct (10000 <? _)%Z; simpl; by destruct (isAutoScrolling s).
  - unfold previousPage. by destruct (1 <? currentPage s).
  - unfold nextPage. by destruct (currentPage s <? _).
Qed.

Lemma perform_all_snoc cs c s :
  perform_all h (cs ++ [c]) s = perform h c (perform_all h cs s).
Proof. unfold perform_all. by rewrite foldl_app. Qed.

Lemma ceil_div_positive a n : 0 < n → 0 < a → 0 < ceil_div a n.
Proof.
  intros Hn Ha. pose proof (ceil_div_upper a n Hn).
  destruct (ceil_div a n); lia.
Qed.

(** In a viewer that is in sync with pages of positive size, the current
    page starts inside the filtered logs, unless there are none. *)
Lemma in_sync_offset s :
  in_sync h s → 0 < logsPerPage s → filteredLogs s ≠ [] →
  (currentPage s - 1) * logsPerPage s < length (filteredLogs s).
Proof.
  intros (H1 & H2 & _) Hn Hne. unfold max_page in H2.
  assert (Hpos : 0 < length (filteredLogs s)) by (destruct (filteredLogs s); simpl; [done|lia]).
  pose proof (ceil_div_lower _ _ Hn Hpos) as Hlow.
  pose proof (ceil_div_positive _ _ Hn Hpos) as Hq.
  destruct H2 as [->|H2]; [simpl; lia|]. nia.
Qed.

(** X24: calls of [addLogEntry] with entries that have the four fields,
    of [previousPage], [nextPage] and [clearFilters], and choices of a
    level or a component, in any number and order, keep the viewer in
    sync.  The page number is 1 when there are no pages and otherwise
    between 1 and the number of pages; the filtered logs are the logs
    that pass the filters; the entries on the page are those of the
    current page and the labels and buttons are up to date; and the page
    shown is not empty while there are filtered logs. *)
Theorem viewer_stays_in_sync cs s :
  in_sync h s →
  let s' := perform_all h cs s in
  in_sync h s'
  ∧ 1 ≤ currentPage s' ≤ Nat.max 1 (max_page s')
  ∧ (max_page s' = 0 → currentPage s' = 1)
  ∧ logsPerPage s' = logsPerPage s
  ∧ (0 < logsPerPage s → filteredLogs s' ≠ [] → shown (view s') ≠ []).
Proof.
  intros Hs s'.
  assert (H : in_sync h s' ∧ logsPerPage s' = logsPerPage s).
  { unfold s'. induction cs as [|c cs IH] using rev_ind; [done|].
    rewrite perform_all_snoc. destruct IH as [IH1 IH2]. split.
    - by apply in_sync_perform.
    - by rewrite perform_logsPerPage. }
  destruct H as [Hsync Hn]. split; [done|].
  pose proof Hsync as (H1 & H2 & _).
  split; [lia|]. split; [lia|]. split; [done|].
  intros Hpos Hne. rewrite <- Hn in Hpos.
  pose proof (in_sync_offset s' Hsync Hpos Hne) as Hoff.
  destruct Hsync as (_ & _ & _ & H4 & _). rewrite <- H4.
  unfold renderLogs, slice. simpl. intros Hnil.
  apply (f_equal length) in Hnil. rewrite length_take, length_drop in Hnil.
  simpl in Hnil. lia.
Qed.

(** X25: in a viewer that is in sync, the buttons tell what the clicks
    do: [next] is disabled exactly when [nextPage] would do nothing, and
    [prev] exactly when [previousPage] would do nothing.  The total is the
    number of filtered logs; the range shown is [1-0] when there are none,
    and otherwise runs from the first to the last entry on the page. *)
Theorem buttons_match_navigation s :
  in_sync h s →
  (next_disabled (view s) = true ↔ nextPage s = s)
  ∧ (prev_disabled (view s) = true ↔ previousPage s = s)
  ∧ total_count (view s) = length (filteredLogs s)
  ∧ (filteredLogs s = [] → showing (view s) = (1, 0))
  ∧ (0 < logsPerPage s → filteredLogs s ≠ [] →
       (showing (view s)).1 = (currentPage s - 1) * logsPerPage s + 1
       ∧ (showing (view s)).1 ≤ (showing (view s)).2
       ∧ (showing (view s)).2 + 1 - (showing (view s)).1 = length (shown (view s))
       ∧ (showing (view s)).2 ≤ length (filteredLogs s)).
Proof.
  intros Hs. pose proof Hs as (H1 & H2 & H3 & H4 & H5).
  split; [|split; [|split; [|split]]].
  - rewrite <- H5 at 1. simpl. unfold nextPage.
    destruct (Nat.ltb_spec (currentPage s)
                (ceil_div (length (filteredLogs s)) (logsPerPage s))) as [Hlt|Hge].
    + split.
      * rewrite orb_true_iff, Nat.leb_le, Nat.eqb_eq. lia.
      * intros Heq. apply (f_equal currentPage) in Heq. simpl in Heq. lia.
    + split; [done|]. intros _. rewrite orb_true_iff, Nat.leb_le. by left.
  - rewrite <- H5 at 1. simpl. unfold previousPage.
    destruct (Nat.ltb_spec 1 (currentPage s)) as [Hlt|Hge].
    + split.
      * rewrite Nat.leb_le. lia.
      * intros Heq. apply (f_equal currentPage) in Heq. simpl in Heq. lia.
    + split; [done|]. intros _. rewrite Nat.leb_le. done.
  - by rewrite <- H5.
  - intros Hnil. rewrite <- H5. simpl. rewrite Hnil. simpl.
    assert (Hp : currentPage s = 1).
    { destruct H2 as [|H2]; [done|]. unfold max_page in H2. rewrite Hnil in H2.
      cbn [length] in H2.
      destruct (logsPerPage s) as [|n].
      - assert (Hz : ceil_div 0 0 = 0) by reflexivity. rewrite Hz in H2. lia.
      - rewrite ceil_div_zero in H2 by lia. lia. }
    rewrite Hp. simpl. f_equal. lia.
  - intros Hn Hne. pose proof (in_sync_offset s Hs Hn Hne) as Hoff.
    assert (Hshow : showing (view s)
              = ((currentPage s - 1) * logsPerPage s + 1,
                 Nat.min ((currentPage s - 1) * logsPerPage s + 1 + logsPerPage s - 1)
                   (length (filteredLogs s)))) by (by rewrite <- H5).
    assert (Hshown : shown (view s)
              = take (logsPerPage s)
                  (drop ((currentPage s - 1) * logsPerPage s) (filteredLogs s))).
    { rewrite <- H4. unfold renderLogs, slice. simpl. f_equal. lia. }
    rewrite Hshow, Hshown. cbn [fst snd]. rewrite length_take, length_drop.
    set (o := (currentPage s - 1) * logsPerPage s) in *.
    repeat split; lia.
Qed.

End ViewerSync.

(** X24, witness: an entry is added, the reader pages forward, picks a
    level that no entry has, and pages back. *)
Lemma viewer_stays_in_sync_witness :
  let s' := perform_all plain_host
              [AddLogEntry error_entry; NextPage; ChooseLevel "CRITICAL"; PreviousPage]
              reading in
  in_sync plain_host s'
  ∧ 1 ≤ currentPage s' ≤ Nat.max 1 (max_page s')
  ∧ (max_page s' = 0 → currentPage s' = 1)
  ∧ logsPerPage s' = logsPerPage reading
  ∧ (0 < logsPerPage reading → filteredLogs s' ≠ [] → shown (view s') ≠ []).
Proof.
  apply (viewer_stays_in_sync plain_host
           [AddLogEntry error_entry; NextPage; ChooseLevel "CRITICAL"; PreviousPage] reading).
  vm_compute. repeat split; auto.
Defined.

(** X25, witness: the reader is on the last page of three. *)
Lemma buttons_match_navigation_witness :
  (next_disabled (view reading) = true ↔ nextPage reading = reading)
  ∧ (prev_disabled (view reading) = true ↔ previousPage reading = reading)
  ∧ total_count (view reading) = length (filteredLogs reading)
  ∧ (filteredLogs reading = [] → showing (view reading) = (1, 0))
  ∧ (0 < logsPerPage reading → filteredLogs reading ≠ [] →
       (showing (view reading)).1 = (currentPage reading - 1) * logsPerPage reading + 1
       ∧ (showing (view reading)).1 ≤ (showing (view reading)).2
       ∧ (showing (view reading)).2 + 1 - (showing (view reading)).1
         = length (shown (view reading))
       ∧ (showing (view reading)).2 ≤ length (filteredLogs reading)).
Proof.
  apply (buttons_match_navigation plain_host reading).
  vm_compute. repeat split; auto.
Defined.


(** ** What the event loop never does *)

Section EventLoop.

Variable behaviour : Callback → JsValue → CallbackOutcome.

Lemma channel_only_refl w : channel_only w w.
Proof. repeat split. apply grows_refl. Qed.

Lemma channel_only_trans w1 w2 w3 :
  channel_only w1 w2 → channel_only w2 w3 → channel_only w1 w3.
Proof.
  intros (Hc1 & Hf1 & Hl1 & Hg1) (Hc2 & Hf2 & Hl2 & Hg2).
  repeat split; try congruence. by eapply grows_trans.
Qed.

Lemma channel_only_effect e w : channel_effect e → channel_only w (emit_effect e w).
Proof.
  intros He. repeat split. exists [e]. split; [done|]. by constructor.
Qed.

(** A step that leaves the credentials, the fetch counter, the listeners
    and the trace alone. *)
Lemma channel_only_silent w w' :
  credentials w' = credentials w → fetches w' = fetches w →
  eventListeners (client w') = eventListeners (client w) →
  trace w' = trace w → channel_only w w'.
Proof.
  intros Hc Hf Hl Ht. repeat split; try done.
  exists []. split; [by rewrite Ht, app_nil_r | constructor].
Qed.

Lemma connectSocket_channel_only w : channel_only w (snd (connectSocket w)).
Proof.
  unfold connectSocket, bind, read.
  destruct (current_socket_connected w); [apply channel_only_refl|].
  split; [reflexivity|]. split; [reflexivity|]. split; [reflexivity|].
  eexists. split.
  - simpl. rewrite <- !app_assoc. reflexivity.
  - repeat constructor.
Qed.

(** X26: the handlers of socket events and the timers, over any run of
    the event loop and whatever the listeners return or throw, call
    [fetch] never, leave the token and the persisted entries alone,
    register and remove no listener, disconnect no socket, and send
    nothing on a socket but the subscription to the dashboard room and
    heartbeats. *)
Theorem event_loop_stays_on_channel evs w :
  let w' := deliver_all behaviour evs w in
  credentials w' = credentials w
  ∧ fetches w' = fetches w
  ∧ eventListeners (client w') = eventListeners (client w)
  ∧ Forall channel_effect (added w w').
Proof.
  intros w'.
  assert (H : channel_only w w').
  { unfold w'. eapply (deliver_all_inv channel_only channel_effect);
      first [ apply channel_only_refl | apply channel_only_trans
            | apply connectSocket_channel_only
            | apply channel_only_effect
            | (intros; apply channel_only_silent; reflexivity)
            | (intros; simpl; auto; fail)
            | (intros; simpl; right; split; [reflexivity|]; by eexists) ]. }
  destruct H as (Hc & Hf & Hl & es & Htr & Hes).
  repeat split; try done. by rewrite (added_app _ _ _ Htr).
Qed.

End EventLoop.


(** ** The log viewer on the channel *)

Section ViewerChannel.

Variable behaviour : Callback → JsValue → CallbackOutcome.



End ViewerChannel.


(** ** Accounts and reloads *)

Section Accounts.

Variable network : nat → FetchOutcome.
Variable behaviour : Callback → JsValue → CallbackOutcome.

(** X28: [register] is one POST of the three fields to [/register], sent
    again on failure like any request, and nothing more: unless an
    attempt is answered 401 within the budget, it leaves the client, the
    storage and the sockets as they were and notifies nobody; a token in
    the response is not installed. *)
Theorem register_does_not_sign_in username email password w :
  (∀ i, i < maxRetries (client w) → status_at network (fetches w + i) ≠ Some 401%Z) →
  ∃ res w' config es,
    register network behaviour username email password w = Some (res, w')
    ∧ trace w' = trace w ++ Fetch (baseURL (client w) ++ "/register")%string config :: es
    ∧ cfg_method config = Some "POST"%string
    ∧ cfg_body config
      = Some (JSON_stringify
                (VObj [("username", username); ("email", email); ("password", password)]))
    ∧ Forall is_transport es
    ∧ client w' = client w
    ∧ localStorage w' = localStorage w
    ∧ sockets w' = sockets w.
Proof.
  intros Hno. unfold register, post, request.
  set (options := mkOptions _ _ _).
  destruct (request_fuel_settles network behaviour "/register"
              (S (maxRetries (client w))) options 0 w) as (res & w' & Hreq & _); [lia|].
  destruct (request_fuel_wire network behaviour _ _ _ _ _ _ _ Hreq)
    as (es & Htr & Hh & _).
  assert (Ht : transport_only w w').
  { eapply request_fuel_transport; [|exact Hreq]. intros i Hi. apply Hno. lia. }
  destruct Ht as (n & es' & Hw & Hes').
  destruct es as [|e es]; [discriminate|]. simpl in Hh. simplify_eq.
  simpl in Htr. apply app_inv_head in Htr. subst es'.
  eexists _, _, _, es. split; [exact Hreq|]. split; [reflexivity|].
  apply Forall_cons in Hes' as [_ Hes]. done.
Qed.

(** X29: the remember-me flag is written and never read.  After a login
    whose response carries a non-empty token, a client constructed from
    the storage (the next page load) holds that token, is authenticated
    and opens its socket with it, whether [rememberMe] was passed or not
    and whether the listeners of [authChange] returned or threw. *)
Theorem session_survives_reload username password rememberMe w response w1 t user :
  post network behaviour "/login" (login_data username password) w
  = Some (Normal response, w1) →
  get_prop response "token" = inr (VStr t) →
  get_prop response "user" = inr user →
  t ≠ ""%string →
  ∃ r w',
    login network behaviour username password rememberMe w = Some (r, w')
    ∧ localStorage w' !! "token" = Some t
    ∧ token (client (startup (localStorage w'))) = VStr t
    ∧ isAuthenticated (startup (localStorage w')) = true
    ∧ sockets (startup (localStorage w')) = [mkSocket false (VStr t) socket_events].
Proof.
  intros Hpost Htok Huser Ht.
  rewrite (login_accepted _ _ _ _ _ _ _ _ _ _ Hpost Htok Huser).
  destruct (remembered_facts (VStr t) rememberMe w1) as (_ & Hst & _).
  rewrite broadcastEvent_registered.
  destruct (forEach_shape behaviour
              (registered (remembered (VStr t) rememberMe w1) "authChange")
              (signed_in_event user)) as (res & k & Hshape).
  rewrite Hshape.
  assert (Hboot : ∀ store, store !! "token" = Some t →
            token (client (startup store)) = VStr t
            ∧ isAuthenticated (startup store) = true
            ∧ sockets (startup store) = [mkSocket false (VStr t) socket_events]).
  { intros store Hs.
    assert (Hauth : isAuthenticated (boot store) = true).
    { unfold isAuthenticated, boot, constructor, getItem. simpl. rewrite Hs. simpl.
      destruct (String.eqb_spec t ""); [done|reflexivity]. }
    unfold startup. rewrite Hauth.
    unfold connectSocket, bind, read, isAuthenticated, boot, constructor, getItem.
    simpl. rewrite Hs. simpl.
    split; [done|]. split; [|done].
    destruct (String.eqb_spec t ""); [done|reflexivity]. }
  destruct res as [[]|e]; eexists _, _; (split; [reflexivity|]); simpl;
    (split; [exact Hst|]); apply Hboot; exact Hst.
Qed.

End Accounts.

(** X28, witness: an account is created; the token of the answer is not
    kept. *)
Lemma register_does_not_sign_in_witness :
  ∃ res w' config es,
    register accepts_registration well_behaved (VStr "operator") (VStr "op@example.org")
      (VStr "secret") (boot ∅) = Some (res, w')
    ∧ trace w' = trace (boot ∅)
                 ++ Fetch (baseURL (client (boot ∅)) ++ "/register")%string config :: es
    ∧ cfg_method config = Some "POST"%string
    ∧ cfg_body config
      = Some (JSON_stringify
                (VObj [("username", VStr "operator"); ("email", VStr "op@example.org");
                       ("password", VStr "secret")]))
    ∧ Forall is_transport es
    ∧ client w' = client (boot ∅)
    ∧ localStorage w' = localStorage (boot ∅)
    ∧ sockets w' = sockets (boot ∅).
Proof.
  apply (register_does_not_sign_in accepts_registration well_behaved (VStr "operator")
           (VStr "op@example.org") (VStr "secret") (boot ∅)).
  intros i _. discriminate.
Defined.

(** X29, witness: the operator logs in without asking to be remembered,
    and reloads the page. *)
Lemma session_survives_reload_witness :
  ∃ r w',
    login accepts_login well_behaved (VStr "operator") (VStr "secret") false (boot ∅)
    = Some (r, w')
    ∧ localStorage w' !! "token" = Some "t0k3n"%string
    ∧ token (client (startup (localStorage w'))) = VStr "t0k3n"
    ∧ isAuthenticated (startup (localStorage w')) = true
    ∧ sockets (startup (localStorage w')) = [mkSocket false (VStr "t0k3n") socket_events].
Proof.
  apply (session_survives_reload accepts_login well_behaved (VStr "operator") (VStr "secret")
           false (boot ∅)
           (VObj [("token", VStr "t0k3n"); ("user", VStr "operator")])
           (snd (default (Normal VNull, boot ∅)
                   (post accepts_login well_behaved "/login"
                      (login_data (VStr "operator") (VStr "secret")) (boot ∅))))
           "t0k3n" (VStr "operator")).
  - vm_compute. reflexivity.
  - reflexivity.
  - reflexivity.
  - discriminate.
Defined.
